(** * dts2nim: the declaration builder and the dependency-ordered emitter

    A shallow embedding of [src/tools/dts2nim.ts]: the identifier scrubber,
    the [Gen] declaration objects with their [depends]/[dependKey], the
    [GenVendor] factory (with its memo table of [ClassGen] objects and its
    exceptions), and the final ordering of the generators through the
    strongly connected components of the dependency graph.

    Strings are [string] (sequences of 8-bit characters): identifiers are
    taken to be ASCII, and [toUpperCase] only moves [a-z]. *)

From Stdlib Require Import String Ascii List Bool Arith ZArith Lia.
From Stdlib Require Import Numbers.DecimalString.
From stdpp Require Import gmap strings list fin_maps.

Set Warnings "-register-all,-clear-no-such-hyp".

(** ** Support *)

Module Support.

(** The properties every JS object literal [{}] inherits from
    [Object.prototype]; all of them hold truthy values.  The tables
    [blacklist] and [reserved] are such objects, so [table[key]] is truthy
    on these keys as well as on the keys the script stored. *)
Definition objectPrototypeKeys : list string :=
  [ "constructor"; "hasOwnProperty"; "isPrototypeOf"; "propertyIsEnumerable";
    "toLocaleString"; "toString"; "valueOf";
    "__defineGetter__"; "__defineSetter__"; "__lookupGetter__";
    "__lookupSetter__"; "__proto__" ].

Definition inList (key : string) (l : list string) : bool :=
  existsb (String.eqb key) l.

(** [table[key]] used as a condition, for a table filled with [true]. *)
Definition truthyLookup (own : list string) (key : string) : bool :=
  inList key own || inList key objectPrototypeKeys.

Definition blacklistKeys : list string :=
  [ "class:NodeList"; "class:Array"; "class:ArrayConstructor";
    "field:Element.webkitRequestFullScreen";
    "field:HTMLVideoElement.webkitEnterFullscreen";
    "field:HTMLVideoElement.webkitExitFullscreen" ].

Definition blacklisted (nspace name : string) : bool :=
  truthyLookup blacklistKeys name
  || truthyLookup blacklistKeys (nspace +:+ ":" +:+ name).

Definition toUpperCase (c : ascii) : ascii :=
  let n := nat_of_ascii c in
  if (97 <=? n)%nat && (n <=? 122)%nat then ascii_of_nat (n - 32) else c.

Definition capitalizeFirstLetter (str : string) : string :=
  match str with
  | EmptyString => EmptyString
  | String c rest => String (toUpperCase c) rest
  end.

(** [str.slice(1)] *)
Definition slice1 (str : string) : string :=
  match str with
  | EmptyString => EmptyString
  | String _ rest => rest
  end.

Definition reservedWords : list string :=
  [ "addr"; "and"; "as"; "asm"; "atomic"; "bind"; "block"; "break"; "case";
    "cast"; "concept"; "const"; "continue"; "converter"; "defer"; "discard";
    "distinct"; "div"; "do"; "elif"; "else"; "end"; "enum"; "except";
    "export"; "finally"; "for"; "from"; "func"; "generic"; "if"; "import";
    "in"; "include"; "interface"; "is"; "isnot"; "iterator"; "let"; "macro";
    "method"; "mixin"; "mod"; "nil"; "not"; "notin"; "object"; "of"; "or";
    "out"; "proc"; "ptr"; "raise"; "ref"; "return"; "shl"; "shr"; "static";
    "template"; "try"; "tuple"; "type"; "using"; "var"; "when"; "while";
    "with"; "without"; "xor"; "yield" ].

Definition reserved (id : string) : bool := truthyLookup reservedWords id.

Definition isUnderscore (c : ascii) : bool := Ascii.eqb c "_".

Definition isDollar (c : ascii) : bool := Ascii.eqb c "$".

Definition startsWithUnderscore (id : string) : bool :=
  match id with
  | String c _ => isUnderscore c
  | EmptyString => false
  end.

(** The rest of a string after its leading underscores. *)
Fixpoint skipUnderscores (s : string) : string :=
  match s with
  | String c rest => if isUnderscore c then skipUnderscores rest else s
  | EmptyString => EmptyString
  end.

(** [s.replace(/_{2,}/, "_")]: the pattern has no [g] flag, so only the
    leftmost match is replaced; the match is greedy, so it is the whole run
    that starts there. *)
Fixpoint replaceUnderscores (s : string) : string :=
  match s with
  | EmptyString => EmptyString
  | String c rest =>
      if isUnderscore c && startsWithUnderscore rest
      then String "_" (skipUnderscores rest)
      else String c (replaceUnderscores rest)
  end.

(** [s.replace(/\$/, by)]: again only the leftmost match. *)
Fixpoint replaceDollar (by_ s : string) : string :=
  match s with
  | EmptyString => EmptyString
  | String c rest =>
      if isDollar c then by_ +:+ rest else String c (replaceDollar by_ rest)
  end.

Definition identifierScrub (id : string) : string :=
  let id := replaceDollar "zz" (replaceUnderscores id) in
  let id := if startsWithUnderscore id
            then "z" +:+ capitalizeFirstLetter (slice1 id) else id in
  let id := if reserved id
            then "x" +:+ capitalizeFirstLetter (slice1 id) else id in
  id.

Definition needIdentifierScrub (id : string) : bool :=
  negb (String.eqb id (identifierScrub id)).

(** In a replacement string [$$] stands for one dollar sign, so
    [replace(/\$/, "$$$$")] doubles the first dollar sign. *)
Definition importIdentifier (id : string) : string := replaceDollar "$$" id.

Definition dquote : string := String (ascii_of_nat 34) EmptyString.

Definition importDirective (id : string) (cpp : bool) : string :=
  "importc" +:+ (if cpp then "pp" else "")
  +:+ (if needIdentifierScrub id
       then ":" +:+ dquote +:+ importIdentifier id +:+ dquote else "").

(** Does [s] hold a run of two or more underscores? *)
Fixpoint hasUnderscoreRun (s : string) : bool :=
  match s with
  | EmptyString => false
  | String c rest =>
      (isUnderscore c && startsWithUnderscore rest) || hasUnderscoreRun rest
  end.

(** Does [s] hold a dollar sign? *)
Fixpoint hasDollar (s : string) : bool :=
  match s with
  | EmptyString => false
  | String c rest => isDollar c || hasDollar rest
  end.

(** *** Bit tests

    Flags are integers.  The operands of [&] are taken modulo 2^32 into
    the signed 32-bit range, where the result lies as well. *)

(** [ToInt32] of an integer *)
Definition toInt32 (n : Z) : Z := ((n + 2 ^ 31) mod 2 ^ 32 - 2 ^ 31)%Z.

(** [a & b] *)
Definition bitAnd (a b : Z) : Z := Z.land (toInt32 a) (toInt32 b).

Definition hasBit (a b : Z) : bool := Z.eqb (bitAnd a b) b.

(** The value of a property of an enum object: a number, or the name that
    the reverse mapping of a number gives. *)
Inductive EnumValue :=
| NumberValue (n : Z)
| StringValue (s : string).

(** [!result] for a string *)
Definition isEmpty (s : string) : bool :=
  match s with
  | EmptyString => true
  | String _ _ => false
  end.

(** The loop of [enumBitstring]; [Enum] lists the properties of the enum
    object in the order in which [for ... in] visits them. *)
Fixpoint enumLoop (Enum : list (string * EnumValue)) (value : Z)
    (tight : bool) (result : string) : string :=
  match Enum with
  | [] => result
  | (key, bit) :: rest =>
      let result :=
        match bit with
        | StringValue _ => result
        | NumberValue bit =>
            if Z.eqb bit 0 then result
            else
              let masked := bitAnd value bit in
              if (if tight then Z.eqb masked bit else negb (Z.eqb masked 0))
              then (if isEmpty result then result else result +:+ "+")
                   +:+ key
              else result
        end in
      enumLoop rest value tight result
  end.

Definition enumBitstring (Enum : list (string * EnumValue)) (value : Z)
    (tight : bool) : string :=
  enumLoop Enum value tight "".

End Support.

Import Support.


(** ** The oracle: what the script reads from the TypeScript checker

    The checker's objects are cyclic (a class has members whose types are
    classes again), so a symbol that a type refers to is named by an
    identifier, and the oracle maps identifiers to symbols.  Every flag is a
    single bit of [flags]; a test [flags & X] or [hasBit(flags, X)] is the
    boolean of that bit. *)

Module Oracle.

Definition SymId := nat.

Record TsType := {
  ty_Number : bool;
  ty_String : bool;
  ty_Void : bool;
  ty_Boolean : bool;
  ty_Class : bool;
  ty_symbol : option SymId;      (* [tsType.symbol] *)
  ty_text : string               (* [typeChecker.typeToString(tsType)] *)
}.

(** A parameter symbol: its name and [getTypeOfSymbolAtLocation] of it. *)
Record ParamSym := {
  par_name : string;
  par_type : TsType
}.

Record CallSignature := {
  cs_parameters : list ParamSym;   (* [getParameters()] *)
  cs_returnType : TsType           (* [getReturnType()] *)
}.

Record SymbolFlags := {
  fl_Class : bool;
  fl_Interface : bool;
  fl_BlockScopedVariable : bool;
  fl_FunctionScopedVariable : bool;
  fl_Function : bool;
  fl_Constructor : bool;
  fl_Property : bool;
  fl_Method : bool
}.

Definition noFlags : SymbolFlags :=
  Build_SymbolFlags false false false false false false false false.

(** A member of a class or interface: [mem_declarations] lists, for each
    declaration, the symbols of its parameters; [mem_type] is the member's
    type and [mem_callSignatures] that type's [getCallSignatures()]. *)
Record Member := {
  mem_name : string;
  mem_flags : SymbolFlags;
  mem_declarations : list (list ParamSym);
  mem_type : TsType;
  mem_callSignatures : list CallSignature
}.

(** A module-scope symbol.  [sym_heritageClauses] is [None] when
    [declarations[0].heritageClauses] is missing; otherwise it holds what
    [getSymbolAtLocation] gives for
    [heritageClauses[0].types[0].expression]: a symbol, or none (as for
    [class A extends mk()]).  [sym_members] is the member table in the
    order [for ... in] enumerates it. *)
Record Symbol := {
  sym_name : string;
  sym_flags : SymbolFlags;
  sym_type : TsType;
  sym_callSignatures : list CallSignature;
  sym_heritageClauses : option (option SymId);
  sym_members : list Member
}.

(** The symbol of the heritage expression, when there is one. *)
Definition sym_heritage (sym : Symbol) : option SymId :=
  match sym_heritageClauses sym with
  | Some (Some inheritSymbol) => Some inheritSymbol
  | _ => None
  end.

Definition Oracle := SymId -> Symbol.

End Oracle.

Import Oracle.

(** ** Exceptions and the builder's state *)

Inductive Exn :=
| UnusableType (type : TsType)
| GenConstructFail (message : string)
| JsError (message : string).      (* any other error: [TypeError], [Error] *)

Inductive Outcome (A : Type) :=
| Ok (a : A)
| Throw (e : Exn).
Arguments Ok {A} a.
Arguments Throw {A} e.

(** ** Generator classes *)

Module Gens.

(** A [TypeGen] is a [LiteralTypeGen] or a [ClassGen] object.  A [ClassGen]
    used as the type of a field, parameter or result is only ever asked for
    its [name] ([typeString], [dependKey]), which never changes, so the
    reference to the object is kept as that name; the object itself lives in
    the vendor's table [classes] under the same name. *)
Inductive TypeGen :=
| LiteralTypeGen (literal : string)
| ClassType (name : string).

Definition typeString (t : TypeGen) : string :=
  match t with
  | LiteralTypeGen literal => literal
  | ClassType name => name
  end.

Definition typeDependKey (t : TypeGen) : option string :=
  match t with
  | LiteralTypeGen _ => None
  | ClassType name => Some name
  end.

Record IdentifierGen := {
  id_name : string;
  id_type : TypeGen
}.

Abbreviation VariableGen := IdentifierGen (only parsing).
Abbreviation ParameterGen := IdentifierGen (only parsing).
Abbreviation FieldGen := IdentifierGen (only parsing).

(** [owner] is a [ClassGen] of which only the name is read. *)
Record SignatureGen := {
  sig_name : string;
  sig_params : list ParameterGen;
  sig_returnType : TypeGen;
  sig_owner : option string
}.

Record ConstructorGen := {
  ctor_params : list ParameterGen;
  ctor_owner : option string
}.

(** A [ClassGen] object.  Before [init] the object has no [fields],
    [constructors] and [methods]; they are empty lists here, and [inited]
    tells.  [inherit] is the parent as it was when [init] stored it: the
    parent is inited by then, and an inited [ClassGen] is never written
    again. *)
Inductive ClassGen := Build_ClassGen {
  cg_name : string;
  cg_abstract : bool;
  cg_inherit : option ClassGen;
  cg_fields : list FieldGen;
  cg_constructors : list ConstructorGen;
  cg_methods : list SignatureGen;
  cg_inited : bool;
  cg_invalid : bool
}.

(** [new ClassGen(name, abstract)] *)
Definition newClassGen (name : string) (abstract : bool) : ClassGen :=
  Build_ClassGen name abstract None [] [] [] false false.

Definition setOwnerC (owner : string) (c : ConstructorGen) : ConstructorGen :=
  {| ctor_params := ctor_params c; ctor_owner := Some owner |}.

Definition setOwnerS (owner : string) (s : SignatureGen) : SignatureGen :=
  {| sig_name := sig_name s; sig_params := sig_params s;
     sig_returnType := sig_returnType s; sig_owner := Some owner |}.

(** [this.init(inherit, fields, constructors, methods)] *)
Definition init (this : ClassGen) (inherit : option ClassGen)
    (fields : list FieldGen) (constructors : list ConstructorGen)
    (methods : list SignatureGen) : ClassGen :=
  {| cg_name := cg_name this;
     cg_abstract := cg_abstract this;
     cg_inherit := inherit;
     cg_fields := fields;
     cg_constructors := map (setOwnerC (cg_name this)) constructors;
     cg_methods := map (setOwnerS (cg_name this)) methods;
     cg_inited := true;
     cg_invalid := cg_invalid this |}.

(** The closed set of [Gen] variants. *)
Inductive Gen :=
| GenVariable (v : VariableGen)
| GenParameter (p : ParameterGen)
| GenField (f : FieldGen)
| GenSignature (s : SignatureGen)
| GenConstructor (c : ConstructorGen)
| GenLiteralType (literal : string)
| GenClass (c : ClassGen).

(** [arrayFilter] *)
Definition arrayFilter {T : Type} (x : option T) : list T :=
  match x with
  | Some x => [x]
  | None => []
  end.

(** [concatAll] *)
Definition concatAll {T : Type} (x : list (list T)) : list T := concat x.

Definition dependsIdentifier (i : IdentifierGen) : list string :=
  arrayFilter (typeDependKey (id_type i)).

Definition dependsSignature (s : SignatureGen) : list string :=
  concatAll (map dependsIdentifier (sig_params s))
  ++ arrayFilter (typeDependKey (sig_returnType s)).

Definition dependsConstructor (c : ConstructorGen) : list string :=
  concatAll (map dependsIdentifier (ctor_params c)).

Definition dependsClass (c : ClassGen) : list string :=
  concatAll
    [ concatAll (map dependsIdentifier (cg_fields c));
      concatAll (map dependsConstructor (cg_constructors c));
      concatAll (map dependsSignature (cg_methods c)) ]
  ++ match cg_inherit c with
     | Some parent => [cg_name parent]
     | None => []
     end.

Definition depends (g : Gen) : list string :=
  match g with
  | GenVariable i | GenParameter i | GenField i => dependsIdentifier i
  | GenSignature s => dependsSignature s
  | GenConstructor c => dependsConstructor c
  | GenLiteralType _ => []
  | GenClass c => dependsClass c
  end.

Definition dependKey (g : Gen) : option string :=
  match g with
  | GenVariable i | GenParameter i | GenField i => Some (id_name i)
  | GenSignature s => Some (sig_name s)
  | GenConstructor _ => None
  | GenLiteralType _ => None
  | GenClass c => Some (cg_name c)
  end.

(** [allDepends] *)
Definition allDepends (gens : list Gen) : list string :=
  concatAll (map depends gens).

(** [a.join(joiner)] on strings *)
Fixpoint join (joiner : string) (a : list string) : string :=
  match a with
  | [] => ""
  | [x] => x
  | x :: rest => x +:+ joiner +:+ join joiner rest
  end.

Definition newline : string := String (ascii_of_nat 10) EmptyString.

Definition declVariable (v : VariableGen) : string :=
  "var " +:+ identifierScrub (id_name v) +:+ "* {."
  +:+ importDirective (id_name v) false +:+ ", nodecl.}: "
  +:+ typeString (id_type v).

Definition declParameter (p : ParameterGen) : string :=
  identifierScrub (id_name p) +:+ ": " +:+ typeString (id_type p).

Definition declField (f : FieldGen) : string :=
  identifierScrub (id_name f) +:+ "*"
  +:+ (if needIdentifierScrub (id_name f)
       then " {.importc:" +:+ dquote +:+ importIdentifier (id_name f)
            +:+ dquote +:+ ".}"
       else "")
  +:+ ": " +:+ typeString (id_type f).

(** [params] *)
Definition params (a : list ParameterGen) : string :=
  join ", " (map declParameter a).

Definition isSome {T : Type} (x : option T) : bool :=
  match x with Some _ => true | None => false end.

Definition declSignature (s : SignatureGen) : string :=
  let fullParams :=
    match sig_owner s with
    | Some owner => [ {| id_name := "self"; id_type := ClassType owner |} ]
    | None => []
    end ++ sig_params s in
  "proc " +:+ identifierScrub (sig_name s) +:+ "*(" +:+ params fullParams
  +:+ ") : " +:+ typeString (sig_returnType s)
  +:+ " {." +:+ importDirective (sig_name s) (isSome (sig_owner s)) +:+ ".}".

(** Reading [this.owner.name] of a constructor without owner is a
    [TypeError]. *)
Definition declConstructor (c : ConstructorGen) : Outcome string :=
  match ctor_owner c with
  | None => Throw (JsError "Cannot read property 'name' of undefined")
  | Some owner =>
      let scrubbed := identifierScrub owner in
      let name := "new" +:+ capitalizeFirstLetter scrubbed in
      Ok ("proc " +:+ name +:+ "*(" +:+ params (ctor_params c) +:+ ") : "
          +:+ scrubbed
          +:+ " {.importcpp:" +:+ dquote +:+ "new " +:+ importIdentifier owner
          +:+ (match ctor_params c with [] => "" | _ => "(@)" end)
          +:+ dquote +:+ ".}")
  end.

(** [a.map(f)] for an [f] that may throw: the first exception ends it. *)
Fixpoint mapOutcome {A B : Type} (f : A -> Outcome B) (a : list A)
    : Outcome (list B) :=
  match a with
  | [] => Ok []
  | x :: rest =>
      match f x with
      | Throw e => Throw e
      | Ok y =>
          match mapOutcome f rest with
          | Throw e => Throw e
          | Ok ys => Ok (y :: ys)
          end
      end
  end.

(** [genJoinPrefixed] on the strings of the declarations *)
Definition joinPrefixed (prefix : string) (a : list string) : string :=
  join "" (map (fun d => prefix +:+ d) a).

Definition declClass (c : ClassGen) : Outcome string :=
  match (if cg_abstract c then Ok []
         else mapOutcome declConstructor (cg_constructors c)) with
  | Throw e => Throw e
  | Ok constructorDecls =>
      let fullMethods := constructorDecls ++ map declSignature (cg_methods c) in
      Ok ("type " +:+ identifierScrub (cg_name c) +:+ "* {."
          +:+ importDirective (cg_name c) false +:+ ".} = ref object of "
          +:+ match cg_inherit c with
              | Some parent => identifierScrub (cg_name parent)
              | None => "RootObj"
              end
          +:+ joinPrefixed (newline +:+ "    ") (map declField (cg_fields c))
          +:+ joinPrefixed newline fullMethods)
  end.

Definition declString (g : Gen) : Outcome string :=
  match g with
  | GenVariable v => Ok (declVariable v)
  | GenParameter p => Ok (declParameter p)
  | GenField f => Ok (declField f)
  | GenSignature s => Ok (declSignature s)
  | GenConstructor c => declConstructor c
  | GenLiteralType _ =>
      Throw (JsError "Tried to emit a declaration for a a core type")
  | GenClass c => declClass c
  end.

(** [decls] *)
Definition decls (a : list Gen) : Outcome string :=
  match mapOutcome declString a with
  | Throw e => Throw e
  | Ok ds => Ok (join newline ds)
  end.

(** [chainHasField]; it is only called on an inited [gen]. *)
Fixpoint chainHasField (gen : ClassGen) (name : string) : bool :=
  match gen with
  | Build_ClassGen _ _ inherit fields _ _ _ _ =>
      existsb (fun field => String.eqb (id_name field) name) fields
      || match inherit with
         | Some parent => chainHasField parent name
         | None => false
         end
  end.

Definition chainHasField' (gen : option ClassGen) (name : string) : bool :=
  match gen with
  | None => false
  | Some gen => chainHasField gen name
  end.

End Gens.

Import Gens.

(** ** The vendor

    [GenVendor] owns the table [classes]; [warn] appends to the diagnostics.
    A computation takes the state and gives back an outcome (a value or a
    thrown exception) with the new state.  [classGen] calls itself through
    [typeGen]; its embedding counts the depth of these calls down from a
    bound, and a computation is [None] when the bound is too small. *)

Module Vendor.

(** [classes] is the object [this.classes], used as a map from names to
    [ClassGen] objects.  The table holds the properties of the object
    itself: for a name among [objectPrototypeKeys] the script finds the
    inherited value instead (the FIXME at the lookup in [classGen]), so the
    statements that depend on the lookup are made for names outside that
    list. *)
Record State := {
  classes : gmap string ClassGen;
  warnings : list string
}.

Definition initialState : State := {| classes := ∅; warnings := [] |}.

Definition M (A : Type) : Type := State -> option (Outcome A * State).

Definition ret {A : Type} (a : A) : M A := fun st => Some (Ok a, st).

Definition throw {A : Type} (e : Exn) : M A := fun st => Some (Throw e, st).

Definition bind {A B : Type} (m : M A) (k : A -> M B) : M B :=
  fun st =>
    match m st with
    | None => None
    | Some (Throw e, st') => Some (Throw e, st')
    | Some (Ok a, st') => k a st'
    end.

(** [try { body } catch (e) { handler(e) }] *)
Definition tryCatch {A : Type} (body : M A) (handler : Exn -> M A) : M A :=
  fun st =>
    match body st with
    | None => None
    | Some (Ok a, st') => Some (Ok a, st')
    | Some (Throw e, st') => handler e st'
    end.

Definition outOfFuel {A : Type} : M A := fun _ => None.

Declare Scope vendor_scope.
Delimit Scope vendor_scope with vendor.
Notation "x <- m ;; k" := (bind m (fun x => k))
  (at level 100, m at next level, right associativity) : vendor_scope.
Notation "m ;;; k" := (bind m (fun _ => k))
  (at level 100, right associativity) : vendor_scope.
Local Open Scope vendor_scope.

(** [warn(message)]: the diagnostics are the messages [warn] is called
    with (with [--quiet] the script prints none of them). *)
Definition warn (message : string) : M unit :=
  fun st => Some (Ok tt, {| classes := classes st;
                            warnings := warnings st ++ [message] |}).

(** [this.classes[name]], for a [name] that is not among
    [objectPrototypeKeys] *)
Definition getClass (name : string) : M (option ClassGen) :=
  fun st => Some (Ok (classes st !! name), st).

(** [this.classes[name] = gen], and a write to the object stored there *)
Definition setClass (name : string) (gen : ClassGen) : M unit :=
  fun st => Some (Ok tt, {| classes := <[name := gen]> (classes st);
                            warnings := warnings st |}).

Definition setInvalid (gen : ClassGen) : ClassGen :=
  Build_ClassGen (cg_name gen) (cg_abstract gen) (cg_inherit gen)
    (cg_fields gen) (cg_constructors gen) (cg_methods gen) (cg_inited gen)
    true.

(** [result.invalid = true], for the object stored under [name] *)
Definition markInvalid (name : string) : M unit :=
  fun st => Some (Ok tt, {| classes := alter setInvalid name (classes st);
                            warnings := warnings st |}).

(** The decimal digits of a counter inside a template string. *)
Definition showNat (n : nat) : string :=
  NilEmpty.string_of_uint (Nat.to_uint n).

(** [a.map(f)] inside the vendor *)
Fixpoint mapM {A B : Type} (f : A -> M B) (a : list A) : M (list B) :=
  match a with
  | [] => ret []
  | x :: rest => y <- f x ;; ys <- mapM f rest ;; ret (y :: ys)
  end.

(** The locals of [classGen] that the loop over the members updates. *)
Record Locals := {
  fields : list FieldGen;
  methods : list SignatureGen;
  constructors : list ConstructorGen;
  foundConstructors : nat
}.

Definition noLocals : Locals :=
  {| fields := []; methods := []; constructors := []; foundConstructors := 0 |}.

Section WithOracle.

Variable oracle : Oracle.

Section Open.

(** [classGen], as the functions below call it. *)
Variable classGenRec : SymId -> bool -> M ClassGen.

Definition typeGen (tsType : TsType) : M TypeGen :=
  if ty_Number tsType then ret (LiteralTypeGen "float")
  else if ty_String tsType then ret (LiteralTypeGen "cstring")
  else if ty_Void tsType then ret (LiteralTypeGen "void")
  else if ty_Boolean tsType then ret (LiteralTypeGen "bool")
  else
    match ty_Class tsType, ty_symbol tsType with
    | true, Some symbol =>
        gen <- classGenRec symbol false ;; ret (ClassType (cg_name gen))
    | _, _ => throw (UnusableType tsType)
    end.

Definition paramsGen (syms : list ParamSym) : M (list ParameterGen) :=
  mapM (fun sym =>
          type <- typeGen (par_type sym) ;;
          ret {| id_name := par_name sym; id_type := type |})
       syms.

Definition signatureGen (name : string) (callSignature : CallSignature)
    : M SignatureGen :=
  ps <- paramsGen (cs_parameters callSignature) ;;
  returnType <- typeGen (cs_returnType callSignature) ;;
  ret {| sig_name := name; sig_params := ps; sig_returnType := returnType;
         sig_owner := None |}.

Definition variableGen (sym : Symbol) (tsType : TsType) : M VariableGen :=
  tryCatch
    (if blacklisted "variable" (sym_name sym)
     then throw (GenConstructFail
                   ("Refusing to translate blacklisted variable "
                    +:+ sym_name sym))
     else
       type <- typeGen tsType ;;
       ret {| id_name := sym_name sym; id_type := type |})
    (fun e =>
       match e with
       | UnusableType type =>
           throw (GenConstructFail
                    ("Could not translate variable " +:+ sym_name sym
                     +:+ " because couldn't translate type " +:+ ty_text type))
       | _ => throw e
       end).

(** The loop of [functionGen] over the call signatures, from the signature
    after number [counter] on. *)
Fixpoint functionLoop (sym : Symbol) (callSignatures : list CallSignature)
    (counter : nat) (result : list SignatureGen) : M (list SignatureGen) :=
  match callSignatures with
  | [] => ret result
  | callSignature :: rest =>
      let counter := S counter in
      result <-
        tryCatch
          (gen <- signatureGen (sym_name sym) callSignature ;;
           ret (result ++ [gen]))
          (fun e =>
             match e with
             | UnusableType type =>
                 warn ("Could not translate function " +:+ sym_name sym
                       +:+ (if (0 <? counter)%nat
                            then ", call signature #" +:+ showNat counter
                            else "")
                       +:+ " because tried to translate "
                       +:+ ty_text (sym_type sym)
                       +:+ " but couldn't translate type " +:+ ty_text type)
                 ;;; ret result
             | _ => throw e
             end) ;;
      functionLoop sym rest counter result
  end.

Definition functionGen (sym : Symbol) : M (list SignatureGen) :=
  if blacklisted "variable" (sym_name sym)
  then throw (GenConstructFail
                ("Refusing to translate blacklisted function "
                 +:+ sym_name sym))
  else functionLoop sym (sym_callSignatures sym) 0 [].

(** The loop over the declarations of a constructor member. *)
Fixpoint constructorLoop (name : string) (declarations : list (list ParamSym))
    (l : Locals) : M Locals :=
  match declarations with
  | [] => ret l
  | declaration :: rest =>
      let found := S (foundConstructors l) in
      cs <-
        tryCatch
          (ps <- paramsGen declaration ;;
           ret (constructors l
                ++ [ {| ctor_params := ps; ctor_owner := None |} ]))
          (fun e =>
             match e with
             | UnusableType type =>
                 warn ("Could not translate constructor #" +:+ showNat found
                       +:+ " on class " +:+ name
                       +:+ " because couldn't translate type "
                       +:+ ty_text type)
                 ;;; ret (constructors l)
             | _ => throw e
             end) ;;
      constructorLoop name rest
        {| fields := fields l; methods := methods l; constructors := cs;
           foundConstructors := found |}
  end.

(** The loop over the call signatures of a method member. *)
Fixpoint methodLoop (sym : Symbol) (member : Member)
    (callSignatures : list CallSignature) (counter : nat)
    (ms : list SignatureGen) : M (list SignatureGen) :=
  match callSignatures with
  | [] => ret ms
  | callSignature :: rest =>
      let counter := S counter in
      ms <-
        tryCatch
          (gen <- signatureGen (mem_name member) callSignature ;;
           ret (ms ++ [gen]))
          (fun e =>
             match e with
             | UnusableType type =>
                 warn ("Could not translate method " +:+ sym_name sym
                       +:+ " on class $name}"
                       +:+ (if (0 <? counter)%nat
                            then ", call signature #" +:+ showNat counter
                            else "")
                       +:+ " because tried to translate "
                       +:+ ty_text (mem_type member)
                       +:+ " but couldn't translate type " +:+ ty_text type)
                 ;;; ret ms
             | _ => throw e
             end) ;;
      methodLoop sym member rest counter ms
  end.

(** One turn of the loop over [sym.members]. *)
Definition memberStep (sym : Symbol) (inherit : option ClassGen)
    (member : Member) (l : Locals) : M Locals :=
  let name := sym_name sym in
  if fl_Constructor (mem_flags member) then
    constructorLoop name (mem_declarations member) l
  else if fl_Property (mem_flags member) then
    tryCatch
      (if blacklisted "field" (name +:+ "." +:+ mem_name member) then
         warn ("Refusing to translate blacklisted field " +:+ mem_name member
               +:+ " of class " +:+ name) ;;; ret l
       else if negb (chainHasField' inherit (mem_name member)) then
         type <- typeGen (mem_type member) ;;
         ret {| fields := fields l
                          ++ [ {| id_name := mem_name member;
                                  id_type := type |} ];
                methods := methods l; constructors := constructors l;
                foundConstructors := foundConstructors l |}
       else ret l)
      (fun e =>
         match e with
         | UnusableType type =>
             warn ("Could not translate property " +:+ mem_name member
                   +:+ " on class " +:+ name
                   +:+ "because couldn't translate type " +:+ ty_text type)
             ;;; ret l
         | _ => throw e
         end)
  else if fl_Method (mem_flags member) then
    if blacklisted "field" (name +:+ "." +:+ mem_name member) then
      warn ("Refusing to translate blacklisted method " +:+ mem_name member
            +:+ " of class " +:+ name) ;;; ret l
    else
      ms <- methodLoop sym member (mem_callSignatures member) 0 (methods l) ;;
      ret {| fields := fields l; methods := ms;
             constructors := constructors l;
             foundConstructors := foundConstructors l |}
  else
    warn ("Could not figure out how to translate member " +:+ mem_name member
          +:+ " of class " +:+ sym_name sym) ;;; ret l.

Fixpoint membersLoop (sym : Symbol) (inherit : option ClassGen)
    (members : list Member) (l : Locals) : M Locals :=
  match members with
  | [] => ret l
  | member :: rest =>
      l <- memberStep sym inherit member l ;;
      membersLoop sym inherit rest l
  end.

(** The block under [// Get constructor]: the constructors after it. *)
Definition constructorsOrDefault (inherit : option ClassGen) (l : Locals)
    : list ConstructorGen :=
  match foundConstructors l with
  | 0 =>
      match inherit with
      | Some parent =>
          constructors l
          ++ map (fun constructor =>
                    {| ctor_params := ctor_params constructor;
                       ctor_owner := None |})
                 (cg_constructors parent)
      | None =>
          constructors l ++ [ {| ctor_params := []; ctor_owner := None |} ]
      end
  | S _ => constructors l
  end.

(** The [try] block of [classGen], for the fresh object [result]. *)
Definition classBody (sym : Symbol) (result : ClassGen) : M ClassGen :=
  let name := sym_name sym in
  inherit <-
    match sym_heritageClauses sym with
    | Some (Some inheritSymbol) =>
        let inheritName := sym_name (oracle inheritSymbol) in
        inherit <- classGenRec inheritSymbol false ;;
        if negb (cg_inited inherit)
        then throw (GenConstructFail
                      (name +:+ " is mutually recursive with its ancestor "
                       +:+ inheritName +:+ " in a confusing way"))
        else ret (Some inherit)
    | Some None =>
        (* [inheritSymbol.name] of no symbol *)
        throw (JsError "Cannot read property 'name' of undefined")
    | None => ret None
    end ;;
  l <- membersLoop sym inherit (sym_members sym) noLocals ;;
  let constructors := constructorsOrDefault inherit l in
  let result := init result inherit (fields l) constructors (methods l) in
  setClass name result ;;;
  ret result.

Definition classGenBody (symbol : SymId) (abstract : bool) : M ClassGen :=
  let sym := oracle symbol in
  let name := sym_name sym in
  already <- getClass name ;;
  match already with
  | Some already =>
      if cg_invalid already
      then throw (GenConstructFail "Tried to reuse unbuildable type")
      else ret already
  | None =>
      if blacklisted "class" name
      then throw (GenConstructFail
                    ("Refusing to translate blacklisted class " +:+ name))
      else
        let result := newClassGen name abstract in
        setClass name result ;;;
        tryCatch (classBody sym result)
                 (fun e => markInvalid name ;;; throw e)
  end.

End Open.

Fixpoint classGen (fuel : nat) (symbol : SymId) (abstract : bool)
    : M ClassGen :=
  match fuel with
  | 0 => outOfFuel
  | S fuel => classGenBody (classGen fuel) symbol abstract
  end.

End WithOracle.

End Vendor.

Import Vendor.
Local Open Scope vendor_scope.

(** ** Emit symbols *)

Module Emit.

Section WithOracle.

Variable oracle : Oracle.

(** One turn of the loop over the symbols in scope: [generators] grows by
    what the symbol gives. *)
Definition symbolStep (fuel : nat) (symbol : SymId) (generators : list Gen)
    : M (list Gen) :=
  let sym := oracle symbol in
  let type := sym_type sym in
  tryCatch
    (if fl_Class (sym_flags sym) then
       match ty_symbol type with
       | Some typeSymbol =>
           gen <- classGen oracle fuel typeSymbol false ;;
           ret (generators ++ [GenClass gen])
       | None => throw (JsError "Cannot read property 'name' of undefined")
       end
     else if fl_Interface (sym_flags sym) then
       gen <- classGen oracle fuel symbol true ;;
       ret (generators ++ [GenClass gen])
     else if fl_BlockScopedVariable (sym_flags sym)
             || fl_FunctionScopedVariable (sym_flags sym) then
       gen <- variableGen (classGen oracle fuel) sym type ;;
       ret (generators ++ [GenVariable gen])
     else if fl_Function (sym_flags sym) then
       gens <- functionGen (classGen oracle fuel) sym ;;
       ret (generators ++ map GenSignature gens)
     else
       warn ("Could not figure out how to translate symbol "
             +:+ sym_name sym +:+ " : " +:+ ty_text type) ;;;
       ret generators)
    (fun e =>
       match e with
       | GenConstructFail message => warn message ;;; ret generators
       | _ => throw e
       end).

Fixpoint symbolsLoop (fuel : nat) (scope : list SymId) (generators : list Gen)
    : M (list Gen) :=
  match scope with
  | [] => ret generators
  | symbol :: rest =>
      generators <- symbolStep fuel symbol generators ;;
      symbolsLoop fuel rest generators
  end.

(** The generators of all symbols in scope. *)
Definition generate (fuel : nat) (scope : list SymId) : M (list Gen) :=
  symbolsLoop fuel scope [].

End WithOracle.

(** *** The dependency graph

    The part of a graphlib [Graph] the script uses: the nodes with their
    labels, in the order they were added, and the edges. *)

Record Graph := {
  g_nodes : list (string * option Gen);
  g_edges : list (string * string)
}.

Definition emptyGraph : Graph := {| g_nodes := []; g_edges := [] |}.

Definition hasNode (g : Graph) (v : string) : bool :=
  existsb (fun n => String.eqb (fst n) v) (g_nodes g).

Definition hasEdge (g : Graph) (v w : string) : bool :=
  existsb (fun e => String.eqb (fst e) v && String.eqb (snd e) w) (g_edges g).

(** [g.node(v)]: the label of [v], if it has one *)
Fixpoint nodeIn (ns : list (string * option Gen)) (v : string) : option Gen :=
  match ns with
  | [] => None
  | (v', label) :: rest => if String.eqb v' v then label else nodeIn rest v
  end.

Definition node (g : Graph) (v : string) : option Gen := nodeIn (g_nodes g) v.

(** [g.nodes()] *)
Definition nodes (g : Graph) : list string := map fst (g_nodes g).

(** [g.successors(v)] *)
Definition successors (g : Graph) (v : string) : list string :=
  map snd (List.filter (fun e => String.eqb (fst e) v) (g_edges g)).

Fixpoint relabel (ns : list (string * option Gen)) (v : string) (label : Gen)
    : list (string * option Gen) :=
  match ns with
  | [] => []
  | (v', l) :: rest =>
      if String.eqb v' v then (v', Some label) :: rest
      else (v', l) :: relabel rest v label
  end.

(** [g.setNode(v, label)]: a new node, or a new label for an old one *)
Definition setNode (g : Graph) (v : string) (label : Gen) : Graph :=
  if hasNode g v
  then {| g_nodes := relabel (g_nodes g) v label; g_edges := g_edges g |}
  else {| g_nodes := g_nodes g ++ [(v, Some label)]; g_edges := g_edges g |}.

(** [g.setNode(v)]: a new node without label, or nothing *)
Definition ensureNode (g : Graph) (v : string) : Graph :=
  if hasNode g v then g
  else {| g_nodes := g_nodes g ++ [(v, None)]; g_edges := g_edges g |}.

(** [g.setEdge(v, w)] *)
Definition setEdge (g : Graph) (v w : string) : Graph :=
  if hasEdge g v w then g
  else
    let g := ensureNode (ensureNode g v) w in
    {| g_nodes := g_nodes g; g_edges := g_edges g ++ [(v, w)] |}.

(** A key as graphlib sees it: it turns [null] into the string. *)
Definition keyString (key : option string) : string :=
  match key with
  | Some key => key
  | None => "null"
  end.

Definition addGenerator (g : Graph) (gen : Gen) : Graph :=
  let key := keyString (dependKey gen) in
  fold_left (fun g dep => setEdge g key dep) (depends gen) (setNode g key gen).

(** The graph [dependencies] after the loop over [generators]. *)
Definition dependencies (generators : list Gen) : Graph :=
  fold_left addGenerator generators emptyGraph.

(** *** Strongly connected components

    [graphlib.alg.tarjan] is a dependency of the script and not part of it.
    [tarjan] below follows the algorithm of the library, with the stack of
    the depth-first search and the table [visited]; the theorems do not rest
    on it: they hold for every list of components that meets
    [sccContract]. *)

Record Entry := {
  onStack : bool;
  lowlink : nat;
  index : nat
}.

Record Search := {
  s_index : nat;
  s_stack : list string;
  s_visited : gmap string Entry;
  s_results : list (list string)
}.

Definition setLowlink (low : nat) (e : Entry) : Entry :=
  {| onStack := onStack e; lowlink := Nat.min (lowlink e) low;
     index := index e |}.

Definition offStack (e : Entry) : Entry :=
  {| onStack := false; lowlink := lowlink e; index := index e |}.

(** Pop the stack down to [v]; the popped nodes make a component. *)
Fixpoint popTo (v : string) (stack : list string) (visited : gmap string Entry)
    (cmpt : list string) : list string * gmap string Entry * list string :=
  match stack with
  | [] => (stack, visited, cmpt)
  | w :: rest =>
      let visited := alter offStack w visited in
      let cmpt := cmpt ++ [w] in
      if String.eqb v w then (rest, visited, cmpt)
      else popTo v rest visited cmpt
  end.

Fixpoint dfs (fuel : nat) (g : Graph) (v : string) (s : Search)
    : option Search :=
  match fuel with
  | 0 => None
  | S fuel =>
      let s := {| s_index := S (s_index s);
                  s_stack := v :: s_stack s;
                  s_visited := <[v := {| onStack := true;
                                         lowlink := s_index s;
                                         index := s_index s |}]> (s_visited s);
                  s_results := s_results s |} in
      let visit (acc : option Search) (w : string) : option Search :=
        match acc with
        | None => None
        | Some s =>
            match s_visited s !! w with
            | None =>
                match dfs fuel g w s with
                | None => None
                | Some s =>
                    let low := match s_visited s !! w with
                               | Some e => lowlink e
                               | None => 0
                               end in
                    Some {| s_index := s_index s; s_stack := s_stack s;
                            s_visited := alter (setLowlink low) v (s_visited s);
                            s_results := s_results s |}
                end
            | Some e =>
                if onStack e
                then Some {| s_index := s_index s; s_stack := s_stack s;
                             s_visited :=
                               alter (setLowlink (index e)) v (s_visited s);
                             s_results := s_results s |}
                else Some s
            end
        end in
      match fold_left visit (successors g v) (Some s) with
      | None => None
      | Some s =>
          match s_visited s !! v with
          | Some entry =>
              if Nat.eqb (lowlink entry) (index entry) then
                let '(stack, visited, cmpt) :=
                  popTo v (s_stack s) (s_visited s) [] in
                Some {| s_index := s_index s; s_stack := stack;
                        s_visited := visited;
                        s_results := s_results s ++ [cmpt] |}
              else Some s
          | None => Some s
          end
      end
  end.

Definition tarjan (g : Graph) : list (list string) :=
  let start (acc : option Search) (v : string) : option Search :=
    match acc with
    | None => None
    | Some s =>
        match s_visited s !! v with
        | None => dfs (S (length (nodes g))) g v s
        | Some _ => Some s
        end
    end in
  match fold_left start (nodes g)
          (Some {| s_index := 0; s_stack := []; s_visited := ∅;
                   s_results := [] |}) with
  | Some s => s_results s
  | None => []
  end.

Definition edge (g : Graph) (u v : string) : Prop := In (u, v) (g_edges g).

(** [v] can be reached from [u] along the edges. *)
Inductive reach (g : Graph) : string -> string -> Prop :=
| reach_refl u : reach g u u
| reach_step u v w : edge g u v -> reach g v w -> reach g u w.

(** Modelled from the spec: [graphlib.alg.tarjan], which is not in the
    repository.  The analysis "returns component groups in
    reverse-topological order with respect to the edges", a component being
    a "maximal set of mutually reachable nodes": the groups partition the
    nodes, the members of a group reach each other, and an edge leads into
    the group it starts in or into an earlier one.  (That nodes which reach
    each other share a group then follows, see [scc_maximal].) *)
Record sccContract (g : Graph) (sccs : list (list string)) : Prop := {
  scc_nodup : NoDup (concat sccs);
  scc_nodes : forall v, In v (concat sccs) <-> In v (nodes g);
  scc_connected : forall c u v, In c sccs -> In u c -> In v c -> reach g u v;
  scc_order : forall before c after u v,
                sccs = before ++ c :: after -> In u c -> edge g u v ->
                In v (concat before ++ c)
}.

Section Sorting.

(** The components of a graph, as [graphlib.alg.tarjan] gives them. *)
Variable components : Graph -> list (list string).

(** [groupedGenerators] *)
Definition groupedGenerators (g : Graph) : list (list (option Gen)) :=
  map (fun scc => map (fun id => node g id) scc) (components g).

(** [x.dependKey()] for a member [x] of a group; [join] prints [null] as
    the empty string. *)
Definition memberKey (x : option Gen) : Outcome string :=
  match x with
  | None => Throw (JsError "Cannot read property 'dependKey' of undefined")
  | Some x => Ok (match dependKey x with Some key => key | None => "" end)
  end.

Definition cycleMessage (keys : list string) : string :=
  "Can't translate mutually recursive types, so ignoring: " +:+ join ", " keys.

(** The loop over [groupedGenerators]. *)
Fixpoint sortLoop (groups : list (list (option Gen)))
    (sortedGenerators : list Gen) : M (list Gen) :=
  match groups with
  | [] => ret sortedGenerators
  | group :: rest =>
      if (1 <? length group)%nat then
        match mapOutcome memberKey group with
        | Throw e => throw e
        | Ok keys =>
            warn (cycleMessage keys) ;;; sortLoop rest sortedGenerators
        end
      else
        match group with
        | Some gen :: _ => sortLoop rest (sortedGenerators ++ [gen])
        | _ => sortLoop rest sortedGenerators
        end
  end.

(** [sortedGenerators] for the given [generators]. *)
Definition sortedGenerators (generators : list Gen) : M (list Gen) :=
  sortLoop (groupedGenerators (dependencies generators)) [].

(** The whole script: the sorted generators and the text it prints. *)
Definition script (oracle : Oracle) (fuel : nat) (scope : list SymId)
    : M (list Gen * string) :=
  generators <- generate oracle fuel scope ;;
  sorted <- sortedGenerators generators ;;
  match decls sorted with
  | Throw e => throw e
  | Ok text => ret (sorted, text)
  end.

End Sorting.

End Emit.

Import Emit.

(** ** Debug output *)

Module Debug.

Definition newlineChar : ascii := ascii_of_nat 10.

(** [str.split("\n")] *)
Fixpoint splitLines (str : string) : list string :=
  match str with
  | EmptyString => [EmptyString]
  | String c rest =>
      if Ascii.eqb c newlineChar then EmptyString :: splitLines rest
      else
        match splitLines rest with
        | line :: lines => String c line :: lines
        | [] => [String c EmptyString]
        end
  end.

(** The loop of [linePrefix] over the lines, from the line number [idx]
    on. *)
Fixpoint prefixLines (prefix : string) (startAtLine idx : nat)
    (ary : list string) : list string :=
  match ary with
  | [] => []
  | line :: rest =>
      (if (startAtLine <=? idx)%nat then prefix +:+ line else line)
      :: prefixLines prefix startAtLine (S idx) rest
  end.

Definition linePrefix (str prefix : string) (startAtLine : nat) : string :=
  join newline (prefixLines prefix startAtLine 0 (splitLines str)).

(** [debugVerboseEpilogue(obj)], given the option [--debugVerbose] and the
    text [util.inspect(obj)]. *)
Definition debugVerboseEpilogue (debugVerbose : bool) (inspected : string)
    : string :=
  if negb debugVerbose then ""
  else ", " +:+ linePrefix inspected "#         " 1.

End Debug.

Import Debug.

(** ** Sample inputs *)

Module Samples.

Definition primitiveTy (number string_ void boolean : bool) (text : string)
    : TsType :=
  {| ty_Number := number; ty_String := string_; ty_Void := void;
     ty_Boolean := boolean; ty_Class := false; ty_symbol := None;
     ty_text := text |}.

Definition numberTy : TsType := primitiveTy true false false false "number".
Definition stringTy : TsType := primitiveTy false true false false "string".
Definition voidTy : TsType := primitiveTy false false true false "void".
(** A type without rendering rule. *)
Definition anyTy : TsType := primitiveTy false false false false "any".

Definition classTy (symbol : SymId) (text : string) : TsType :=
  {| ty_Number := false; ty_String := false; ty_Void := false;
     ty_Boolean := false; ty_Class := true; ty_symbol := Some symbol;
     ty_text := text |}.

Definition classFlags : SymbolFlags :=
  Build_SymbolFlags true false false false false false false false.
Definition functionFlags : SymbolFlags :=
  Build_SymbolFlags false false false false true false false false.
Definition constructorFlags : SymbolFlags :=
  Build_SymbolFlags false false false false false true false false.
Definition propertyFlags : SymbolFlags :=
  Build_SymbolFlags false false false false false false true false.
Definition methodFlags : SymbolFlags :=
  Build_SymbolFlags false false false false false false false true.

Definition field (name : string) (type : TsType) : Member :=
  {| mem_name := name; mem_flags := propertyFlags; mem_declarations := [];
     mem_type := type; mem_callSignatures := [] |}.

Definition constructorMember (declarations : list (list ParamSym)) : Member :=
  {| mem_name := "__constructor"; mem_flags := constructorFlags;
     mem_declarations := declarations; mem_type := anyTy;
     mem_callSignatures := [] |}.

Definition method (name : string) (callSignatures : list CallSignature)
    : Member :=
  {| mem_name := name; mem_flags := methodFlags; mem_declarations := [];
     mem_type := primitiveTy false false false false name;
     mem_callSignatures := callSignatures |}.

(** The symbol [symbol] of a class declaration. *)
Definition classSymbol (symbol : SymId) (name : string)
    (heritage : option SymId) (members : list Member) : Symbol :=
  {| sym_name := name; sym_flags := classFlags;
     sym_type := classTy symbol ("typeof " +:+ name);
     sym_callSignatures := []; sym_heritageClauses := option_map Some heritage;
     sym_members := members |}.

Definition functionSymbol (name : string)
    (callSignatures : list CallSignature) : Symbol :=
  {| sym_name := name; sym_flags := functionFlags;
     sym_type := primitiveTy false false false false ("typeof " +:+ name);
     sym_callSignatures := callSignatures; sym_heritageClauses := None;
     sym_members := [] |}.

(** [class A { b: B }  class B { a: A }] *)
Definition oracleAB : Oracle := fun symbol =>
  match symbol with
  | 0 => classSymbol 0 "A" None [field "b" (classTy 1 "B")]
  | _ => classSymbol 1 "B" None [field "a" (classTy 0 "A")]
  end.

(** [class Node { next: Node }] *)
Definition oracleSelf : Oracle := fun _ =>
  classSymbol 0 "Node" None [field "next" (classTy 0 "Node")].

(** [class A { a: A; b: B }  class B { a: A }] *)
Definition oracleTangle : Oracle := fun symbol =>
  match symbol with
  | 0 => classSymbol 0 "A" None
           [field "a" (classTy 0 "A"); field "b" (classTy 1 "B")]
  | _ => classSymbol 1 "B" None [field "a" (classTy 0 "A")]
  end.

(** [class A extends B {}  class B extends A {}] *)
Definition oracleLoop : Oracle := fun symbol =>
  match symbol with
  | 0 => classSymbol 0 "A" (Some 1) []
  | _ => classSymbol 1 "B" (Some 0) []
  end.

Definition param (name : string) (type : TsType) : ParamSym :=
  {| par_name := name; par_type := type |}.

(** [class P { constructor(x: number); constructor(x: number, y: string) }
    class C extends P {}
    class K { constructor(x: any) }
    class L {}] *)
Definition oracleConstructors : Oracle := fun symbol =>
  match symbol with
  | 0 => classSymbol 0 "P" None
           [constructorMember
              [ [param "x" numberTy];
                [param "x" numberTy; param "y" stringTy] ]]
  | 1 => classSymbol 1 "C" (Some 0) []
  | 2 => classSymbol 2 "K" None [constructorMember [ [param "x" anyTy] ]]
  | _ => classSymbol 3 "L" None []
  end.

(** [class P { webkitRequestFullScreen: number; x: number }
    class Element extends P { webkitRequestFullScreen: number; x: number;
                              y: string }] *)
Definition oracleFields : Oracle := fun symbol =>
  match symbol with
  | 0 => classSymbol 0 "P" None
           [field "webkitRequestFullScreen" numberTy; field "x" numberTy]
  | _ => classSymbol 1 "Element" (Some 0)
           [field "webkitRequestFullScreen" numberTy; field "x" numberTy;
            field "y" stringTy]
  end.

(** [function f(a: number): string
    function f(a: any): string
    function f(): void] *)
Definition overloads : list CallSignature :=
  [ {| cs_parameters := [param "a" numberTy]; cs_returnType := stringTy |};
    {| cs_parameters := [param "a" anyTy]; cs_returnType := stringTy |};
    {| cs_parameters := []; cs_returnType := voidTy |} ].

Definition oracleOverloads : Oracle := fun _ => functionSymbol "f" overloads.

(** The [ClassGen] built for [class Node { next: Node }]. *)
Definition nodeClass : ClassGen :=
  {| cg_name := "Node"; cg_abstract := false; cg_inherit := None;
     cg_fields := [ {| id_name := "next"; id_type := ClassType "Node" |} ];
     cg_constructors := [ {| ctor_params := []; ctor_owner := Some "Node" |} ];
     cg_methods := []; cg_inited := true; cg_invalid := false |}.

(** The [ClassGen] built for the class [P] of [oracleFields]. *)
Definition fieldsParent : ClassGen :=
  {| cg_name := "P"; cg_abstract := false; cg_inherit := None;
     cg_fields :=
       [ {| id_name := "webkitRequestFullScreen";
            id_type := LiteralTypeGen "float" |};
         {| id_name := "x"; id_type := LiteralTypeGen "float" |} ];
     cg_constructors := [ {| ctor_params := []; ctor_owner := Some "P" |} ];
     cg_methods := []; cg_inited := true; cg_invalid := false |}.

Definition variableFlags : SymbolFlags :=
  Build_SymbolFlags false false true false false false false false.

(** [let v: C], beside [class C {}] which is not among the symbols in
    scope *)
Definition oracleUnlisted : Oracle := fun symbol =>
  match symbol with
  | 0 => {| sym_name := "v"; sym_flags := variableFlags;
            sym_type := classTy 1 "C"; sym_callSignatures := [];
            sym_heritageClauses := None; sym_members := [] |}
  | _ => classSymbol 1 "C" None []
  end.

(** [let list: NodeList], with the class [NodeList] of the library *)
Definition oracleNodeList : Oracle := fun symbol =>
  match symbol with
  | 0 => {| sym_name := "list"; sym_flags := variableFlags;
            sym_type := classTy 1 "NodeList"; sym_callSignatures := [];
            sym_heritageClauses := None; sym_members := [] |}
  | _ => classSymbol 1 "NodeList" None []
  end.

(** [let v: Z], beside [class Z { next: Z }] which is not among the symbols
    in scope *)
Definition oracleSelfUnlisted : Oracle := fun symbol =>
  match symbol with
  | 0 => {| sym_name := "v"; sym_flags := variableFlags;
            sym_type := classTy 1 "Z"; sym_callSignatures := [];
            sym_heritageClauses := None; sym_members := [] |}
  | _ => classSymbol 1 "Z" None [field "next" (classTy 1 "Z")]
  end.

(** [class A extends mk() {}]: the heritage expression is a call, and
    resolves to no symbol *)
Definition oracleUnresolved : Oracle := fun _ =>
  {| sym_name := "A"; sym_flags := classFlags;
     sym_type := classTy 0 "typeof A"; sym_callSignatures := [];
     sym_heritageClauses := Some None; sym_members := [] |}.

(** [class A extends B { l: NodeList }  class B { a: A }], with the class
    [NodeList] of the library *)
Definition oracleLate : Oracle := fun symbol =>
  match symbol with
  | 0 => classSymbol 0 "A" (Some 1) [field "l" (classTy 2 "NodeList")]
  | 1 => classSymbol 1 "B" None [field "a" (classTy 0 "A")]
  | _ => classSymbol 2 "NodeList" None []
  end.

(** The [ClassGen] objects built for [class A { b: B }] and
    [class B { a: A }]. *)
Definition mutualA : ClassGen :=
  {| cg_name := "A"; cg_abstract := false; cg_inherit := None;
     cg_fields := [ {| id_name := "b"; id_type := ClassType "B" |} ];
     cg_constructors := [ {| ctor_params := []; ctor_owner := Some "A" |} ];
     cg_methods := []; cg_inited := true; cg_invalid := false |}.

Definition mutualB : ClassGen :=
  {| cg_name := "B"; cg_abstract := false; cg_inherit := None;
     cg_fields := [ {| id_name := "a"; id_type := ClassType "A" |} ];
     cg_constructors := [ {| ctor_params := []; ctor_owner := Some "B" |} ];
     cg_methods := []; cg_inited := true; cg_invalid := false |}.

(** The object of [enum E { None = 0, Read = 1, Write = 2, Both = 3 }]: the
    reverse mappings come first. *)
Definition sampleEnum : list (string * EnumValue) :=
  [ ("0", StringValue "None"); ("1", StringValue "Read");
    ("2", StringValue "Write"); ("3", StringValue "Both");
    ("None", NumberValue 0); ("Read", NumberValue 1);
    ("Write", NumberValue 2); ("Both", NumberValue 3) ].

(** Run a computation from the initial state. *)
Definition run {A : Type} (m : M A) : option (Outcome A * State) :=
  m initialState.

End Samples.

Import Samples.

(** ** The vocabulary of the statements *)

Module Statements.

(** The node of the graph that [gen] is attached to. *)
Definition genKey (gen : Gen) : string := keyString (dependKey gen).

(** The generator has a dependency key of its own. *)
Definition keyed (gen : Gen) : Prop := dependKey gen <> None.

(** A component with more than one member. *)
Definition cyclic (c : list string) : bool := (1 <? length c)%nat.

(** What the loop over the groups pushes for the component [c]. *)
Definition emitOf (g : Graph) (c : list string) : list Gen :=
  if cyclic c then []
  else match c with
       | v :: _ => arrayFilter (node g v)
       | [] => []
       end.

(** Every dependency key of an emitted declaration names a declaration
    emitted strictly earlier, or names nothing emitted. *)
Definition noForwardReference (out : list Gen) : Prop :=
  forall before D after k,
    out = before ++ D :: after -> In k (depends D) ->
    (exists E, In E before /\ dependKey E = Some k)
    \/ (forall E, In E out -> dependKey E <> Some k).

(** The same, but a declaration may also name itself. *)
Definition noForwardReferenceButSelf (out : list Gen) : Prop :=
  forall before D after k,
    out = before ++ D :: after -> In k (depends D) ->
    (exists E, In E before /\ dependKey E = Some k)
    \/ (forall E, In E out -> dependKey E <> Some k)
    \/ dependKey D = Some k.

(** Every generator that depends on its own key is emitted, and no cycle
    diagnostic names it; [diagnosed] lists the groups that were reported. *)
Definition selfDependentEmitted (gens out : list Gen)
    (diagnosed : list (list string)) : Prop :=
  forall D v,
    In D gens -> dependKey D = Some v -> In v (depends D) ->
    In D out /\ forall c, In c diagnosed -> ~ In v c.

(** *** The state of the vendor *)

(** The state after a write to the object stored under [name]. *)
Definition overwrite (st : State) (name : string) (c : ClassGen) : State :=
  {| classes := <[name := c]> (classes st); warnings := warnings st |}.

(** [st'] comes after [st]: the table kept every entry of [st] as it was,
    and the diagnostics of [st] are the first ones of [st']. *)
Definition grows (st st' : State) : Prop :=
  classes st ⊆ classes st'
  /\ exists more, warnings st' = warnings st ++ more.

(** No field of [c] bears the name of a field further up the chain of
    parents, and so on for every parent. *)
Fixpoint chainFresh (c : ClassGen) : Prop :=
  match c with
  | Build_ClassGen _ _ inherit fields _ _ _ _ =>
      (forall f, In f fields -> chainHasField' inherit (id_name f) = false)
      /\ match inherit with
         | Some parent => chainFresh parent
         | None => True
         end
  end.

(** The constructors of an inited class have the class as owner. *)
Definition owned (c : ClassGen) : Prop :=
  cg_inited c = true ->
  Forall (fun constructor => ctor_owner constructor = Some (cg_name c))
         (cg_constructors c).

(** An inited, valid class that owns its constructors and declares no
    field twice along its chain. *)
Definition built (c : ClassGen) : Prop :=
  chainFresh c /\ owned c /\ cg_inited c = true /\ cg_invalid c = false.

(** The generators the loop over the symbols in scope can push. *)
Definition topLevel (gen : Gen) : Prop :=
  match gen with
  | GenVariable _ | GenSignature _ => True
  | GenClass c => built c
  | _ => False
  end.

(** The states the vendor can be in while the classes named by [building]
    are under construction: every object is stored under its own name, no
    field is declared twice along a chain, the constructors of an inited
    object have their owner, and every object outside [building] is inited
    or invalid. *)
Definition Good (building : string -> Prop) (st : State) : Prop :=
  forall name c,
    classes st !! name = Some c ->
    cg_name c = name /\ (chainFresh c /\ owned c)
    /\ (building name \/ cg_inited c = true \/ cg_invalid c = true).

(** A computation that only adds to the state and keeps it good. *)
Definition sound {X : Type} (m : M X) : Prop :=
  forall st r st',
    m st = Some (r, st') ->
    grows st st' /\ forall building, Good building st -> Good building st'.

(** A computation that never throws [UnusableType]. *)
Definition quiet {X : Type} (m : M X) : Prop :=
  forall st type st', m st <> Some (Throw (UnusableType type), st').

(** A computation that gives a result on every state where [P] holds, and
    keeps [P]. *)
Definition total {X : Type} (P : State -> Prop) (m : M X) : Prop :=
  forall st, P st -> exists r st', m st = Some (r, st') /\ P st'.

(** The field [f] may be declared below [inherit]. *)
Definition freshFor (inherit : option ClassGen) (f : FieldGen) : Prop :=
  chainHasField' inherit (id_name f) = false.

(** No constructor declaration is found among [members]. *)
Definition noConstructorDeclared (members : list Member) : Prop :=
  forall member, In member members ->
    fl_Constructor (mem_flags member) = true -> mem_declarations member = [].

(** The properties of the state that the diagnostics do not touch. *)
Definition onClasses (P : State -> Prop) : Prop :=
  forall st st', classes st' = classes st -> P st -> P st'.

(** The table has an entry for every name in [names]. *)
Definition covers (names : gset string) (st : State) : Prop :=
  names ⊆ dom (classes st).

(** The class [name] is under construction: its object is in the table,
    neither inited nor invalid. *)
Definition underConstruction (st : State) (name : string) (c : ClassGen)
    : Prop :=
  classes st !! name = Some c /\ cg_inited c = false /\ cg_invalid c = false.

(** Every reference to a class under construction fails. *)
Definition referenceWhileBuildingFails (oracle : Oracle) : Prop :=
  forall fuel symbol abstract st c,
    underConstruction st (sym_name (oracle symbol)) c ->
    exists e st',
      classGen oracle (S fuel) symbol abstract st = Some (Throw e, st').

(** The constructors a class gets when it declares none: the parameter
    lists of the parent's constructors, or one empty parameter list, each
    owned by the class [name]. *)
Definition synthesized (name : string) (inherit : option ClassGen)
    : list ConstructorGen :=
  match inherit with
  | Some parent =>
      map (fun constructor =>
             {| ctor_params := ctor_params constructor;
                ctor_owner := Some name |})
          (cg_constructors parent)
  | None => [ {| ctor_params := []; ctor_owner := Some name |} ]
  end.

(** Whenever the loop over the members has accepted no constructor, the
    class gets the synthesized ones. *)
Definition defaultsWhenNoneAccepted (oracle : Oracle) : Prop :=
  forall fuel symbol inherit st l stk,
    let sym := oracle symbol in
    membersLoop (classGen oracle fuel) sym inherit (sym_members sym)
      noLocals st = Some (Ok l, stk) ->
    constructors l = [] ->
    map (setOwnerC (sym_name sym)) (constructorsOrDefault inherit l)
    = synthesized (sym_name sym) inherit.

(** Every member that is a field and bears the name of a field of the
    chain of parents is passed over, and nothing is reported. *)
Definition inheritedFieldsDroppedSilently : Prop :=
  forall rec sym inherit member l st,
    fl_Constructor (mem_flags member) = false ->
    fl_Property (mem_flags member) = true ->
    chainHasField' inherit (mem_name member) = true ->
    memberStep rec sym inherit member l st = Some (Ok l, st).

(** The state after [warn(message)]. *)
Definition warned (st : State) (message : string) : State :=
  {| classes := classes st; warnings := warnings st ++ [message] |}.

(** *** Later states *)

(** One write of the script to the state: a diagnostic ([warn]); a new
    object stored under a name that is not in the table and not blacklisted
    ([this.classes[name] = result]); and the two writes to an object under
    construction, [result.init(...)] and [result.invalid = true]. *)
Inductive step : State -> State -> Prop :=
| step_warn st message : step st (warned st message)
| step_new st name abstract :
    classes st !! name = None -> blacklisted "class" name = false ->
    step st (overwrite st name (newClassGen name abstract))
| step_init st name this inherit fields constructors methods :
    underConstruction st name this ->
    step st (overwrite st name
               (init this inherit fields constructors methods))
| step_invalid st name this :
    underConstruction st name this ->
    step st (overwrite st name (setInvalid this)).

(** [st'] is [st] or a state the script is in later, whatever it does in
    between. *)
Definition reaches : State -> State -> Prop := rtc step.

(** A property of the state that no write of the script breaks. *)
Definition stable (I : State -> Prop) : Prop :=
  forall st st', step st st' -> I st -> I st'.

(** From every state in [P], [m'] does what [m] does, and [m] ends in a
    state in [P]. *)
Definition follows {X : Type} (P : State -> Prop) (m m' : M X) : Prop :=
  forall st, P st ->
    m' st = m st /\ forall r st', m st = Some (r, st') -> P st'.

(** *** Units that are translated one by one *)

(** The diagnostic for the call signature number [counter] of the function
    [sym], when the type [type] could not be translated. *)
Definition functionReport (sym : Symbol) (counter : nat) (type : TsType)
    : string :=
  "Could not translate function " +:+ sym_name sym
  +:+ (if (0 <? counter)%nat
       then ", call signature #" +:+ showNat counter
       else "")
  +:+ " because tried to translate "
  +:+ ty_text (sym_type sym)
  +:+ " but couldn't translate type " +:+ ty_text type.

(** The same for a call signature of the method [member] of the class
    [sym]. *)
Definition methodReport (sym : Symbol) (member : Member) (counter : nat)
    (type : TsType) : string :=
  "Could not translate method " +:+ sym_name sym
  +:+ " on class $name}"
  +:+ (if (0 <? counter)%nat
       then ", call signature #" +:+ showNat counter
       else "")
  +:+ " because tried to translate "
  +:+ ty_text (mem_type member)
  +:+ " but couldn't translate type " +:+ ty_text type.

(** The same for the constructor declaration number [found] of the class
    [name]. *)
Definition constructorReport (name : string) (found : nat) (type : TsType)
    : string :=
  "Could not translate constructor #" +:+ showNat found
  +:+ " on class " +:+ name
  +:+ " because couldn't translate type "
  +:+ ty_text type.

(** The same for the field [member] of the class [sym]. *)
Definition fieldReport (sym : Symbol) (member : Member) (type : TsType)
    : string :=
  "Could not translate property " +:+ mem_name member
  +:+ " on class " +:+ sym_name sym
  +:+ "because couldn't translate type " +:+ ty_text type.

(** The units [U] are translated one by one, from the state [st] on, the
    first of them bearing the number [S counter]: the result of a unit is
    kept; a unit that throws [UnusableType] is skipped, with the one
    diagnostic [report] gives for its number and the type; the units that
    follow are translated all the same.  [kept] lists what was kept, in
    order, and [st'] is the state at the end.  (A unit that throws anything
    else ends the translation: no case is given for it.) *)
Inductive attempted {U G : Type} (unit : U -> M G)
    (report : nat -> TsType -> string)
    : nat -> list U -> State -> list G -> State -> Prop :=
| attempted_nil counter st : attempted unit report counter [] st [] st
| attempted_kept counter u rest st gen st1 kept st' :
    unit u st = Some (Ok gen, st1) ->
    attempted unit report (S counter) rest st1 kept st' ->
    attempted unit report counter (u :: rest) st (gen :: kept) st'
| attempted_skipped counter u rest st type st1 kept st' :
    unit u st = Some (Throw (UnusableType type), st1) ->
    attempted unit report (S counter) rest
      (warned st1 (report (S counter) type)) kept st' ->
    attempted unit report counter (u :: rest) st kept st'.

(** The unit either gives a result or throws [UnusableType], whatever the
    state. *)
Definition translatedOrUnusable {U G : Type} (unit : U -> M G) (u : U)
    : Prop :=
  forall st, exists st1,
    (exists gen, unit u st = Some (Ok gen, st1))
    \/ (exists type, unit u st = Some (Throw (UnusableType type), st1)).

(** The constructor with the parameters [ps], before [init] gives it its
    owner. *)
Definition constructorOf (ps : list ParameterGen) : ConstructorGen :=
  {| ctor_params := ps; ctor_owner := None |}.

(** *** The text of a diagnostic *)

(** The text [text] contains [name]. *)
Definition mentions (name text : string) : Prop :=
  exists before after, text = before +:+ name +:+ after.

(** Two classes of the table that have a field of each other's type are
    both left out of [out], and one diagnostic names both. *)
Definition mutualFieldsDropped (st : State) (out : list Gen) : Prop :=
  forall a b fa fb,
    classes st !! cg_name a = Some a -> classes st !! cg_name b = Some b ->
    cg_name a <> cg_name b ->
    In fa (cg_fields a) -> id_type fa = ClassType (cg_name b) ->
    In fb (cg_fields b) -> id_type fb = ClassType (cg_name a) ->
    (forall E, In E out ->
       dependKey E <> Some (cg_name a) /\ dependKey E <> Some (cg_name b))
    /\ exists message,
         In message (warnings st)
         /\ mentions (cg_name a) message /\ mentions (cg_name b) message.

(** What [classGen] does, seen from its caller. *)
Definition classGenSpec (oracle : Oracle)
    (cg : SymId -> bool -> M ClassGen) : Prop :=
  forall symbol abstract st r st',
    cg symbol abstract st = Some (r, st') ->
    grows st st'
    /\ (forall building, Good building st -> Good building st')
    /\ (forall c, r = Ok c ->
                  classes st' !! sym_name (oracle symbol) = Some c
                  /\ cg_invalid c = false)
    /\ (forall type, r <> Throw (UnusableType type)).

(** *** A check of [sccContract] on a given graph and list of components *)

(** Is [v] reached from [u] by a path of at most [fuel] edges? *)
Fixpoint reachb (fuel : nat) (g : Graph) (u v : string) : bool :=
  String.eqb u v
  || match fuel with
     | 0 => false
     | S fuel => existsb (fun w => reachb fuel g w v) (successors g u)
     end.

(** Going through the components in order, is the component of [v] met no
    later than that of [u]? *)
Fixpoint notLater (sccs : list (list string)) (u v : string) : bool :=
  match sccs with
  | [] => false
  | c :: rest =>
      if inList v c then true
      else if inList u c then false
      else notLater rest u v
  end.

Definition contractCheck (g : Graph) (sccs : list (list string)) : bool :=
  bool_decide (NoDup (concat sccs))
  && forallb (fun v => inList v (nodes g)) (concat sccs)
  && forallb (fun v => inList v (concat sccs)) (nodes g)
  && forallb (fun c =>
                forallb (fun u =>
                           forallb (reachb (length (g_edges g)) g u) c) c)
             sccs
  && forallb (fun e => notLater sccs (fst e) (snd e)) (g_edges g).

(** *** Names *)

(** A name the scrubber has nothing to do on. *)
Definition clean (id : string) : bool :=
  negb (hasUnderscoreRun id) && negb (hasDollar id)
  && negb (startsWithUnderscore id) && negb (reserved id).

(** *** Debug output *)

(** The properties of an enum object that [enumBitstring] prints for
    [value]. *)
Definition selected (value : Z) (tight : bool) (entry : string * EnumValue)
    : bool :=
  match snd entry with
  | NumberValue bit =>
      negb (Z.eqb bit 0)
      && (if tight then hasBit value bit
          else negb (Z.eqb (bitAnd value bit) 0))
  | StringValue _ => false
  end.

Fixpoint hasNewline (s : string) : bool :=
  match s with
  | EmptyString => false
  | String c rest => Ascii.eqb c newlineChar || hasNewline rest
  end.

(** *** Classes and their members *)

(** A class and its ancestors, nearest first. *)
Fixpoint chain (c : ClassGen) : list ClassGen :=
  match c with
  | Build_ClassGen _ _ inherit _ _ _ _ _ =>
      c :: match inherit with
           | Some parent => chain parent
           | None => []
           end
  end.

(** The field [f] was made from the member [member] of [sym]. *)
Definition fieldFrom (sym : Symbol) (member : Member) (f : FieldGen) : Prop :=
  mem_name member = id_name f
  /\ fl_Constructor (mem_flags member) = false
  /\ fl_Property (mem_flags member) = true
  /\ blacklisted "field" (sym_name sym +:+ "." +:+ mem_name member) = false.

(** The method [s] was made from the member [member] of [sym]. *)
Definition methodFrom (sym : Symbol) (member : Member) (s : SignatureGen)
    : Prop :=
  mem_name member = sig_name s
  /\ fl_Constructor (mem_flags member) = false
  /\ fl_Property (mem_flags member) = false
  /\ fl_Method (mem_flags member) = true
  /\ blacklisted "field" (sym_name sym +:+ "." +:+ mem_name member) = false.

(** *** Exceptions and the denylist *)

(** No class of the table is blacklisted. *)
Definition allowed (st : State) : Prop :=
  forall name c, classes st !! name = Some c -> blacklisted "class" name = false.

Definition refusal (e : Exn) : Prop :=
  exists message, e = GenConstructFail message.

(** What is thrown is in [R], or is an [UnusableType]. *)
Definition orUnusable (R : Exn -> Prop) (e : Exn) : Prop :=
  R e \/ exists type, e = UnusableType type.

(** The [TypeError] of reading [name] of no symbol: in
    [vendor.classGen(type.symbol)] when the type of a class symbol has no
    symbol, and in [inheritSymbol.name] when the heritage expression
    resolves to no symbol.  Nothing in the script catches it. *)
Definition fatal (e : Exn) : Prop :=
  e = JsError "Cannot read property 'name' of undefined".

Definition escapes (e : Exn) : Prop := refusal e \/ fatal e.

Definition never (e : Exn) : Prop := False.

(** Every heritage expression resolves to a symbol. *)
Definition resolved (oracle : Oracle) : Prop :=
  forall symbol, sym_heritageClauses (oracle symbol) <> Some None.

(** The name is no key that the table [classes], a plain object, inherits
    from [Object.prototype]: for such a key [this.classes[name]] gives the
    inherited value, which [getClass] does not. *)
Definition ownName (name : string) : Prop :=
  inList name objectPrototypeKeys = false.

(** No symbol bears such a name. *)
Definition ownNames (oracle : Oracle) : Prop :=
  forall symbol, ownName (sym_name (oracle symbol)).

(** A computation that keeps [I] and throws nothing outside [E]. *)
Definition keeps {X : Type} (I : State -> Prop) (E : Exn -> Prop) (m : M X)
    : Prop :=
  forall st r st',
    m st = Some (r, st') -> (I st -> I st') /\ forall e, r = Throw e -> E e.

(** A top-level generator whose name passed the blacklist. *)
Definition permitted (gen : Gen) : Prop :=
  match gen with
  | GenClass c => blacklisted "class" (cg_name c) = false
  | GenVariable v => blacklisted "variable" (id_name v) = false
  | GenSignature s => blacklisted "variable" (sig_name s) = false
  | _ => True
  end.

(** The type of every class symbol in scope has a symbol. *)
Definition wellTyped (oracle : Oracle) (scope : list SymId) : Prop :=
  forall symbol, In symbol scope ->
    fl_Class (sym_flags (oracle symbol)) = true ->
    ty_symbol (sym_type (oracle symbol)) <> None.

(** *** The graph *)

(** Both ends of every edge are nodes. *)
Definition closed (g : Graph) : Prop :=
  forall u w, edge g u w -> In u (nodes g) /\ In w (nodes g).

End Statements.

Import Statements.

(** * Properties *)

(** ** The identifier scrubber *)

Example identifierScrub_reserved : identifierScrub "type" = "xYpe".
Proof. reflexivity. Qed.

Example identifierScrub_underscore : identifierScrub "__a$b" = "zAzzb".
Proof. reflexivity. Qed.

Example identifierScrub_inherited_key :
  identifierScrub "constructor" = "xOnstructor".
Proof. reflexivity. Qed.

Example identifierScrub_second_dollar :
  identifierScrub "a$$" = "azz$" /\ identifierScrub "azz$" = "azzzz".
Proof. split; reflexivity. Qed.

Lemma replaceUnderscores_no_run s :
  hasUnderscoreRun s = false -> replaceUnderscores s = s.
Proof.
  induction s as [|c s IH]; [reflexivity|].
  cbn [hasUnderscoreRun replaceUnderscores]. intros H.
  apply orb_false_iff in H as [H1 H2]. rewrite H1. f_equal. auto.
Qed.

Lemma replaceDollar_no_dollar by_ s :
  hasDollar s = false -> replaceDollar by_ s = s.
Proof.
  induction s as [|c s IH]; [reflexivity|].
  cbn [hasDollar replaceDollar]. intros H.
  apply orb_false_iff in H as [H1 H2]. rewrite H1. f_equal. auto.
Qed.

Lemma toUpperCase_underscore c : isUnderscore (toUpperCase c) = isUnderscore c.
Proof. destruct c as [[] [] [] [] [] [] [] []]; reflexivity. Qed.

Lemma toUpperCase_dollar c : isDollar (toUpperCase c) = isDollar c.
Proof. destruct c as [[] [] [] [] [] [] [] []]; reflexivity. Qed.

Lemma capitalizeFirstLetter_run s :
  hasUnderscoreRun (capitalizeFirstLetter s) = hasUnderscoreRun s.
Proof. destruct s; cbn; [reflexivity|]. now rewrite toUpperCase_underscore. Qed.

Lemma capitalizeFirstLetter_dollar s :
  hasDollar (capitalizeFirstLetter s) = hasDollar s.
Proof. destruct s; cbn; [reflexivity|]. now rewrite toUpperCase_dollar. Qed.

(** A name without runs of underscores, dollar signs and leading
    underscore, that is not reserved, is left as it is. *)
Lemma identifierScrub_fixed id :
  hasUnderscoreRun id = false -> hasDollar id = false ->
  startsWithUnderscore id = false -> reserved id = false ->
  identifierScrub id = id.
Proof.
  intros H1 H2 H3 H4. unfold identifierScrub.
  rewrite (replaceUnderscores_no_run id H1), (replaceDollar_no_dollar _ id H2).
  now rewrite H3, H4.
Qed.

(** What the third step makes of the reserved words. *)
Lemma reserved_prefixed id :
  reserved id = true -> hasUnderscoreRun id = false ->
  let id' := "x" +:+ capitalizeFirstLetter (slice1 id) in
  hasUnderscoreRun id' = false /\ hasDollar id' = false
  /\ startsWithUnderscore id' = false /\ reserved id' = false.
Proof.
  intros Hres Hrun.
  assert (Hall : forallb
            (fun w =>
               let w' := "x" +:+ capitalizeFirstLetter (slice1 w) in
               hasUnderscoreRun w
               || (negb (hasUnderscoreRun w') && negb (hasDollar w')
                   && negb (startsWithUnderscore w') && negb (reserved w')))
            (reservedWords ++ objectPrototypeKeys) = true)
    by (vm_compute; reflexivity).
  rewrite forallb_forall in Hall. specialize (Hall id).
  assert (Hin : In id (reservedWords ++ objectPrototypeKeys)).
  { unfold reserved, truthyLookup, inList in Hres.
    apply orb_true_iff in Hres. apply in_app_iff.
    destruct Hres as [H|H]; apply existsb_exists in H as (w & Hw & E);
      apply String.eqb_eq in E; subst; auto. }
  specialize (Hall Hin). cbv zeta in *. rewrite Hrun in Hall. cbn in Hall.
  repeat (apply andb_true_iff in Hall as [Hall ?]).
  repeat split; now apply negb_true_iff.
Qed.

(** When the two replacements leave no second match behind, scrubbing the
    scrubbed name changes nothing. *)
Theorem identifierScrub_idempotent_after_full_replacement id :
  hasUnderscoreRun (replaceDollar "zz" (replaceUnderscores id)) = false ->
  hasDollar (replaceDollar "zz" (replaceUnderscores id)) = false ->
  identifierScrub (identifierScrub id) = identifierScrub id.
Proof.
  unfold identifierScrub at 2 3.
  set (id1 := replaceDollar "zz" (replaceUnderscores id)). intros Hrun Hdollar.
  set (id2 := if startsWithUnderscore id1
              then "z" +:+ capitalizeFirstLetter (slice1 id1) else id1).
  assert (H2 : hasUnderscoreRun id2 = false /\ hasDollar id2 = false
               /\ startsWithUnderscore id2 = false).
  { unfold id2. destruct (startsWithUnderscore id1) eqn:Hstart; [|auto].
    destruct id1 as [|c rest]; [discriminate|]. cbn in Hstart, Hrun, Hdollar.
    rewrite Hstart in Hrun. cbn in Hrun.
    apply orb_false_iff in Hrun as [Hr1 Hr2].
    apply orb_false_iff in Hdollar as [_ Hd].
    change ("z" +:+ capitalizeFirstLetter (slice1 (String c rest)))
      with (String "z" (capitalizeFirstLetter rest)).
    cbn [hasUnderscoreRun hasDollar startsWithUnderscore].
    rewrite capitalizeFirstLetter_run, capitalizeFirstLetter_dollar.
    rewrite Hr2, Hd. auto. }
  destruct H2 as (Hrun2 & Hdollar2 & Hstart2).
  destruct (reserved id2) eqn:Hres.
  - destruct (reserved_prefixed id2 Hres Hrun2) as (R1 & R2 & R3 & R4).
    now apply identifierScrub_fixed.
  - now apply identifierScrub_fixed.
Qed.

(** C6, at the input ["a__b__c"]: the second run of underscores is still
    there after scrubbing, because [replace] with a pattern without the [g]
    flag stops after the first match. *)
Theorem identifierScrub_keeps_second_run :
  identifierScrub "a__b__c" = "a_b__c"
  /\ hasUnderscoreRun (identifierScrub "a__b__c") = true.
Proof. split; reflexivity. Qed.

(** C5, at the input ["a__b__c"]: scrubbing the scrubbed name changes it
    again, so the scrubber is not idempotent there. *)
Theorem identifierScrub_twice_differs :
  identifierScrub (identifierScrub "a__b__c") = "a_b_c"
  /\ identifierScrub (identifierScrub "a__b__c") <> identifierScrub "a__b__c".
Proof. split; [reflexivity | discriminate]. Qed.

(** ** The dependency graph *)

Section GraphFacts.

Implicit Types (g : Graph) (v w : string) (gen : Gen).

Lemma nodeIn_app_absent ns v label :
  existsb (fun n => String.eqb (fst n) v) ns = false ->
  forall w, nodeIn (ns ++ [(v, label)]) w
            = if String.eqb v w then label else nodeIn ns w.
Proof.
  induction ns as [|[v' l] ns IH]; intros Habs w; cbn in *.
  - reflexivity.
  - apply orb_false_iff in Habs as [H1 H2].
    rewrite (IH H2 w).
    destruct (String.eqb_spec v' w) as [->|Hne]; [|reflexivity].
    rewrite String.eqb_sym in H1. now rewrite H1.
Qed.

Lemma nodeIn_absent ns v :
  existsb (fun n => String.eqb (fst n) v) ns = false -> nodeIn ns v = None.
Proof.
  induction ns as [|[v' l] ns IH]; cbn; [reflexivity|].
  intros H. apply orb_false_iff in H as [H1 H2]. rewrite H1. auto.
Qed.

Lemma nodeIn_relabel ns v label :
  existsb (fun n => String.eqb (fst n) v) ns = true ->
  forall w, nodeIn (relabel ns v label) w
            = if String.eqb v w then Some label else nodeIn ns w.
Proof.
  induction ns as [|[v' l] ns IH]; intros Hin w; cbn in *; [discriminate|].
  destruct (String.eqb_spec v' v) as [->|Hne]; cbn.
  - destruct (String.eqb_spec v w); reflexivity.
  - cbn in Hin. rewrite (IH Hin w).
    destruct (String.eqb_spec v' w) as [->|]; [|reflexivity].
    destruct (String.eqb_spec v w); congruence.
Qed.

Lemma node_setNode g v gen w :
  node (setNode g v gen) w = if String.eqb v w then Some gen else node g w.
Proof.
  unfold node, setNode, hasNode.
  destruct (existsb _ (g_nodes g)) eqn:E; cbn.
  - now apply nodeIn_relabel.
  - now apply nodeIn_app_absent.
Qed.

Lemma map_fst_relabel ns v label : map fst (relabel ns v label) = map fst ns.
Proof.
  induction ns as [|[v' l] ns IH]; cbn; [reflexivity|].
  destruct (String.eqb v' v); cbn; congruence.
Qed.

Lemma existsb_fst_In ns v :
  existsb (fun n : string * option Gen => String.eqb (fst n) v) ns = true
  <-> In v (map fst ns).
Proof.
  rewrite existsb_exists, in_map_iff. split.
  - intros [n [Hn E]]. apply String.eqb_eq in E. eauto.
  - intros [n [E Hn]]. exists n. split; [exact Hn|]. now apply String.eqb_eq.
Qed.

Lemma nodes_setNode g v gen w :
  In w (nodes (setNode g v gen)) <-> w = v \/ In w (nodes g).
Proof.
  unfold nodes, setNode, hasNode.
  destruct (existsb _ (g_nodes g)) eqn:E; cbn.
  - rewrite map_fst_relabel. apply existsb_fst_In in E.
    split; [auto | intros [->|]; auto].
  - rewrite map_app, in_app_iff. cbn. intuition.
Qed.

Lemma edges_setNode g v gen : g_edges (setNode g v gen) = g_edges g.
Proof. unfold setNode. now destruct (hasNode g v). Qed.

Lemma node_ensureNode g v w : node (ensureNode g v) w = node g w.
Proof.
  unfold node, ensureNode, hasNode.
  destruct (existsb _ (g_nodes g)) eqn:E; cbn; [reflexivity|].
  rewrite (nodeIn_app_absent _ _ None E).
  destruct (String.eqb_spec v w) as [<-|]; [|reflexivity].
  symmetry. now apply nodeIn_absent.
Qed.

Lemma nodes_ensureNode g v w :
  In w (nodes (ensureNode g v)) <-> w = v \/ In w (nodes g).
Proof.
  unfold nodes, ensureNode, hasNode.
  destruct (existsb _ (g_nodes g)) eqn:E; cbn.
  - apply existsb_fst_In in E. split; [auto | intros [->|]; auto].
  - rewrite map_app, in_app_iff. cbn. intuition.
Qed.

Lemma edges_ensureNode g v : g_edges (ensureNode g v) = g_edges g.
Proof. unfold ensureNode. now destruct (hasNode g v). Qed.

Lemma hasEdge_In g v w : hasEdge g v w = true <-> In (v, w) (g_edges g).
Proof.
  unfold hasEdge. rewrite existsb_exists. split.
  - intros [[a b] [Hin E]]. cbn in E. apply andb_true_iff in E as [E1 E2].
    apply String.eqb_eq in E1, E2. now subst.
  - intros Hin. exists (v, w). split; [exact Hin|]. cbn.
    now rewrite !String.eqb_refl.
Qed.

Lemma node_setEdge g v w x : node (setEdge g v w) x = node g x.
Proof.
  unfold setEdge. destruct (hasEdge g v w); [reflexivity|].
  transitivity (node (ensureNode (ensureNode g v) w) x); [reflexivity|].
  now rewrite !node_ensureNode.
Qed.

Lemma nodes_setEdge_mono g v w x :
  In x (nodes g) -> In x (nodes (setEdge g v w)).
Proof.
  unfold setEdge. destruct (hasEdge g v w); [auto|].
  intros H.
  enough (In x (nodes (ensureNode (ensureNode g v) w))) as E by exact E.
  rewrite !nodes_ensureNode. auto.
Qed.

Lemma edges_setEdge g v w e :
  In e (g_edges (setEdge g v w)) <-> e = (v, w) \/ In e (g_edges g).
Proof.
  unfold setEdge. destruct (hasEdge g v w) eqn:E.
  - apply hasEdge_In in E. split; [auto | intros [->|]; auto].
  - cbn. rewrite in_app_iff, !edges_ensureNode. cbn. intuition.
Qed.

(** The edges added for the dependencies of one generator. *)
Lemma setEdges_facts deps : forall g key,
  let g' := fold_left (fun g dep => setEdge g key dep) deps g in
  (forall x, node g' x = node g x)
  /\ (forall x, In x (nodes g) -> In x (nodes g'))
  /\ (forall e, In e (g_edges g')
                <-> In e (g_edges g) \/ exists dep, In dep deps /\ e = (key, dep)).
Proof.
  induction deps as [|d deps IH]; intros g key; cbn.
  - repeat split; auto. intros [H|[dep [[] _]]]; exact H.
  - destruct (IH (setEdge g key d) key) as (Hn & Hs & He). repeat split.
    + intros x. now rewrite Hn, node_setEdge.
    + intros x Hx. now apply Hs, nodes_setEdge_mono.
    + intros H. apply He in H as [H|[dep [Hd ->]]]; [|eauto].
      apply edges_setEdge in H as [->|H]; eauto.
    + intros H. apply He.
      destruct H as [H|[dep [[<-|Hd] ->]]].
      * left. apply edges_setEdge. auto.
      * left. apply edges_setEdge. auto.
      * eauto.
Qed.

Lemma addGenerator_facts g gen :
  (forall x, node (addGenerator g gen) x
             = if String.eqb (genKey gen) x then Some gen else node g x)
  /\ (forall x, In x (nodes g) -> In x (nodes (addGenerator g gen)))
  /\ In (genKey gen) (nodes (addGenerator g gen))
  /\ (forall e, In e (g_edges (addGenerator g gen))
                <-> In e (g_edges g)
                    \/ exists dep, In dep (depends gen) /\ e = (genKey gen, dep)).
Proof.
  unfold addGenerator, genKey.
  destruct (setEdges_facts (depends gen) (setNode g (keyString (dependKey gen)) gen)
              (keyString (dependKey gen))) as (Hn & Hs & He).
  repeat split.
  - intros x. now rewrite Hn, node_setNode.
  - intros x Hx. apply Hs, nodes_setNode. auto.
  - apply Hs, nodes_setNode. auto.
  - intros H. apply He in H. now rewrite edges_setNode in H.
  - intros H. apply He. now rewrite edges_setNode.
Qed.

(** What the loop over the generators leaves in the graph. *)
Lemma fold_addGenerator_facts gens : forall g,
  let g' := fold_left addGenerator gens g in
  (forall x gen, node g' x = Some gen ->
                 node g x = Some gen \/ (In gen gens /\ genKey gen = x))
  /\ (forall x, isSome (node g x) = true -> isSome (node g' x) = true)
  /\ (forall gen, In gen gens -> isSome (node g' (genKey gen)) = true)
  /\ (forall x, In x (nodes g) -> In x (nodes g'))
  /\ (forall gen, In gen gens -> In (genKey gen) (nodes g'))
  /\ (forall e, In e (g_edges g')
                <-> In e (g_edges g)
                    \/ exists gen dep, In gen gens /\ In dep (depends gen)
                                       /\ e = (genKey gen, dep)).
Proof.
  induction gens as [|gen gens IH]; intros g; cbn.
  - repeat split; auto; try contradiction.
    intros [H|(gen & dep & [] & _)]; exact H.
  - destruct (IH (addGenerator g gen)) as (H1 & H2 & H3 & H4 & H5 & H6).
    destruct (addGenerator_facts g gen) as (A1 & A2 & A3 & A4).
    repeat split.
    + intros x gen' Hx. apply H1 in Hx as [Hx|[Hin Hk]]; [|auto].
      rewrite A1 in Hx. destruct (String.eqb_spec (genKey gen) x); [|auto].
      inversion Hx; subst. auto.
    + intros x Hx. apply H2. rewrite A1.
      now destruct (String.eqb (genKey gen) x).
    + intros gen' [<-|Hin]; [|auto].
      apply H2. rewrite A1. now rewrite String.eqb_refl.
    + auto.
    + intros gen' [<-|Hin]; auto.
    + intros H. apply H6 in H as [H|(gen' & dep & Hin & Hd & ->)].
      * apply A4 in H as [H|(dep & Hd & ->)]; [auto|].
        right. exists gen, dep. auto.
      * right. exists gen', dep. auto.
    + intros H. apply H6.
      destruct H as [H|(gen' & dep & [<-|Hin] & Hd & ->)].
      * left. apply A4. auto.
      * left. apply A4. eauto.
      * right. eauto.
Qed.

Lemma dependencies_node gens x gen :
  node (dependencies gens) x = Some gen -> In gen gens /\ genKey gen = x.
Proof.
  intros H.
  destruct (fold_addGenerator_facts gens emptyGraph) as (H1 & _).
  apply H1 in H as [H|H]; [discriminate | exact H].
Qed.

Lemma dependencies_labelled gens gen :
  In gen gens -> exists gen', node (dependencies gens) (genKey gen) = Some gen'.
Proof.
  intros H.
  destruct (fold_addGenerator_facts gens emptyGraph) as (_ & _ & H3 & _).
  specialize (H3 gen H). unfold dependencies.
  destruct (node _ _) as [gen'|]; [eauto | discriminate].
Qed.

Lemma dependencies_nodes gens gen :
  In gen gens -> In (genKey gen) (nodes (dependencies gens)).
Proof.
  intros H.
  destruct (fold_addGenerator_facts gens emptyGraph) as (_ & _ & _ & _ & H5 & _).
  now apply H5.
Qed.

Lemma dependencies_edge gens u w :
  edge (dependencies gens) u w
  <-> exists gen, In gen gens /\ genKey gen = u /\ In w (depends gen).
Proof.
  destruct (fold_addGenerator_facts gens emptyGraph) as (_ & _ & _ & _ & _ & H6).
  unfold edge, dependencies. rewrite H6. cbn. split.
  - intros [[]|(gen & dep & Hin & Hd & E)]. inversion E; subst. eauto.
  - intros (gen & Hin & <- & Hd). right. eauto.
Qed.

End GraphFacts.

(** ** Running a computation step by step *)

Section MonadFacts.

Context {A B : Type}.

Lemma bind_Some (m : M A) (k : A -> M B) st r st' :
  bind m k st = Some (r, st') ->
  (exists e, m st = Some (Throw e, st') /\ r = Throw e)
  \/ (exists a st1, m st = Some (Ok a, st1) /\ k a st1 = Some (r, st')).
Proof.
  unfold bind. destruct (m st) as [[[a|e] st1]|]; intros H.
  - right. eauto.
  - left. inversion H; subst. eauto.
  - discriminate.
Qed.

Lemma tryCatch_Some (body : M A) (handler : Exn -> M A) st r st' :
  tryCatch body handler st = Some (r, st') ->
  (exists a, body st = Some (Ok a, st') /\ r = Ok a)
  \/ (exists e st1, body st = Some (Throw e, st1)
                    /\ handler e st1 = Some (r, st')).
Proof.
  unfold tryCatch. destruct (body st) as [[[a|e] st1]|]; intros H.
  - left. inversion H; subst. eauto.
  - right. eauto.
  - discriminate.
Qed.

Lemma ret_Some (a : A) st r st' :
  ret a st = Some (r, st') -> r = Ok a /\ st' = st.
Proof. unfold ret. intros H. inversion H; auto. Qed.

Lemma throw_Some (e : Exn) st (r : Outcome A) st' :
  throw e st = Some (r, st') -> r = Throw e /\ st' = st.
Proof. unfold throw. intros H. inversion H; auto. Qed.

End MonadFacts.

Lemma warn_Some message st r st' :
  warn message st = Some (r, st') ->
  r = Ok tt /\ st' = {| classes := classes st;
                        warnings := warnings st ++ [message] |}.
Proof. unfold warn. intros H. inversion H; auto. Qed.

(** Take apart a hypothesis that says a computation has run. *)
Tactic Notation "run_bind" hyp(H) "as" simple_intropattern(a)
    simple_intropattern(st1) simple_intropattern(H1) simple_intropattern(H2) :=
  let e := fresh "e" in
  apply bind_Some in H as [(e & H1 & H2)|(a & st1 & H1 & H2)].

Tactic Notation "run_try" hyp(H) "as" simple_intropattern(a)
    simple_intropattern(st1) simple_intropattern(H1) simple_intropattern(H2) :=
  let e := fresh "e" in
  apply tryCatch_Some in H as [(a & H1 & H2)|(e & st1 & H1 & H2)].

Ltac run_end H :=
  let E := fresh "E" in
  match type of H with
  | ret _ _ = Some _ => apply ret_Some in H as [E ?]
  | throw _ _ = Some _ => apply throw_Some in H as [E ?]
  | warn _ _ = Some _ => apply warn_Some in H as [E ?]
  end; try discriminate E; try (injection E as E); subst.

Ltac run_all :=
  repeat match goal with
    | H : bind _ _ _ = Some _ |- _ => run_bind H as ? ? ? ?
    | H : tryCatch _ _ _ = Some _ |- _ => run_try H as ? ? ? ?
    | H : ret _ _ = Some _ |- _ => run_end H
    | H : throw _ _ = Some _ |- _ => run_end H
    | H : warn _ _ = Some _ |- _ => run_end H
    | H : (if ?b then _ else _) _ = Some _ |- _ => destruct b eqn:?
    | H : (match ?x with _ => _ end) _ = Some _ |- _ => destruct x eqn:?
    | H : Throw _ = Ok _ |- _ => discriminate H
    | H : Ok _ = Throw _ |- _ => discriminate H
    | H : Ok _ = Ok _ |- _ => injection H as H; subst
    | H : Throw _ = Throw _ |- _ => injection H as H; subst
    end.

(** ** The generators of the symbols in scope *)

Section GenerateFacts.

Variable oracle : Oracle.

Lemma symbolStep_keyed fuel symbol gens st gens' st' :
  symbolStep oracle fuel symbol gens st = Some (Ok gens', st') ->
  exists more, gens' = gens ++ more /\ Forall keyed more.
Proof.
  unfold symbolStep. intros H.
  assert (Hnone : exists more : list Gen, gens = gens ++ more /\ Forall keyed more).
  { exists []. split; [now rewrite app_nil_r | constructor]. }
  assert (Hone : forall gen, keyed gen ->
            exists more, gens ++ [gen] = gens ++ more /\ Forall keyed more).
  { intros gen Hk. exists [gen]. split; [reflexivity | now repeat constructor]. }
  run_try H as a st1 H E.
  - (* no exception *)
    injection E as ->.
    destruct (fl_Class _); cbv iota in H.
    { destruct (ty_symbol _); cbv iota in H; [|run_end H].
      run_bind H as c st1 H1 H2; [discriminate|]. run_end H2.
      apply Hone. discriminate. }
    destruct (fl_Interface _); cbv iota in H.
    { run_bind H as c st1 H1 H2; [discriminate|]. run_end H2.
      apply Hone. discriminate. }
    destruct (_ || _); cbv iota in H.
    { run_bind H as c st1 H1 H2; [discriminate|]. run_end H2.
      apply Hone. discriminate. }
    destruct (fl_Function _); cbv iota in H.
    { run_bind H as c st1 H1 H2; [discriminate|]. run_end H2.
      eexists; split; [reflexivity|].
      apply List.Forall_forall. intros x Hx. apply in_map_iff in Hx as (s & <- & _).
      discriminate. }
    run_bind H as c st2 H1 H2; [discriminate|]. run_end H2.
    exact Hnone.
  - (* a caught exception *)
    destruct e; try (run_end E).
    run_bind E as c st2 H1 H2; [discriminate|]. run_end H2.
    exact Hnone.
Qed.

Lemma symbolsLoop_keyed fuel scope : forall gens st gens' st',
  Forall keyed gens ->
  symbolsLoop oracle fuel scope gens st = Some (Ok gens', st') ->
  Forall keyed gens'.
Proof.
  induction scope as [|symbol scope IH]; intros gens st gens' st' Hk H; cbn in H.
  - run_end H. exact Hk.
  - run_bind H as gens1 st1 H1 H2; [discriminate|].
    apply symbolStep_keyed in H1 as (more & -> & Hm).
    eapply IH; [|exact H2]. apply Forall_app. auto.
Qed.

Lemma generate_keyed fuel scope st gens st' :
  generate oracle fuel scope st = Some (Ok gens, st') -> Forall keyed gens.
Proof. apply symbolsLoop_keyed. constructor. Qed.

End GenerateFacts.

(** ** The sorted generators *)

Section ContractFacts.

Variable g : Graph.
Variable sccs : list (list string).
Hypothesis contract : sccContract g sccs.

Lemma concat_NoDup_same (l : list (list string)) c1 c2 x :
  NoDup (concat l) -> In c1 l -> In c2 l -> In x c1 -> In x c2 -> c1 = c2.
Proof.
  induction l as [|c l IH]; cbn; [contradiction|].
  intros Hnd H1 H2 Hx1 Hx2.
  apply NoDup_app in Hnd as (_ & Hdis & Hnd).
  assert (Hin : forall c', In c' l -> In x c' -> x ∈ concat l).
  { intros c' Hc' Hx. apply list_elem_of_In, in_concat. eauto. }
  destruct H1 as [<-|H1], H2 as [<-|H2].
  - reflexivity.
  - exfalso. apply (Hdis x); [now apply list_elem_of_In | eauto].
  - exfalso. apply (Hdis x); [now apply list_elem_of_In | eauto].
  - now apply IH.
Qed.

Lemma component_of v :
  In v (nodes g) ->
  exists before c after, sccs = before ++ c :: after /\ In v c.
Proof.
  intros Hv. apply (scc_nodes _ _ contract) in Hv.
  apply in_concat in Hv as (c & Hc & Hvc).
  apply in_split in Hc as (before & after & ->). eauto.
Qed.

(** A path never leads into a later component. *)
Lemma reach_not_later u v :
  reach g u v ->
  forall before c after,
    sccs = before ++ c :: after -> In u c -> In v (concat before ++ c).
Proof.
  induction 1 as [u|u w v Hedge Hreach IH]; intros before c after E Hu.
  - apply in_app_iff. auto.
  - pose proof (scc_order _ _ contract _ _ _ _ _ E Hu Hedge) as Hw.
    apply in_app_iff in Hw as [Hw|Hw]; [|eauto].
    apply in_concat in Hw as (c' & Hc' & Hw).
    apply in_split in Hc' as (b1 & b2 & ->).
    specialize (IH b1 c' (b2 ++ c :: after)).
    rewrite <- app_assoc in E. specialize (IH E Hw).
    apply in_app_iff. left. rewrite concat_app. cbn.
    apply in_app_iff in IH as [IH|IH]; apply in_app_iff; auto.
    right. apply in_app_iff. auto.
Qed.

(** Nodes that reach each other share a component. *)
Lemma scc_maximal u v :
  In u (nodes g) -> reach g u v -> reach g v u ->
  exists c, In c sccs /\ In u c /\ In v c.
Proof.
  intros Hu Huv Hvu.
  destruct (component_of u Hu) as (before & c & after & E & Huc).
  exists c. split; [rewrite E; apply in_elt|]. split; [exact Huc|].
  pose proof (reach_not_later _ _ Huv _ _ _ E Huc) as Hv.
  apply in_app_iff in Hv as [Hv|Hv]; [|exact Hv]. exfalso.
  apply in_concat in Hv as (c' & Hc' & Hv).
  apply in_split in Hc' as (b1 & b2 & ->).
  rewrite <- app_assoc in E. cbn in E.
  pose proof (reach_not_later _ _ Hvu _ _ _ E Hv) as Hu'.
  pose proof (scc_nodup _ _ contract) as Hnd.
  rewrite E, concat_app in Hnd. cbn in Hnd.
  rewrite concat_app in Hnd. cbn in Hnd.
  rewrite !app_assoc in Hnd.
  apply NoDup_app in Hnd as (Hnd & _ & _).
  apply NoDup_app in Hnd as (_ & Hdis & _).
  apply (Hdis u).
  - apply list_elem_of_In. rewrite <- app_assoc.
    apply in_app_iff in Hu' as [Hu'|Hu']; apply in_app_iff; auto.
    right. apply in_app_iff. auto.
  - now apply list_elem_of_In.
Qed.

Lemma component_unique c1 c2 x :
  In c1 sccs -> In c2 sccs -> In x c1 -> In x c2 -> c1 = c2.
Proof. apply concat_NoDup_same, (scc_nodup _ _ contract). Qed.

Lemma component_NoDup c : In c sccs -> NoDup c.
Proof.
  intros Hc. apply in_split in Hc as (b & a & E).
  pose proof (scc_nodup _ _ contract) as Hnd.
  rewrite E, concat_app in Hnd. cbn in Hnd.
  apply NoDup_app in Hnd as (_ & _ & Hnd).
  now apply NoDup_app in Hnd as (Hnd & _ & _).
Qed.

(** A member of a component with several members has an edge that leaves
    it. *)
Lemma cyclic_member_has_edge c v :
  In c sccs -> cyclic c = true -> In v c -> exists w, edge g v w.
Proof.
  intros Hc Hcyc Hv.
  assert (Hother : exists u, In u c /\ u <> v).
  { pose proof (component_NoDup c Hc) as Hnd.
    unfold cyclic in Hcyc. apply Nat.ltb_lt in Hcyc.
    destruct c as [|a [|b c]]; cbn in Hcyc; try lia.
    destruct (String.eqb_spec a v) as [->|Hne].
    - exists b. split; [cbn; auto|]. intros ->.
      apply NoDup_cons in Hnd as [Hnd _]. apply Hnd. left.
    - exists a. split; [cbn; auto | exact Hne]. }
  destruct Hother as (u & Hu & Hne).
  pose proof (scc_connected _ _ contract c v u Hc Hv Hu) as Hreach.
  destruct Hreach as [|v w u Hedge _]; [congruence | eauto].
Qed.

End ContractFacts.

Section SortFacts.

Variable g : Graph.

Lemma mapOutcome_memberKey c :
  (forall v, In v c ->
             exists gen, node g v = Some gen /\ dependKey gen = Some v) ->
  mapOutcome memberKey (map (fun id => node g id) c) = Ok c.
Proof.
  induction c as [|v c IH]; intros H; cbn; [reflexivity|].
  destruct (H v (or_introl eq_refl)) as (gen & -> & Hk). cbn. rewrite Hk.
  rewrite IH; [reflexivity|]. intros w Hw. apply H. now right.
Qed.

Lemma sortLoop_run sccs :
  (forall c v, In c sccs -> cyclic c = true -> In v c ->
               exists gen, node g v = Some gen /\ dependKey gen = Some v) ->
  forall acc st,
    sortLoop (map (fun scc => map (fun id => node g id) scc) sccs) acc st
    = Some (Ok (acc ++ flat_map (emitOf g) sccs),
            {| classes := classes st;
               warnings := warnings st
                           ++ map cycleMessage (List.filter cyclic sccs) |}).
Proof.
  induction sccs as [|c sccs IH]; intros Hlab acc st.
  - cbn. unfold ret. rewrite !app_nil_r. now destruct st.
  - cbn [map sortLoop flat_map List.filter]. rewrite length_map.
    unfold emitOf at 1. fold (cyclic c).
    assert (Hrest : forall c' v, In c' sccs -> cyclic c' = true -> In v c' ->
              exists gen, node g v = Some gen /\ dependKey gen = Some v).
    { intros c' v Hc'. apply Hlab. now right. }
    destruct (cyclic c) eqn:Hcyc.
    + rewrite mapOutcome_memberKey
        by (intros v Hv; apply (Hlab c v); [now left | exact Hcyc | exact Hv]).
      unfold bind, warn. rewrite (IH Hrest). cbn.
      now rewrite <- app_assoc.
    + destruct c as [|v rest]; cbn [map]; [apply (IH Hrest)|].
      destruct (node g v) as [gen|]; cbn [arrayFilter].
      * rewrite (IH Hrest). now rewrite <- app_assoc.
      * apply (IH Hrest).
Qed.

Lemma emitOf_length c : length (emitOf g c) <= 1.
Proof.
  unfold emitOf. destruct (cyclic c); [cbn; lia|].
  destruct c as [|v rest]; [cbn; lia|].
  destruct (node g v); cbn; lia.
Qed.

Lemma emitOf_inv c D :
  In D (emitOf g c) -> exists v, c = [v] /\ node g v = Some D.
Proof.
  unfold emitOf, cyclic. destruct (1 <? length c)%nat eqn:E; [contradiction|].
  apply Nat.ltb_ge in E.
  destruct c as [|v [|w rest]]; cbn in E; try lia; [contradiction|].
  destruct (node g v) as [gen|] eqn:Hn; cbn; [|contradiction].
  intros [<-|[]]. eauto.
Qed.

Lemma emitOf_singleton v D : node g v = Some D -> emitOf g [v] = [D].
Proof. intros H. unfold emitOf. cbn. now rewrite H. Qed.

End SortFacts.

Lemma flat_map_split {X Y : Type} (f : X -> list Y) (l : list X) :
  (forall x, length (f x) <= 1) ->
  forall before D after,
    flat_map f l = before ++ D :: after ->
    exists l1 x l2,
      l = l1 ++ x :: l2 /\ flat_map f l1 = before /\ f x = [D]
      /\ flat_map f l2 = after.
Proof.
  intros Hlen. induction l as [|x l IH]; intros before D after E; cbn in E.
  - destruct before; discriminate.
  - specialize (Hlen x) as Hx. destruct (f x) as [|y [|z ys]] eqn:Ef; cbn in Hx.
    + cbn in E. destruct (IH _ _ _ E) as (l1 & x' & l2 & -> & H1 & H2 & H3).
      exists (x :: l1), x', l2. cbn. rewrite Ef. auto.
    + cbn in E. destruct before as [|b before]; cbn in E.
      * injection E as -> E. exists [], x, l. cbn. auto.
      * injection E as -> E.
        destruct (IH _ _ _ E) as (l1 & x' & l2 & -> & H1 & H2 & H3).
        exists (x :: l1), x', l2. cbn. rewrite Ef. cbn. subst. auto.
    + lia.
Qed.

Section SortedGenerators.

Variable components : Graph -> list (list string).
Variable gens : list Gen.
Hypothesis gens_keyed : Forall keyed gens.
Hypothesis contract :
  sccContract (dependencies gens) (components (dependencies gens)).

Let g := dependencies gens.
Let sccs := components g.

Lemma labelled_key v gen :
  node g v = Some gen -> In gen gens /\ dependKey gen = Some v.
Proof.
  intros H. apply dependencies_node in H as [Hin Hk]. split; [exact Hin|].
  rewrite List.Forall_forall in gens_keyed. specialize (gens_keyed _ Hin).
  unfold keyed in gens_keyed. unfold genKey in Hk.
  destruct (dependKey gen); [cbn in Hk; congruence | congruence].
Qed.

Lemma keyed_genKey gen k : dependKey gen = Some k -> genKey gen = k.
Proof. unfold genKey. now intros ->. Qed.

Lemma cyclic_labelled c v :
  In c sccs -> cyclic c = true -> In v c ->
  exists gen, node g v = Some gen /\ dependKey gen = Some v.
Proof.
  intros Hc Hcyc Hv.
  destruct (cyclic_member_has_edge g sccs contract c v Hc Hcyc Hv) as (w & Hw).
  apply dependencies_edge in Hw as (gen & Hin & Hk & _).
  destruct (dependencies_labelled gens gen Hin) as (gen' & Hlab).
  rewrite Hk in Hlab. exists gen'. split; [exact Hlab|].
  now apply labelled_key.
Qed.

Lemma sortedGenerators_run st :
  sortedGenerators components gens st
  = Some (Ok (flat_map (emitOf g) sccs),
          {| classes := classes st;
             warnings := warnings st
                         ++ map cycleMessage (List.filter cyclic sccs) |}).
Proof.
  unfold sortedGenerators, groupedGenerators.
  now rewrite (sortLoop_run g sccs cyclic_labelled).
Qed.

Lemma emitted_inv E :
  In E (flat_map (emitOf g) sccs) ->
  exists v, In [v] sccs /\ node g v = Some E /\ dependKey E = Some v
            /\ In E gens.
Proof.
  intros H. apply in_flat_map in H as (c & Hc & HE).
  apply emitOf_inv in HE as (v & -> & Hn).
  exists v. destruct (labelled_key v E Hn). auto.
Qed.

Lemma cyclic_not_emitted c v E :
  In c sccs -> cyclic c = true -> In v c ->
  In E (flat_map (emitOf g) sccs) -> dependKey E <> Some v.
Proof.
  intros Hc Hcyc Hv HE Hk.
  apply emitted_inv in HE as (v' & Hc' & _ & Hk' & _).
  assert (v' = v) as -> by congruence.
  assert (E' : [v] = c).
  { apply (component_unique g sccs contract _ _ v); cbn; auto. }
  subst c. discriminate.
Qed.

Lemma sorted_noForwardReferenceButSelf :
  noForwardReferenceButSelf (flat_map (emitOf g) sccs).
Proof.
  intros before D after k E Hk.
  destruct (flat_map_split _ _ (emitOf_length g) _ _ _ E)
    as (l1 & c & l2 & Esccs & Hbefore & Hc & Hafter).
  assert (HD : In D (emitOf g c)) by (rewrite Hc; now left).
  apply emitOf_inv in HD as (v & -> & Hnode).
  destruct (labelled_key v D Hnode) as [HinD HkeyD].
  assert (Hedge : edge g v k).
  { apply dependencies_edge. exists D. split; [exact HinD|].
    split; [now apply keyed_genKey | exact Hk]. }
  pose proof (scc_order _ _ contract _ _ _ _ _ Esccs (or_introl eq_refl) Hedge)
    as Hpos.
  apply in_app_iff in Hpos as [Hpos|[<-|[]]].
  2:{ right. right. exact HkeyD. }
  apply in_concat in Hpos as (c' & Hc' & Hkc').
  assert (Hc'sccs : In c' sccs).
  { fold sccs in Esccs. rewrite Esccs. apply in_app_iff. auto. }
  assert (Hnone : (forall E', node g k = Some E' -> c' <> [k]) ->
            forall E', In E' (flat_map (emitOf g) sccs) -> dependKey E' <> Some k).
  { intros Hno E' HE' HkE'.
    apply emitted_inv in HE' as (v' & Hv' & Hn' & Hk' & _).
    assert (v' = k) as -> by congruence.
    apply (Hno E' Hn').
    apply (component_unique g sccs contract _ _ k); cbn; auto. }
  destruct c' as [|k0 [|k1 rest]].
  - contradiction.
  - destruct Hkc' as [->|[]].
    destruct (node g k) as [E'|] eqn:HnE'.
    + left. exists E'. split.
      * rewrite <- Hbefore. apply in_flat_map. exists [k]. split; [exact Hc'|].
        rewrite (emitOf_singleton g k E' HnE'). now left.
      * now apply (labelled_key k E').
    + right. left. apply Hnone. intros E' HE'. congruence.
  - right. left. apply Hnone. intros E' _. discriminate.
Qed.

End SortedGenerators.

(** ** Checking the contract of the components *)

Lemma inList_In key l : inList key l = true <-> In key l.
Proof.
  unfold inList. rewrite existsb_exists. split.
  - intros (x & Hx & E). apply String.eqb_eq in E. now subst.
  - intros H. exists key. split; [exact H | apply String.eqb_refl].
Qed.

Lemma successors_edge g u w : In w (successors g u) <-> edge g u w.
Proof.
  unfold successors, edge. rewrite in_map_iff. split.
  - intros ([a b] & <- & H). apply filter_In in H as [H E]. cbn in *.
    apply String.eqb_eq in E. now subst.
  - intros H. exists (u, w). split; [reflexivity|].
    apply filter_In. split; [exact H | apply String.eqb_refl].
Qed.

Lemma reachb_sound fuel g : forall u v, reachb fuel g u v = true -> reach g u v.
Proof.
  induction fuel as [|fuel IH]; intros u v H; cbn in H;
    apply orb_true_iff in H as [H|H]; try discriminate;
    try (apply String.eqb_eq in H as ->; constructor).
  apply existsb_exists in H as (w & Hw & Hr).
  apply reach_step with w; [now apply successors_edge | now apply IH].
Qed.

Lemma notLater_sound before c after u v :
  notLater (before ++ c :: after) u v = true -> In u c ->
  In v (concat before ++ c).
Proof.
  intros H Hu. induction before as [|b before IH]; cbn in *.
  - destruct (inList v c) eqn:Hv; [now apply inList_In|].
    apply inList_In in Hu. rewrite Hu in H. discriminate.
  - destruct (inList v b) eqn:Hv.
    + apply in_app_iff. left. apply in_app_iff. left. now apply inList_In.
    + destruct (inList u b); [discriminate|].
      specialize (IH H). rewrite <- app_assoc. apply in_app_iff. now right.
Qed.

Lemma contractCheck_sound g sccs :
  contractCheck g sccs = true -> sccContract g sccs.
Proof.
  unfold contractCheck. intros H.
  repeat (apply andb_true_iff in H as [H ?]).
  constructor.
  - now apply bool_decide_eq_true in H.
  - intros v. rewrite forallb_forall in H2, H3. split; intros Hv.
    + now apply inList_In, H3.
    + now apply inList_In, H2.
  - intros c u v Hc Hu Hv. rewrite forallb_forall in H1.
    specialize (H1 c Hc). rewrite forallb_forall in H1.
    specialize (H1 u Hu). rewrite forallb_forall in H1.
    eapply reachb_sound, H1, Hv.
  - intros before c after u v -> Hu Hedge. rewrite forallb_forall in H0.
    apply (notLater_sound _ _ after u); [|exact Hu]. apply (H0 (u, v) Hedge).
Qed.

(** ** Strings *)

Lemma append_cons (x : ascii) (a b : string) :
  String x a +:+ b = String x (a +:+ b).
Proof. reflexivity. Qed.

Lemma append_nil (b : string) : "" +:+ b = b.
Proof. reflexivity. Qed.

Lemma append_assoc' (a b c : string) : (a +:+ b) +:+ c = a +:+ (b +:+ c).
Proof.
  induction a as [|x a IH]; [reflexivity|].
  now rewrite !append_cons, IH.
Qed.

Lemma append_nil_right (a : string) : a +:+ "" = a.
Proof.
  induction a as [|x a IH]; [reflexivity|]. now rewrite append_cons, IH.
Qed.

Lemma join_cons joiner x y rest :
  join joiner (x :: y :: rest) = x +:+ joiner +:+ join joiner (y :: rest).
Proof. reflexivity. Qed.

Lemma mentions_append_l before name text :
  mentions name text -> mentions name (before +:+ text).
Proof.
  intros (b & a & ->). exists (before +:+ b), a. now rewrite append_assoc'.
Qed.

(** Every member of a list is in the text that joins them. *)
Lemma mentions_join joiner v c : In v c -> mentions v (join joiner c).
Proof.
  induction c as [|x c IH]; [contradiction|].
  destruct c as [|y rest].
  - intros [->|[]]. exists "", "". cbn [join].
    now rewrite append_nil, append_nil_right.
  - rewrite join_cons. intros [->|Hin].
    + exists "", (joiner +:+ join joiner (y :: rest)). now rewrite append_nil.
    + apply mentions_append_l, mentions_append_l, IH, Hin.
Qed.

(** ** The order of the output and the cycles *)

(** C1, as amended: for the generators of any scope, and any components
    that meet the contract of the analysis, the sorted generators are
    computed, and every dependency key of an emitted declaration names a
    declaration emitted strictly earlier, or names nothing emitted, or is
    the declaration's own key. *)
Theorem emitted_dependencies_earlier_or_self
    (components : Graph -> list (list string)) (oracle : Oracle)
    (fuel : nat) (scope : list SymId) (st : State) (gens : list Gen)
    (st1 : State) :
  generate oracle fuel scope st = Some (Ok gens, st1) ->
  sccContract (dependencies gens) (components (dependencies gens)) ->
  exists out st2,
    sortedGenerators components gens st1 = Some (Ok out, st2)
    /\ noForwardReferenceButSelf out.
Proof.
  intros Hgen Hcontract. apply generate_keyed in Hgen.
  eexists. eexists. split.
  - apply (sortedGenerators_run components gens Hgen Hcontract).
  - apply (sorted_noForwardReferenceButSelf components gens Hgen Hcontract).
Qed.

(** C2, as amended: for the generators of any scope, and any components
    that meet the contract of the analysis, the sorted generators are
    computed; the diagnostics added are exactly one message per component
    with more than one member, "Can't translate mutually recursive types,
    so ignoring: " followed by its members joined by ", "; the message of
    such a component names every member, and no member is the key of an
    emitted declaration; two classes that are both among the generators and
    have a field of each other's type lie in one such component, so
    neither is emitted and one message names both; and a key that no
    generator bears lies in no such component. *)
Theorem cycles_dropped_and_reported
    (components : Graph -> list (list string)) (oracle : Oracle)
    (fuel : nat) (scope : list SymId) (st : State) (gens : list Gen)
    (st1 : State) :
  generate oracle fuel scope st = Some (Ok gens, st1) ->
  sccContract (dependencies gens) (components (dependencies gens)) ->
  let sccs := components (dependencies gens) in
  let report (c : list string) :=
    "Can't translate mutually recursive types, so ignoring: "
    +:+ join ", " c in
  exists out st2,
    sortedGenerators components gens st1 = Some (Ok out, st2)
    /\ warnings st2 = warnings st1 ++ map report (List.filter cyclic sccs)
    /\ (forall c, In c sccs -> cyclic c = true ->
          In (report c) (warnings st2)
          /\ forall v, In v c ->
               mentions v (report c)
               /\ forall E, In E out -> dependKey E <> Some v)
    /\ (forall a b fa fb,
          In (GenClass a) gens -> In (GenClass b) gens ->
          cg_name a <> cg_name b ->
          In fa (cg_fields a) -> id_type fa = ClassType (cg_name b) ->
          In fb (cg_fields b) -> id_type fb = ClassType (cg_name a) ->
          exists c,
            In c sccs /\ cyclic c = true
            /\ In (cg_name a) c /\ In (cg_name b) c
            /\ In (report c) (warnings st2)
            /\ mentions (cg_name a) (report c)
            /\ mentions (cg_name b) (report c)
            /\ forall E, In E out ->
                 dependKey E <> Some (cg_name a)
                 /\ dependKey E <> Some (cg_name b))
    /\ (forall v c,
          (forall E, In E gens -> dependKey E <> Some v) ->
          In c sccs -> In v c -> cyclic c = false).
Proof.
  intros Hgen Hcontract sccs report. apply generate_keyed in Hgen.
  assert (Hreported : forall c, In c sccs -> cyclic c = true ->
            In (report c)
              (warnings st1 ++ map report (List.filter cyclic sccs))).
  { intros c Hc Hcyc. apply in_app_iff. right.
    apply in_map, filter_In. auto. }
  assert (Hnames : forall c v, In v c -> mentions v (report c)).
  { intros c v Hv. apply mentions_append_l, mentions_join, Hv. }
  eexists. eexists. split; [|split; [|split; [|split]]].
  - apply (sortedGenerators_run components gens Hgen Hcontract).
  - reflexivity.
  - intros c Hc Hcyc. split; [now apply Hreported|].
    intros v Hv. split; [now apply Hnames|].
    intros E. now apply (cyclic_not_emitted components gens Hgen Hcontract c).
  - intros a b fa fb Ha Hb Hne Hfa Hta Hfb Htb.
    assert (Hfield : forall x y f, In (GenClass x) gens ->
              In f (cg_fields x) -> id_type f = ClassType y ->
              edge (dependencies gens) (cg_name x) y).
    { intros x y f Hx Hf Ht. apply dependencies_edge.
      exists (GenClass x). split; [exact Hx|]. split; [reflexivity|].
      cbn. unfold dependsClass. apply in_app_iff. left. cbn.
      apply in_app_iff. left. apply in_concat.
      exists (dependsIdentifier f). split; [now apply in_map|].
      unfold dependsIdentifier. rewrite Ht. now left. }
    pose proof (Hfield a _ fa Ha Hfa Hta) as Hab.
    pose proof (Hfield b _ fb Hb Hfb Htb) as Hba.
    destruct (scc_maximal _ _ Hcontract (cg_name a) (cg_name b))
      as (c & Hc & Hac & Hbc).
    { apply (dependencies_nodes gens (GenClass a) Ha). }
    { eapply reach_step; [exact Hab | constructor]. }
    { eapply reach_step; [exact Hba | constructor]. }
    assert (Hcyc : cyclic c = true).
    { unfold cyclic. apply Nat.ltb_lt.
      destruct c as [|x [|y c]]; cbn in *; [contradiction | | lia].
      destruct Hac as [Ea|[]], Hbc as [Eb|[]]. congruence. }
    exists c. split; [exact Hc|]. split; [exact Hcyc|].
    split; [exact Hac|]. split; [exact Hbc|].
    split; [now apply Hreported|].
    split; [now apply Hnames|]. split; [now apply Hnames|].
    intros E HE. split;
      apply (cyclic_not_emitted components gens Hgen Hcontract c); auto.
  - intros v c Hnone Hc Hv.
    destruct (cyclic c) eqn:Hcyc; [|reflexivity]. exfalso.
    destruct (cyclic_labelled components gens Hgen Hcontract c v Hc Hcyc Hv)
      as (gen & Hnode & Hkey).
    destruct (labelled_key gens Hgen v gen Hnode) as [Hin _].
    exact (Hnone gen Hin Hkey).
Qed.

(** C10, as amended: a generator (a declaration made for a symbol in
    scope) that depends on its own key, and whose key lies on no cycle
    through another key, makes a component of its own (although the graph
    has the edge from the key to itself); the generator labelling that key
    (the declaration itself, when no other generator has the key) is
    emitted, and no component that is reported as a cycle contains the
    key.  Nothing but generators is emitted: a class that is only built as
    the type of a member or of a variable is not, whether it depends on
    its own key or not. *)
Theorem self_dependent_alone_is_emitted
    (components : Graph -> list (list string)) (oracle : Oracle)
    (fuel : nat) (scope : list SymId) (st : State) (gens : list Gen)
    (st1 : State) (D : Gen) (v : string) :
  generate oracle fuel scope st = Some (Ok gens, st1) ->
  sccContract (dependencies gens) (components (dependencies gens)) ->
  In D gens -> dependKey D = Some v -> In v (depends D) ->
  (forall u, u <> v -> reach (dependencies gens) v u ->
             reach (dependencies gens) u v -> False) ->
  let sccs := components (dependencies gens) in
  exists out st2,
    sortedGenerators components gens st1 = Some (Ok out, st2)
    /\ edge (dependencies gens) v v
    /\ In [v] sccs
    /\ (exists E, In E out /\ dependKey E = Some v
                  /\ ((forall E', In E' gens -> dependKey E' = Some v ->
                                  E' = D) -> E = D))
    /\ (forall c, In c sccs -> cyclic c = true -> ~ In v c)
    /\ warnings st2
       = warnings st1 ++ map cycleMessage (List.filter cyclic sccs)
    /\ (forall E, In E out -> In E gens).
Proof.
  intros Hgen Hcontract HD Hkey Hself Halone sccs.
  apply generate_keyed in Hgen.
  assert (Hsingle : In [v] sccs).
  { destruct (component_of _ _ Hcontract v) as (before & c & after & E & Hv).
    { rewrite <- (keyed_genKey D v Hkey). now apply dependencies_nodes. }
    assert (Hc : In c sccs) by (unfold sccs; rewrite E; apply in_elt).
    assert (Hall : forall u, In u c -> u = v).
    { intros u Hu. destruct (String.eqb_spec u v) as [|Hne]; [assumption|].
      exfalso. apply (Halone u Hne).
      - apply (scc_connected _ _ Hcontract c); auto.
      - apply (scc_connected _ _ Hcontract c); auto. }
    pose proof (component_NoDup _ _ Hcontract c Hc) as Hnd.
    destruct c as [|x [|y c]]; [contradiction| |].
    - rewrite (Hall x) in Hc by now left. exact Hc.
    - exfalso. rewrite (Hall x), (Hall y) in Hnd by (cbn; auto).
      apply NoDup_cons in Hnd as [Hnd _]. apply Hnd. left. }
  destruct (dependencies_labelled gens D HD) as (E & HE).
  rewrite (keyed_genKey D v Hkey) in HE.
  destruct (labelled_key gens Hgen v E HE) as [HEin HEkey].
  eexists. eexists. split; [|split; [|split; [|split; [|split; [|split]]]]].
  - apply (sortedGenerators_run components gens Hgen Hcontract).
  - apply dependencies_edge. exists D.
    split; [exact HD|]. split; [now apply keyed_genKey | exact Hself].
  - exact Hsingle.
  - exists E. split; [|split].
    + apply in_flat_map. exists [v]. split; [exact Hsingle|].
      rewrite (emitOf_singleton _ v E HE). now left.
    + exact HEkey.
    + intros Huniq. now apply Huniq.
  - intros c Hc Hcyc Hv.
    assert (E' : [v] = c).
    { apply (component_unique _ _ Hcontract _ _ v); cbn; auto. }
    subst c. discriminate.
  - reflexivity.
  - intros E' HE'.
    now apply (emitted_inv components gens Hgen) in HE'
      as (? & ? & ? & ? & ?).
Qed.

(** A run for [emitted_dependencies_earlier_or_self]: [Element] extends [P]. *)
Lemma emitted_dependencies_earlier_or_self_witness :
  exists gens st1,
    generate oracleFields 3 [1; 0] initialState = Some (Ok gens, st1)
    /\ sccContract (dependencies gens) (tarjan (dependencies gens))
    /\ exists out st2,
         sortedGenerators tarjan gens st1 = Some (Ok out, st2)
         /\ noForwardReferenceButSelf out.
Proof.
  eexists. eexists.
  split; [vm_compute; reflexivity|].
  split; [apply contractCheck_sound; vm_compute; reflexivity|].
  apply (emitted_dependencies_earlier_or_self tarjan oracleFields 3 [1; 0]
           initialState).
  - vm_compute; reflexivity.
  - apply contractCheck_sound; vm_compute; reflexivity.
Defined.

(** C1 fails for [class Node { next: Node }]: the one emitted declaration
    depends on the key [Node], which names an emitted declaration (itself)
    and no earlier one. *)
Lemma forward_reference_to_self :
  exists gens st1 out st2,
    generate oracleSelf 2 [0] initialState = Some (Ok gens, st1)
    /\ sccContract (dependencies gens) (tarjan (dependencies gens))
    /\ sortedGenerators tarjan gens st1 = Some (Ok out, st2)
    /\ map dependKey out = [Some "Node"]
    /\ ~ noForwardReference out.
Proof.
  eexists. eexists. eexists. eexists.
  split; [vm_compute; reflexivity|].
  split; [apply contractCheck_sound; vm_compute; reflexivity|].
  split; [vm_compute; reflexivity|].
  split; [reflexivity|].
  intros H.
  match type of H with
  | noForwardReference [?D] =>
      destruct (H [] D [] "Node" eq_refl (or_introl eq_refl))
        as [(E & [] & _)|Hno];
      apply (Hno D (or_introl eq_refl)); reflexivity
  end.
Qed.

(** A run for [cycles_dropped_and_reported]: [class A { b: B }] and
    [class B { a: A }], both among the symbols in scope. *)
Lemma cycles_dropped_and_reported_witness :
  exists gens st1,
    generate oracleAB 3 [0; 1] initialState = Some (Ok gens, st1)
    /\ sccContract (dependencies gens) (tarjan (dependencies gens))
    /\ gens = [GenClass mutualA; GenClass mutualB]
    /\ let sccs := tarjan (dependencies gens) in
       let report (c : list string) :=
         "Can't translate mutually recursive types, so ignoring: "
         +:+ join ", " c in
       exists out st2,
         sortedGenerators tarjan gens st1 = Some (Ok out, st2)
         /\ warnings st2
            = warnings st1 ++ map report (List.filter cyclic sccs)
         /\ (forall c, In c sccs -> cyclic c = true ->
               In (report c) (warnings st2)
               /\ forall v, In v c ->
                    mentions v (report c)
                    /\ forall E, In E out -> dependKey E <> Some v)
         /\ (forall a b fa fb,
               In (GenClass a) gens -> In (GenClass b) gens ->
               cg_name a <> cg_name b ->
               In fa (cg_fields a) -> id_type fa = ClassType (cg_name b) ->
               In fb (cg_fields b) -> id_type fb = ClassType (cg_name a) ->
               exists c,
                 In c sccs /\ cyclic c = true
                 /\ In (cg_name a) c /\ In (cg_name b) c
                 /\ In (report c) (warnings st2)
                 /\ mentions (cg_name a) (report c)
                 /\ mentions (cg_name b) (report c)
                 /\ forall E, In E out ->
                      dependKey E <> Some (cg_name a)
                      /\ dependKey E <> Some (cg_name b))
         /\ (forall v c,
               (forall E, In E gens -> dependKey E <> Some v) ->
               In c sccs -> In v c -> cyclic c = false).
Proof.
  eexists. eexists.
  split; [vm_compute; reflexivity|].
  split; [apply contractCheck_sound; vm_compute; reflexivity|].
  split; [reflexivity|].
  apply (cycles_dropped_and_reported tarjan oracleAB 3 [0; 1] initialState).
  - vm_compute; reflexivity.
  - apply contractCheck_sound; vm_compute; reflexivity.
Defined.

(** C2 fails for [class A { b: B }] and [class B { a: A }] when only [A] is
    among the symbols in scope: [B] is built as the type of the field of
    [A], and both classes are in the table with a field of each other's
    type; but [B] is no generator, so the graph has no edge from [B], [A]
    makes a component of its own and is emitted, and there is no
    diagnostic. *)
Lemma mutual_fields_out_of_scope_emitted :
  exists st1 st2,
    generate oracleAB 3 [0] initialState = Some (Ok [GenClass mutualA], st1)
    /\ sccContract (dependencies [GenClass mutualA])
         (tarjan (dependencies [GenClass mutualA]))
    /\ sortedGenerators tarjan [GenClass mutualA] st1
       = Some (Ok [GenClass mutualA], st2)
    /\ classes st2 !! "A" = Some mutualA
    /\ classes st2 !! "B" = Some mutualB
    /\ warnings st2 = []
    /\ ~ mutualFieldsDropped st2 [GenClass mutualA].
Proof.
  eexists. eexists.
  split; [vm_compute; reflexivity|].
  split; [apply contractCheck_sound; vm_compute; reflexivity|].
  split; [vm_compute; reflexivity|].
  split; [vm_compute; reflexivity|].
  split; [vm_compute; reflexivity|].
  split; [reflexivity|].
  intros H.
  destruct (H mutualA mutualB
              {| id_name := "b"; id_type := ClassType "B" |}
              {| id_name := "a"; id_type := ClassType "A" |})
    as [Hout _];
    try (vm_compute; reflexivity); try (now left); try discriminate.
  destruct (Hout (GenClass mutualA) (or_introl eq_refl)) as [Hne _].
  now apply Hne.
Qed.

(** The script on [class A { b: B }] and [class B { a: A }]: nothing is
    printed, and one diagnostic names both classes. *)
Example script_mutual_fields :
  exists st,
    script tarjan oracleAB 3 [0; 1] initialState = Some (Ok ([], ""), st)
    /\ warnings st
       = ["Can't translate mutually recursive types, so ignoring: B, A"].
Proof. eexists. split; vm_compute; reflexivity. Qed.

(** The script on [class Node { next: Node }]: the class is printed. *)
Example script_self_reference :
  script tarjan oracleSelf 2 [0] initialState
  = Some (Ok ([GenClass nodeClass],
              "type Node* {.importc.} = ref object of RootObj" +:+ newline
              +:+ "    next*: Node" +:+ newline
              +:+ "proc newNode*() : Node {.importcpp:" +:+ dquote
              +:+ "new Node" +:+ dquote +:+ ".}"),
          overwrite initialState "Node" nodeClass).
Proof. vm_compute. reflexivity. Qed.

Lemma reach_self_loop_only g v u :
  (forall w, edge g v w -> w = v) -> reach g v u -> u = v.
Proof.
  intros Hloop Hreach. induction Hreach as [|x w u Hedge _ IH]; [reflexivity|].
  apply Hloop in Hedge as Hw. subst w. now apply IH.
Qed.

(** A run for [self_dependent_alone_is_emitted]:
    [class Node { next: Node }]. *)
Lemma self_dependent_alone_is_emitted_witness :
  exists gens st1,
    generate oracleSelf 2 [0] initialState = Some (Ok gens, st1)
    /\ sccContract (dependencies gens) (tarjan (dependencies gens))
    /\ In (GenClass nodeClass) gens
    /\ dependKey (GenClass nodeClass) = Some "Node"
    /\ In "Node" (depends (GenClass nodeClass))
    /\ (forall u, u <> "Node" -> reach (dependencies gens) "Node" u ->
                  reach (dependencies gens) u "Node" -> False)
    /\ let sccs := tarjan (dependencies gens) in
       exists out st2,
         sortedGenerators tarjan gens st1 = Some (Ok out, st2)
         /\ edge (dependencies gens) "Node" "Node"
         /\ In ["Node"] sccs
         /\ (exists E, In E out /\ dependKey E = Some "Node"
                       /\ ((forall E', In E' gens ->
                                       dependKey E' = Some "Node" ->
                                       E' = GenClass nodeClass) ->
                           E = GenClass nodeClass))
         /\ (forall c, In c sccs -> cyclic c = true -> ~ In "Node" c)
         /\ warnings st2
            = warnings st1 ++ map cycleMessage (List.filter cyclic sccs)
         /\ (forall E, In E out -> In E gens).
Proof.
  eexists. eexists.
  assert (Halone : forall u, u <> "Node" ->
            reach (dependencies [GenClass nodeClass]) "Node" u ->
            reach (dependencies [GenClass nodeClass]) u "Node" -> False).
  { intros u Hne Hreach _. apply Hne.
    apply (reach_self_loop_only (dependencies [GenClass nodeClass])); [|exact Hreach].
    intros w Hw. vm_compute in Hw. destruct Hw as [Hw|[]].
    now injection Hw. }
  split; [vm_compute; reflexivity|].
  split; [apply contractCheck_sound; vm_compute; reflexivity|].
  split; [now left|].
  split; [reflexivity|].
  split; [now left|].
  split; [exact Halone|].
  apply (self_dependent_alone_is_emitted tarjan oracleSelf 2 [0] initialState).
  - vm_compute; reflexivity.
  - apply contractCheck_sound; vm_compute; reflexivity.
  - now left.
  - reflexivity.
  - now left.
  - exact Halone.
Defined.

(** C10 fails for [class A { a: A; b: B }] and [class B { a: A }]: the
    declaration of [A] depends on its own key, yet it lies in the component
    of [A] and [B], is not emitted and is named in the cycle diagnostic. *)
Lemma self_dependent_in_cycle_dropped :
  exists gens st1 out st2,
    generate oracleTangle 3 [0; 1] initialState = Some (Ok gens, st1)
    /\ sccContract (dependencies gens) (tarjan (dependencies gens))
    /\ sortedGenerators tarjan gens st1 = Some (Ok out, st2)
    /\ out = []
    /\ warnings st2
       = ["Can't translate mutually recursive types, so ignoring: B, A"]
    /\ ~ selfDependentEmitted gens out
           (List.filter cyclic (tarjan (dependencies gens))).
Proof.
  eexists. eexists. eexists. eexists.
  split; [vm_compute; reflexivity|].
  split; [apply contractCheck_sound; vm_compute; reflexivity|].
  split; [vm_compute; reflexivity|].
  split; [reflexivity|].
  split; [reflexivity|].
  intros H.
  match type of H with
  | selfDependentEmitted (?D :: _) _ _ =>
      destruct (H D "A" (or_introl eq_refl) eq_refl (or_introl eq_refl))
        as [[] _]
  end.
Qed.

(** [class Z { next: Z }] when only the variable [v: Z] is among the
    symbols in scope: [Z] is built and depends on its own key, but it is
    no generator, and only [v] is printed. *)
Example self_dependent_out_of_scope_not_emitted :
  exists out text st z,
    script tarjan oracleSelfUnlisted 3 [0] initialState
    = Some (Ok (out, text), st)
    /\ classes st !! "Z" = Some z
    /\ cg_inited z = true /\ cg_invalid z = false
    /\ dependKey (GenClass z) = Some "Z"
    /\ In "Z" (depends (GenClass z))
    /\ map dependKey out = [Some "v"]
    /\ text = "var v* {.importc, nodecl.}: Z"
    /\ warnings st = [].
Proof.
  eexists. eexists. eexists. eexists.
  split; [vm_compute; reflexivity|].
  split; [vm_compute; reflexivity|].
  repeat split. now left.
Qed.

(** ** The vendor: what every computation keeps *)

Section StateFacts.

Lemma grows_refl st : grows st st.
Proof. split; [reflexivity | exists []; now rewrite app_nil_r]. Qed.

Lemma grows_trans st1 st2 st3 : grows st1 st2 -> grows st2 st3 -> grows st1 st3.
Proof.
  intros [H1 [m1 E1]] [H2 [m2 E2]]. split; [now transitivity (classes st2)|].
  exists (m1 ++ m2). now rewrite E2, E1, app_assoc.
Qed.

Lemma grows_warn st message :
  grows st {| classes := classes st; warnings := warnings st ++ [message] |}.
Proof. split; [reflexivity | now exists [message]]. Qed.

Lemma grows_lookup st st' name c :
  grows st st' -> classes st !! name = Some c -> classes st' !! name = Some c.
Proof. intros [H _] Hc. eapply lookup_weaken; eassumption. Qed.

Lemma Good_classes building st st' :
  classes st' = classes st -> Good building st -> Good building st'.
Proof. unfold Good. intros ->. auto. Qed.

Lemma Good_weaken (b1 b2 : string -> Prop) st :
  (forall name, b1 name -> b2 name) -> Good b1 st -> Good b2 st.
Proof.
  intros Hb H name c Hc. destruct (H name c Hc) as (H1 & H2 & H3).
  split; [exact H1|]. split; [exact H2|]. destruct H3 as [H3|H3]; auto.
Qed.

End StateFacts.

Lemma sound_ret {X : Type} (x : X) : sound (ret x).
Proof.
  intros st r st' H. run_end H. split; [apply grows_refl | auto].
Qed.

Lemma sound_throw {X : Type} (e : Exn) : sound (@throw X e).
Proof.
  intros st r st' H. run_end H. split; [apply grows_refl | auto].
Qed.

Lemma sound_warn message : sound (warn message).
Proof.
  intros st r st' H. run_end H. split; [apply grows_warn|].
  intros b. now apply Good_classes.
Qed.

Lemma quiet_ret {X : Type} (x : X) : quiet (ret x).
Proof. intros st type st' H. discriminate. Qed.

Lemma quiet_throw {X : Type} (e : Exn) :
  (forall type, e <> UnusableType type) -> quiet (@throw X e).
Proof.
  intros He st type st' H. unfold throw in H. injection H as H _.
  now apply (He type).
Qed.

Lemma quiet_warn message : quiet (warn message).
Proof. intros st type st' H. discriminate. Qed.

Lemma total_ret {X : Type} (P : State -> Prop) (x : X) : total P (ret x).
Proof. intros st HP. exists (Ok x), st. auto. Qed.

Lemma total_throw {X : Type} (P : State -> Prop) (e : Exn) :
  total P (@throw X e).
Proof. intros st HP. exists (Throw e), st. auto. Qed.

Lemma total_warn (P : State -> Prop) message :
  onClasses P -> total P (warn message).
Proof.
  intros HP st Hst. eexists. eexists. split; [reflexivity|].
  now apply (HP st).
Qed.

Section Combinators.

Context {X Y : Type}.

Lemma sound_bind (m : M X) (k : X -> M Y) :
  sound m -> (forall x, sound (k x)) -> sound (bind m k).
Proof.
  intros Hm Hk st r st' H. run_bind H as x st1 H1 H2.
  - now apply Hm in H1.
  - apply Hm in H1 as [G1 P1]. apply Hk in H2 as [G2 P2].
    split; [eapply grows_trans; eassumption | auto].
Qed.

Lemma sound_tryCatch (body : M X) (handler : Exn -> M X) :
  sound body -> (forall e, sound (handler e)) -> sound (tryCatch body handler).
Proof.
  intros Hm Hk st r st' H. run_try H as x st1 H1 H2.
  - now apply Hm in H1.
  - apply Hm in H1 as [G1 P1]. apply Hk in H2 as [G2 P2].
    split; [eapply grows_trans; eassumption | auto].
Qed.

Lemma quiet_bind (m : M X) (k : X -> M Y) :
  quiet m -> (forall x, quiet (k x)) -> quiet (bind m k).
Proof.
  intros Hm Hk st type st' H. run_bind H as x st1 H1 H2.
  - injection H2 as <-. exact (Hm _ _ _ H1).
  - exact (Hk _ _ _ _ H2).
Qed.

Lemma quiet_tryCatch (body : M X) (handler : Exn -> M X) :
  (forall e, quiet (handler e)) -> quiet (tryCatch body handler).
Proof.
  intros Hk st type st' H. run_try H as x st1 H1 H2.
  - discriminate.
  - exact (Hk _ _ _ _ H2).
Qed.

Lemma total_bind (P : State -> Prop) (m : M X) (k : X -> M Y) :
  total P m -> (forall x, total P (k x)) -> total P (bind m k).
Proof.
  intros Hm Hk st HP. destruct (Hm st HP) as ([x|e] & st1 & E & HP1).
  - destruct (Hk x st1 HP1) as (r & st2 & E2 & HP2).
    exists r, st2. unfold bind. rewrite E. auto.
  - exists (Throw e), st1. unfold bind. rewrite E. auto.
Qed.

Lemma total_tryCatch (P : State -> Prop) (body : M X) (handler : Exn -> M X) :
  total P body -> (forall e, total P (handler e)) ->
  total P (tryCatch body handler).
Proof.
  intros Hm Hk st HP. destruct (Hm st HP) as ([x|e] & st1 & E & HP1).
  - exists (Ok x), st1. unfold tryCatch. rewrite E. auto.
  - destruct (Hk e st1 HP1) as (r & st2 & E2 & HP2).
    exists r, st2. unfold tryCatch. rewrite E. auto.
Qed.

End Combinators.

Lemma sound_mapM {X Y : Type} (f : X -> M Y) (l : list X) :
  (forall x, sound (f x)) -> sound (mapM f l).
Proof.
  intros Hf. induction l as [|x l IH]; cbn.
  - apply sound_ret.
  - apply sound_bind; [apply Hf|]. intros y.
    apply sound_bind; [exact IH|]. intros ys. apply sound_ret.
Qed.

Lemma total_mapM {X Y : Type} (P : State -> Prop) (f : X -> M Y) (l : list X) :
  (forall x, total P (f x)) -> total P (mapM f l).
Proof.
  intros Hf. induction l as [|x l IH]; cbn.
  - apply total_ret.
  - apply total_bind; [apply Hf|]. intros y.
    apply total_bind; [exact IH|]. intros ys. apply total_ret.
Qed.

Ltac step_sound :=
  first
    [ apply sound_ret | apply sound_throw | apply sound_warn
    | apply sound_bind | apply sound_tryCatch | apply sound_mapM
    | match goal with
      | |- sound (if ?b then _ else _) => destruct b
      | |- sound (match ?x with _ => _ end) => destruct x
      | |- forall _, _ => intro
      end ].

Ltac step_quiet :=
  first
    [ apply quiet_ret | apply quiet_warn
    | apply quiet_throw; intros; discriminate
    | apply quiet_tryCatch | apply quiet_bind
    | match goal with
      | |- quiet (if ?b then _ else _) => destruct b
      | |- quiet (match ?x with _ => _ end) => destruct x
      | |- forall _, _ => intro
      end ].

Ltac step_total :=
  first
    [ apply total_ret | apply total_throw | apply total_warn
    | apply total_bind | apply total_tryCatch | apply total_mapM
    | match goal with
      | |- total _ (if ?b then _ else _) => destruct b
      | |- total _ (match ?x with _ => _ end) => destruct x
      | |- forall _, _ => intro
      end ].

(** The functions of the vendor, for any [classGen] they call. *)
Section Operations.

Variable oracle : Oracle.
Variable rec : SymId -> bool -> M ClassGen.

Section Sound.

Hypothesis rec_sound : forall symbol abstract, sound (rec symbol abstract).

Lemma sound_typeGen tsType : sound (typeGen rec tsType).
Proof. unfold typeGen. repeat step_sound; auto. Qed.

Lemma sound_paramsGen syms : sound (paramsGen rec syms).
Proof. unfold paramsGen. repeat step_sound; auto using sound_typeGen. Qed.

Lemma sound_signatureGen name callSignature :
  sound (signatureGen rec name callSignature).
Proof.
  unfold signatureGen.
  repeat step_sound; auto using sound_typeGen.
Qed.

Lemma sound_variableGen sym tsType : sound (variableGen rec sym tsType).
Proof. unfold variableGen. repeat step_sound; auto using sound_typeGen. Qed.

Lemma sound_functionLoop sym callSignatures :
  forall counter result, sound (functionLoop rec sym callSignatures counter result).
Proof.
  induction callSignatures as [|c l IH]; intros counter result; cbn.
  - apply sound_ret.
  - repeat step_sound; auto using sound_typeGen.
Qed.

Lemma sound_functionGen sym : sound (functionGen rec sym).
Proof. unfold functionGen. repeat step_sound. apply sound_functionLoop. Qed.

Lemma sound_constructorLoop name declarations :
  forall l, sound (constructorLoop rec name declarations l).
Proof.
  induction declarations as [|d ds IH]; intros l; cbn.
  - apply sound_ret.
  - repeat step_sound; auto using sound_typeGen.
Qed.

Lemma sound_methodLoop sym member callSignatures :
  forall counter ms, sound (methodLoop rec sym member callSignatures counter ms).
Proof.
  induction callSignatures as [|c l IH]; intros counter ms; cbn.
  - apply sound_ret.
  - repeat step_sound; auto using sound_typeGen.
Qed.

Lemma sound_memberStep sym inherit member l :
  sound (memberStep rec sym inherit member l).
Proof.
  unfold memberStep.
  repeat step_sound;
    auto using sound_constructorLoop, sound_typeGen, sound_methodLoop.
Qed.

Lemma sound_membersLoop sym inherit members :
  forall l, sound (membersLoop rec sym inherit members l).
Proof.
  induction members as [|m ms IH]; intros l; cbn.
  - apply sound_ret.
  - repeat step_sound; auto using sound_memberStep.
Qed.

End Sound.

Section Quiet.

Hypothesis rec_quiet : forall symbol abstract, quiet (rec symbol abstract).

Lemma quiet_variableGen sym tsType : quiet (variableGen rec sym tsType).
Proof. unfold variableGen. repeat step_quiet. Qed.

Lemma quiet_functionLoop sym callSignatures :
  forall counter result, quiet (functionLoop rec sym callSignatures counter result).
Proof.
  induction callSignatures as [|c l IH]; intros counter result; cbn.
  - apply quiet_ret.
  - repeat step_quiet; auto.
Qed.

Lemma quiet_functionGen sym : quiet (functionGen rec sym).
Proof. unfold functionGen. repeat step_quiet. apply quiet_functionLoop. Qed.

Lemma quiet_constructorLoop name declarations :
  forall l, quiet (constructorLoop rec name declarations l).
Proof.
  induction declarations as [|d ds IH]; intros l; cbn.
  - apply quiet_ret.
  - repeat step_quiet; auto.
Qed.

Lemma quiet_methodLoop sym member callSignatures :
  forall counter ms, quiet (methodLoop rec sym member callSignatures counter ms).
Proof.
  induction callSignatures as [|c l IH]; intros counter ms; cbn.
  - apply quiet_ret.
  - repeat step_quiet; auto.
Qed.

Lemma quiet_memberStep sym inherit member l :
  quiet (memberStep rec sym inherit member l).
Proof.
  unfold memberStep.
  repeat step_quiet; auto using quiet_constructorLoop, quiet_methodLoop.
Qed.

Lemma quiet_membersLoop sym inherit members :
  forall l, quiet (membersLoop rec sym inherit members l).
Proof.
  induction members as [|m ms IH]; intros l; cbn.
  - apply quiet_ret.
  - repeat step_quiet; auto using quiet_memberStep.
Qed.

Lemma quiet_classBody sym result : quiet (classBody oracle rec sym result).
Proof.
  unfold classBody, setClass.
  repeat step_quiet; auto using quiet_membersLoop.
  all: intros st type st' H; discriminate.
Qed.

End Quiet.

(** What the loop over the members leaves in the locals. *)
Lemma constructorLoop_locals name declarations : forall l st l' st',
  constructorLoop rec name declarations l st = Some (Ok l', st') ->
  fields l' = fields l /\ methods l' = methods l
  /\ (declarations = [] -> l' = l).
Proof.
  induction declarations as [|d ds IH]; intros l st l' st' H; cbn in H.
  - run_end H. auto.
  - run_bind H as cs st1 H1 H2; [discriminate|].
    apply IH in H2 as (E1 & E2 & _). cbn in E1, E2.
    repeat split; auto. discriminate.
Qed.

Lemma memberStep_locals sym inherit member l st l' st' :
  memberStep rec sym inherit member l st = Some (Ok l', st') ->
  (Forall (freshFor inherit) (fields l) -> Forall (freshFor inherit) (fields l'))
  /\ ((fl_Constructor (mem_flags member) = true ->
       mem_declarations member = []) ->
      constructors l' = constructors l
      /\ foundConstructors l' = foundConstructors l).
Proof.
  unfold memberStep. intros H.
  destruct (fl_Constructor (mem_flags member)) eqn:Hc.
  { apply constructorLoop_locals in H as (E1 & E2 & E3).
    rewrite E1. split; [auto|]. intros Hd. now rewrite E3 by auto. }
  split; [|intros _]; run_all; cbn; auto.
  intros Hf. apply Forall_app. split; [assumption|].
  constructor; [|constructor]. unfold freshFor. cbn.
  now apply negb_true_iff.
Qed.

Lemma membersLoop_locals sym inherit members : forall l st l' st',
  membersLoop rec sym inherit members l st = Some (Ok l', st') ->
  (Forall (freshFor inherit) (fields l) -> Forall (freshFor inherit) (fields l'))
  /\ (noConstructorDeclared members ->
      constructors l' = constructors l
      /\ foundConstructors l' = foundConstructors l).
Proof.
  induction members as [|m ms IH]; intros l st l' st' H; cbn in H.
  - run_end H. auto.
  - run_bind H as l1 st1 H1 H2; [discriminate|].
    apply memberStep_locals in H1 as [F1 C1].
    apply IH in H2 as [F2 C2]. split; [auto|].
    intros Hno.
    destruct C1 as [C1 C1']; [intros; apply Hno; cbn; auto|].
    destruct C2 as [C2 C2']; [intros m' Hm'; apply Hno; cbn; auto|].
    split; congruence.
Qed.

End Operations.

(** ** [classGen] *)

Section StateUpdates.

Implicit Types (st : State) (name : string) (c : ClassGen).

Lemma markInvalid_overwrite st name c :
  classes st !! name = Some c ->
  markInvalid name st = Some (Ok tt, overwrite st name (setInvalid c)).
Proof.
  intros H. unfold markInvalid, overwrite. do 3 f_equal.
  apply map_eq. intros i. destruct (decide (name = i)) as [<-|Hne].
  - now rewrite lookup_alter_eq, lookup_insert_eq, H.
  - now rewrite lookup_alter_ne, lookup_insert_ne.
Qed.

Lemma grows_overwrite st stk name c :
  classes st !! name = None -> grows st stk -> grows st (overwrite stk name c).
Proof.
  intros Hnone [Hsub Hw]. split; [|exact Hw]. cbn.
  now apply insert_subseteq_r.
Qed.

Lemma Good_start building st name abstract :
  Good building st ->
  Good (fun n => building n \/ n = name)
       (overwrite st name (newClassGen name abstract)).
Proof.
  intros HG n c Hc. cbn in Hc. destruct (decide (name = n)) as [<-|Hne].
  - rewrite lookup_insert_eq in Hc. injection Hc as <-.
    split; [reflexivity|]. split; [|auto].
    split; [cbn; auto | intros Hi; discriminate Hi].
  - rewrite lookup_insert_ne in Hc by assumption.
    destruct (HG n c Hc) as (H1 & H2 & H3).
    split; [exact H1|]. split; [exact H2|].
    destruct H3 as [H3|H3]; auto.
Qed.

Lemma Good_finish building stk name c :
  Good (fun n => building n \/ n = name) stk ->
  cg_name c = name -> chainFresh c -> owned c ->
  cg_inited c = true \/ cg_invalid c = true ->
  Good building (overwrite stk name c).
Proof.
  intros HG Hname Hfresh Howned Hdone n c' Hc. cbn in Hc.
  destruct (decide (name = n)) as [<-|Hne].
  - rewrite lookup_insert_eq in Hc. injection Hc as <-. auto.
  - rewrite lookup_insert_ne in Hc by assumption.
    destruct (HG n c' Hc) as (H1 & H2 & H3).
    split; [exact H1|]. split; [exact H2|].
    destruct H3 as [[H3|H3]|H3]; auto; congruence.
Qed.

Lemma owned_init this inherit fields constructors methods :
  owned (init this inherit fields constructors methods).
Proof.
  intros _. cbn. apply List.Forall_forall. intros k Hk.
  apply in_map_iff in Hk as (k' & <- & _). reflexivity.
Qed.

Lemma chainFresh_init this inherit fields constructors methods :
  Forall (freshFor inherit) fields ->
  match inherit with Some parent => chainFresh parent | None => True end ->
  chainFresh (init this inherit fields constructors methods).
Proof.
  intros Hf Hp. cbn. split; [|exact Hp].
  intros f Hin. rewrite List.Forall_forall in Hf. now apply Hf.
Qed.

End StateUpdates.

Section Body.

Variable oracle : Oracle.
Variable rec : SymId -> bool -> M ClassGen.
Hypothesis rec_spec : classGenSpec oracle rec.

Lemma rec_sound symbol abstract : sound (rec symbol abstract).
Proof.
  intros st r st' H. apply rec_spec in H as (H1 & H2 & _). auto.
Qed.

Lemma rec_quiet symbol abstract : quiet (rec symbol abstract).
Proof.
  intros st type st' H. apply rec_spec in H as (_ & _ & _ & H4).
  now apply (H4 type).
Qed.

(** How the [try] block of [classGen] runs: it leaves the state [stk] of
    its last call, and then either has thrown, or stores the inited
    object. *)
Lemma classBody_run sym result st r st' :
  classBody oracle rec sym result st = Some (r, st') ->
  exists stk,
    grows st stk /\ (forall building, Good building st -> Good building stk)
    /\ ((exists e, r = Throw e /\ st' = stk)
        \/ exists inherit st2 l,
             let built := init result inherit (fields l)
                            (constructorsOrDefault inherit l) (methods l) in
             r = Ok built
             /\ st' = overwrite stk (sym_name sym) built
             /\ match sym_heritage sym with
                | None => inherit = None /\ st2 = st
                | Some inheritSymbol =>
                    exists parent,
                      inherit = Some parent
                      /\ rec inheritSymbol false st = Some (Ok parent, st2)
                      /\ cg_inited parent = true
                end
             /\ membersLoop rec sym inherit (sym_members sym) noLocals st2
                = Some (Ok l, stk)).
Proof.
  unfold classBody. intros H.
  match type of H with
  | bind ?m _ _ = _ =>
      assert (Hin : sound m) by (repeat step_sound; apply rec_sound)
  end.
  run_bind H as inherit st2 H1 H2.
  - (* the parent fails *)
    apply Hin in H1 as [G P]. exists st'.
    split; [exact G|]. split; [exact P|]. left. eauto.
  - pose proof (Hin _ _ _ H1) as [G1 P1].
    run_bind H2 as l stk H3 H4.
    + (* a member fails *)
      apply (sound_membersLoop rec rec_sound) in H3 as [G2 P2].
      exists st'. split; [eapply grows_trans; eassumption|].
      split; [auto|]. left. eauto.
    + pose proof (sound_membersLoop rec rec_sound _ _ _ _ _ _ _ H3) as [G2 P2].
      exists stk. split; [eapply grows_trans; eassumption|]. split; [auto|].
      right. exists inherit, st2, l. cbv zeta.
      unfold bind, setClass, ret in H4. injection H4 as <- <-.
      split; [reflexivity|]. split; [reflexivity|]. split; [|exact H3].
      unfold sym_heritage.
      destruct (sym_heritageClauses sym) as [[p|]|].
      * run_bind H1 as parent st3 H5 H6; [discriminate|].
        destruct (cg_inited parent) eqn:Hi; cbn in H6; run_end H6.
        exists parent. auto.
      * run_end H1.
      * run_end H1. auto.
Qed.

Lemma classGenBody_spec : classGenSpec oracle (classGenBody oracle rec).
Proof.
  intros symbol abstract st r st' H. unfold classGenBody in H.
  set (sym := oracle symbol) in *. set (name := sym_name sym) in *.
  unfold bind at 1, getClass in H.
  destruct (classes st !! name) as [already|] eqn:Hlook.
  { (* the class is in the table *)
    destruct (cg_invalid already) eqn:Hinv; run_end H;
      (split; [apply grows_refl|]); (split; [auto|]);
      split; intros; try split; congruence. }
  destruct (blacklisted "class" name); [run_end H|].
  { split; [apply grows_refl|]. split; [auto|]. split; intros; congruence. }
  unfold bind at 1, setClass in H.
  change {| classes := <[name := newClassGen name abstract]> (classes st);
            warnings := warnings st |}
    with (overwrite st name (newClassGen name abstract)) in H.
  set (st1 := overwrite st name (newClassGen name abstract)) in *.
  assert (Hst1 : classes st1 !! name = Some (newClassGen name abstract))
    by apply lookup_insert_eq.
  assert (Hquiet : forall type, r <> Throw (UnusableType type)).
  { intros type ->. run_try H as c st2 H1 H2; [discriminate|].
    run_bind H2 as u st3 H3 H4; [discriminate|]. run_end H4.
    exact (quiet_classBody oracle rec rec_quiet _ _ _ _ _ H1). }
  assert (Hrun : exists stk r0,
            classBody oracle rec sym (newClassGen name abstract) st1
            = Some (r0, stk)
            /\ match r0 with
               | Ok c => r = Ok c /\ st' = stk
               | Throw e =>
                   r = Throw e
                   /\ st' = overwrite stk name
                              (setInvalid (newClassGen name abstract))
               end).
  { run_try H as c st2 H1 H2.
    - exists st', (Ok c). auto.
    - exists st2, (Throw e). split; [exact H1|].
      apply classBody_run in H1 as (stk & G & _ & [(e' & E & ->)|Hok]).
      + run_bind H2 as u st3 H3 H4.
        { rewrite (markInvalid_overwrite _ _ _ (grows_lookup _ _ _ _ G Hst1))
            in H3. discriminate. }
        rewrite (markInvalid_overwrite _ _ _ (grows_lookup _ _ _ _ G Hst1))
          in H3.
        injection H3 as _ <-. run_end H4. auto.
      + destruct Hok as (? & ? & ? & ? & _). discriminate. }
  destruct Hrun as (stk0 & r0 & Hbody & Hr0).
  apply classBody_run in Hbody
    as (stk & G & P & [(e & -> & ->)|(inherit & st2 & l & Hok)]).
  - (* the block has thrown *)
    destruct Hr0 as [-> ->].
    split; [|split; [|split]]; [| |intros; discriminate | exact Hquiet].
    + apply grows_overwrite; [exact Hlook|].
      eapply grows_trans; [|exact G].
      apply grows_overwrite; [exact Hlook | apply grows_refl].
    + intros building HG.
      apply Good_finish;
        [apply P; now apply Good_start | reflexivity | cbn; auto
        | intros Hi; discriminate Hi | now right].
  - (* the object is inited *)
    cbv zeta in Hok. destruct Hok as (-> & -> & Hinh & Hloop).
    destruct Hr0 as [-> ->].
    split; [|split; [|split]]; [| | | exact Hquiet].
    + apply grows_overwrite; [exact Hlook|].
      eapply grows_trans; [|exact G].
      apply grows_overwrite; [exact Hlook | apply grows_refl].
    + intros building HG.
      pose proof (Good_start building st name abstract HG) as HG1.
      fold st1 in HG1.
      apply Good_finish;
        [now apply P | reflexivity | | apply owned_init | now left].
      apply chainFresh_init.
      * apply (membersLoop_locals rec _ _ _ _ _ _ _ Hloop). constructor.
      * destruct (sym_heritage sym) as [p|]; [|now destruct Hinh as [-> _]].
        destruct Hinh as (parent & -> & Hrec & _).
        pose proof (rec_spec _ _ _ _ _ Hrec) as (_ & P2 & R2 & _).
        destruct (R2 parent eq_refl) as [Hstored _].
        now destruct (P2 _ HG1 _ _ Hstored) as (_ & [Hfresh _] & _).
    + intros c E. injection E as <-. split; [apply lookup_insert_eq|].
      reflexivity.
Qed.

End Body.

(** [classGen] meets its specification, whatever the bound. *)
Lemma classGen_spec oracle fuel : classGenSpec oracle (classGen oracle fuel).
Proof.
  induction fuel as [|fuel IH].
  - intros symbol abstract st r st' H. discriminate.
  - apply classGenBody_spec, IH.
Qed.

(** ** [classGen] gives a result *)

Section Totality.

Variable oracle : Oracle.
Variable names : gset string.
Variable rec : SymId -> bool -> M ClassGen.
Hypothesis rec_total :
  forall symbol abstract, total (covers names) (rec symbol abstract).

Lemma covers_onClasses : onClasses (covers names).
Proof. intros st st' E H. unfold covers in *. now rewrite E. Qed.

Lemma total_setClass name c : total (covers names) (setClass name c).
Proof.
  intros st H. eexists. eexists. split; [reflexivity|].
  unfold covers in *. cbn. rewrite dom_insert_L. set_solver.
Qed.

Lemma total_markInvalid name : total (covers names) (markInvalid name).
Proof.
  intros st H. eexists. eexists. split; [reflexivity|].
  unfold covers in *. cbn. now rewrite dom_alter_L.
Qed.

Ltac total_auto :=
  repeat step_total;
  auto using covers_onClasses, total_setClass, total_markInvalid.

Lemma total_typeGen tsType : total (covers names) (typeGen rec tsType).
Proof. unfold typeGen. total_auto. Qed.

Lemma total_functionLoop sym callSignatures : forall counter result,
  total (covers names) (functionLoop rec sym callSignatures counter result).
Proof.
  induction callSignatures as [|c l IH]; intros counter result; cbn.
  - apply total_ret.
  - total_auto; auto using total_typeGen.
Qed.

Lemma total_functionGen sym : total (covers names) (functionGen rec sym).
Proof. unfold functionGen. total_auto. apply total_functionLoop. Qed.

Lemma total_variableGen sym tsType :
  total (covers names) (variableGen rec sym tsType).
Proof. unfold variableGen. total_auto; auto using total_typeGen. Qed.

Lemma total_constructorLoop name declarations : forall l,
  total (covers names) (constructorLoop rec name declarations l).
Proof.
  induction declarations as [|d ds IH]; intros l; cbn.
  - apply total_ret.
  - total_auto; auto using total_typeGen.
Qed.

Lemma total_methodLoop sym member callSignatures : forall counter ms,
  total (covers names) (methodLoop rec sym member callSignatures counter ms).
Proof.
  induction callSignatures as [|c l IH]; intros counter ms; cbn.
  - apply total_ret.
  - total_auto; auto using total_typeGen.
Qed.

Lemma total_memberStep sym inherit member l :
  total (covers names) (memberStep rec sym inherit member l).
Proof.
  unfold memberStep.
  total_auto;
    auto using total_constructorLoop, total_typeGen, total_methodLoop.
Qed.

Lemma total_membersLoop sym inherit members : forall l,
  total (covers names) (membersLoop rec sym inherit members l).
Proof.
  induction members as [|m ms IH]; intros l; cbn.
  - apply total_ret.
  - total_auto; auto using total_memberStep.
Qed.

Lemma total_classBody sym result :
  total (covers names) (classBody oracle rec sym result).
Proof.
  unfold classBody. total_auto; auto using total_membersLoop.
Qed.

End Totality.

Lemma classGen_total oracle (names : gset string) :
  (forall symbol, sym_name (oracle symbol) ∈ names) ->
  forall fuel (done : gset string),
    size (names ∖ done) < fuel ->
    forall symbol abstract,
      total (covers done) (classGen oracle fuel symbol abstract).
Proof.
  intros Hnames. induction fuel as [|fuel IH]; intros done Hsize; [lia|].
  intros symbol abstract st Hcov. cbn [classGen]. unfold classGenBody.
  set (name := sym_name (oracle symbol)).
  unfold bind at 1, getClass.
  destruct (classes st !! name) as [already|] eqn:Hlook.
  { destruct (cg_invalid already); eexists; eexists; split;
      try reflexivity; exact Hcov. }
  destruct (blacklisted "class" name).
  { eexists; eexists; split; [reflexivity | exact Hcov]. }
  unfold bind at 1, setClass.
  assert (Hfresh : name ∉ done).
  { intros Hin. apply Hcov, elem_of_dom in Hin as [c Hc]. congruence. }
  assert (Hless : size (names ∖ (done ∪ {[name]})) < fuel).
  { assert (names ∖ (done ∪ {[name]}) ⊂ names ∖ done) as Hsub.
    { apply strict_spec_alt. split; [set_solver|].
      intros E. assert (name ∈ names ∖ done) as Hin.
      { specialize (Hnames symbol). set_solver. }
      rewrite <- E in Hin. set_solver. }
    apply subset_size in Hsub. lia. }
  pose proof (IH _ Hless) as Hrec.
  assert (Htry : total (covers (done ∪ {[name]}))
            (tryCatch (classBody oracle (classGen oracle fuel) (oracle symbol)
                         (newClassGen name abstract))
                      (fun e => markInvalid name ;;; throw e))).
  { apply total_tryCatch; [now apply total_classBody|].
    intros e. apply total_bind; [apply total_markInvalid|].
    intros _. apply total_throw. }
  edestruct Htry as (r & st' & E & Hcov').
  2:{ exists r, st'. split; [exact E|]. unfold covers in *. set_solver. }
  unfold covers in *. cbn. rewrite dom_insert_L. set_solver.
Qed.

(** When the names of the symbols lie in a finite set, [classGen] gives a
    result for every bound above the size of the set. *)
Theorem classGen_terminates oracle (names : gset string) :
  (forall symbol, sym_name (oracle symbol) ∈ names) ->
  forall fuel symbol abstract st,
    size names < fuel ->
    exists r st', classGen oracle fuel symbol abstract st = Some (r, st').
Proof.
  intros Hnames fuel symbol abstract st Hfuel.
  destruct (classGen_total oracle names Hnames fuel ∅) with
    (symbol := symbol) (abstract := abstract) (st := st)
    as (r & st' & E & _).
  - replace (names ∖ ∅) with names by set_solver. exact Hfuel.
  - unfold covers. set_solver.
  - eauto.
Qed.

(** ** How a class is built *)

(** A call of [classGen] for a name that is not in the table, and not
    blacklisted: the object is stored, the [try] block runs to a state
    [stk], and then the object is written once more, inited or invalid. *)
Lemma classGen_fresh_run oracle fuel symbol abstract st r st' :
  let sym := oracle symbol in
  let name := sym_name sym in
  let result := newClassGen name abstract in
  classGen oracle (S fuel) symbol abstract st = Some (r, st') ->
  classes st !! name = None ->
  blacklisted "class" name = false ->
  exists stk,
    grows (overwrite st name result) stk
    /\ ((exists e, r = Throw e /\ st' = overwrite stk name (setInvalid result))
        \/ exists inherit st2 l,
             let built := init result inherit (fields l)
                            (constructorsOrDefault inherit l) (methods l) in
             r = Ok built
             /\ st' = overwrite stk name built
             /\ match sym_heritage sym with
                | None => inherit = None /\ st2 = overwrite st name result
                | Some inheritSymbol =>
                    exists parent,
                      inherit = Some parent
                      /\ classGen oracle fuel inheritSymbol false
                           (overwrite st name result)
                         = Some (Ok parent, st2)
                      /\ cg_inited parent = true
                end
             /\ membersLoop (classGen oracle fuel) sym inherit
                  (sym_members sym) noLocals st2
                = Some (Ok l, stk)).
Proof.
  intros sym name result H Hlook Hblack. cbn [classGen] in H.
  unfold classGenBody in H. fold sym name in H.
  unfold bind at 1, getClass in H. rewrite Hlook, Hblack in H.
  unfold bind at 1, setClass in H. fold result in H.
  change {| classes := <[name := result]> (classes st);
            warnings := warnings st |}
    with (overwrite st name result) in H.
  assert (Hst1 : classes (overwrite st name result) !! name = Some result)
    by apply lookup_insert_eq.
  run_try H as c st2 H1 H2.
  - subst r.
    apply (classBody_run oracle _ (classGen_spec oracle fuel)) in H1
      as (stk & G & _ & [(e & E & _)|Hok]); [discriminate|].
    exists stk. split; [exact G|]. right. exact Hok.
  - apply (classBody_run oracle _ (classGen_spec oracle fuel)) in H1
      as (stk & G & _ & [(e' & E & ->)|Hok]).
    + exists stk. split; [exact G|]. left.
      run_bind H2 as u st3 H3 H4;
        rewrite (markInvalid_overwrite _ _ _ (grows_lookup _ _ _ _ G Hst1))
          in H3; [discriminate|].
      injection H3 as _ <-. run_end H4. eauto.
    + destruct Hok as (? & ? & ? & ? & _). discriminate.
Qed.

Lemma classGen_sound oracle fuel symbol abstract :
  sound (classGen oracle fuel symbol abstract).
Proof. apply rec_sound with oracle, classGen_spec. Qed.

Lemma classGen_quiet oracle fuel symbol abstract :
  quiet (classGen oracle fuel symbol abstract).
Proof. apply rec_quiet with oracle, classGen_spec. Qed.

(** Every state the script is in later comes after the present one. *)
Lemma generate_sound oracle fuel scope : sound (generate oracle fuel scope).
Proof.
  unfold generate. generalize (@nil Gen).
  induction scope as [|symbol scope IH]; intros gens; cbn.
  - apply sound_ret.
  - apply sound_bind; [|intros; apply IH].
    unfold symbolStep.
    repeat step_sound;
      auto using classGen_sound, sound_typeGen, sound_functionGen.
Qed.

Lemma Good_initialState building : Good building initialState.
Proof. intros name c H. cbn in H. now rewrite lookup_empty in H. Qed.

(** ** What every computation keeps, and what it throws *)

Lemma keeps_ret {X : Type} I E (x : X) : keeps I E (ret x).
Proof. intros st r st' H. run_end H. split; [auto|discriminate]. Qed.

Lemma keeps_throw {X : Type} I (E : Exn -> Prop) e :
  E e -> keeps I E (@throw X e).
Proof. intros He st r st' H. run_end H. split; [auto|]. now intros ? [= <-]. Qed.

Lemma keeps_warn I E message : stable I -> keeps I E (warn message).
Proof.
  intros HI st r st' H. run_end H. split; [|discriminate].
  apply HI. apply step_warn.
Qed.

Lemma keeps_weaken {X : Type} I (E E' : Exn -> Prop) (m : M X) :
  (forall e, E e -> E' e) -> keeps I E m -> keeps I E' m.
Proof.
  intros HE Hm st r st' H. destruct (Hm _ _ _ H) as [HI Hr].
  split; [exact HI|]. intros e ->. apply HE, Hr. reflexivity.
Qed.

Lemma keeps_bind {X Y : Type} I E (m : M X) (k : X -> M Y) :
  keeps I E m -> (forall x, keeps I E (k x)) -> keeps I E (bind m k).
Proof.
  intros Hm Hk st r st' H. run_bind H as a st1 H1 H2.
  - subst r. destruct (Hm _ _ _ H1) as [HI Hr].
    split; [exact HI|]. intros e0 [= <-]. now apply Hr.
  - destruct (Hm _ _ _ H1) as [HI _]. destruct (Hk _ _ _ _ H2) as [HI' Hr].
    split; [auto|exact Hr].
Qed.

(** The body may throw more than the whole: the handler sees to it. *)
Lemma keeps_tryCatch {X : Type} I (E' E : Exn -> Prop) (body : M X)
    (handler : Exn -> M X) :
  keeps I E' body -> (forall e, E' e -> keeps I E (handler e)) ->
  keeps I E (tryCatch body handler).
Proof.
  intros Hb Hh st r st' H. run_try H as a st1 H1 H2.
  - subst r. destruct (Hb _ _ _ H1) as [HI _].
    split; [exact HI|discriminate].
  - destruct (Hb _ _ _ H1) as [HI Hr].
    destruct (Hh e (Hr e eq_refl) _ _ _ H2) as [HI' Hr'].
    split; [auto|exact Hr'].
Qed.

Lemma keeps_mapM {X Y : Type} I E (f : X -> M Y) (l : list X) :
  (forall x, keeps I E (f x)) -> keeps I E (mapM f l).
Proof.
  intros Hf. induction l as [|x l IH]; cbn; [apply keeps_ret|].
  apply keeps_bind; [apply Hf|]. intros y.
  apply keeps_bind; [exact IH|]. intros ys. apply keeps_ret.
Qed.

(** The functions of the vendor, for any [classGen] that keeps [I] and
    throws nothing outside [R], where [R] holds of every
    [GenConstructFail]. *)
Section Keeps.

Variable I : State -> Prop.
Hypothesis I_stable : stable I.
Variable R : Exn -> Prop.
Hypothesis R_refusal : forall e, refusal e -> R e.
Variable rec : SymId -> bool -> M ClassGen.
Hypothesis rec_keeps :
  forall symbol abstract, keeps I R (rec symbol abstract).

Lemma R_message message : R (GenConstructFail message).
Proof. apply R_refusal. now exists message. Qed.

Ltac step_keeps :=
  first
    [ apply keeps_ret | apply keeps_warn; exact I_stable
    | apply keeps_throw; first [apply R_message | left; apply R_message
                               | right; now eexists]
    | apply keeps_bind | apply keeps_mapM
    | match goal with
      | |- keeps _ _ (if ?b then _ else _) => destruct b
      | |- keeps _ _ (match ?x with _ => _ end) => destruct x
      | |- forall _, keeps _ _ _ => intro
      end ].

Lemma keeps_typeGen tsType : keeps I (orUnusable R) (typeGen rec tsType).
Proof.
  unfold typeGen. repeat step_keeps.
  eapply keeps_weaken; [|apply rec_keeps]. now left.
Qed.

Lemma keeps_paramsGen syms : keeps I (orUnusable R) (paramsGen rec syms).
Proof. unfold paramsGen. repeat step_keeps; apply keeps_typeGen. Qed.

Lemma keeps_signatureGen name callSignature :
  keeps I (orUnusable R) (signatureGen rec name callSignature).
Proof.
  unfold signatureGen. repeat step_keeps;
    auto using keeps_paramsGen, keeps_typeGen.
Qed.

(** The handlers that catch [UnusableType] and throw the rest again. *)
Lemma keeps_handler {X : Type} (onUnusable : TsType -> M X) :
  (forall type, keeps I R (onUnusable type)) ->
  forall e, orUnusable R e ->
    keeps I R (match e with
               | UnusableType type => onUnusable type
               | _ => throw e
               end).
Proof.
  intros H e He. destruct e as [type|message|message]; [apply H| |];
    apply keeps_throw; destruct He as [He|(type & He)];
    first [exact He | discriminate He].
Qed.

Lemma keeps_variableGen sym tsType :
  keeps I R (variableGen rec sym tsType).
Proof.
  unfold variableGen. apply (keeps_tryCatch I (orUnusable R)).
  - repeat step_keeps; apply keeps_typeGen.
  - apply keeps_handler. intros. step_keeps.
Qed.

Lemma keeps_functionLoop sym callSignatures : forall counter result,
  keeps I R (functionLoop rec sym callSignatures counter result).
Proof.
  induction callSignatures as [|callSignature rest IH]; intros; cbn;
    [apply keeps_ret|].
  apply keeps_bind; [|intros; apply IH].
  apply (keeps_tryCatch I (orUnusable R)).
  - apply keeps_bind; [apply keeps_signatureGen|intros; apply keeps_ret].
  - apply keeps_handler. intros. repeat step_keeps.
Qed.

Lemma keeps_functionGen sym : keeps I R (functionGen rec sym).
Proof.
  unfold functionGen. destruct (blacklisted "variable" (sym_name sym));
    [step_keeps|apply keeps_functionLoop].
Qed.

Lemma keeps_constructorLoop name declarations : forall l,
  keeps I R (constructorLoop rec name declarations l).
Proof.
  induction declarations as [|declaration rest IH]; intros; cbn;
    [apply keeps_ret|].
  apply keeps_bind; [|intros; apply IH].
  apply (keeps_tryCatch I (orUnusable R)).
  - apply keeps_bind; [apply keeps_paramsGen|intros; apply keeps_ret].
  - apply keeps_handler. intros. repeat step_keeps.
Qed.

Lemma keeps_methodLoop sym member callSignatures : forall counter ms,
  keeps I R (methodLoop rec sym member callSignatures counter ms).
Proof.
  induction callSignatures as [|callSignature rest IH]; intros; cbn;
    [apply keeps_ret|].
  apply keeps_bind; [|intros; apply IH].
  apply (keeps_tryCatch I (orUnusable R)).
  - apply keeps_bind; [apply keeps_signatureGen|intros; apply keeps_ret].
  - apply keeps_handler. intros. repeat step_keeps.
Qed.

Lemma keeps_memberStep sym inherit member l :
  keeps I R (memberStep rec sym inherit member l).
Proof.
  unfold memberStep.
  destruct (fl_Constructor (mem_flags member)); [apply keeps_constructorLoop|].
  destruct (fl_Property (mem_flags member)).
  - apply (keeps_tryCatch I (orUnusable R)).
    + repeat step_keeps; apply keeps_typeGen.
    + apply keeps_handler. intros. repeat step_keeps.
  - destruct (fl_Method (mem_flags member)); [|repeat step_keeps].
    destruct (blacklisted "field" (sym_name sym +:+ "." +:+ mem_name member));
      [repeat step_keeps|].
    apply keeps_bind; [apply keeps_methodLoop|intros; apply keeps_ret].
Qed.

Lemma keeps_membersLoop sym inherit members : forall l,
  keeps I R (membersLoop rec sym inherit members l).
Proof.
  induction members as [|member rest IH]; intros; cbn; [apply keeps_ret|].
  apply keeps_bind; [apply keeps_memberStep|intros; apply IH].
Qed.

End Keeps.

(** [classGen] itself, and the loop over the symbols in scope: [R] also
    holds of the error of a heritage expression without symbol, if the
    oracle has one. *)
Section KeepsClassGen.

Variable oracle : Oracle.
Variable I : State -> Prop.
Hypothesis I_stable : stable I.
Variable R : Exn -> Prop.
Hypothesis R_refusal : forall e, refusal e -> R e.
Hypothesis R_unresolved :
  forall symbol, sym_heritageClauses (oracle symbol) = Some None ->
    R (JsError "Cannot read property 'name' of undefined").

Lemma keeps_classGen fuel : forall symbol abstract,
  keeps I R (classGen oracle fuel symbol abstract).
Proof.
  induction fuel as [|fuel IH]; intros symbol abstract st r st' H;
    [discriminate|].
  cbn [classGen] in H. unfold classGenBody in H.
  set (sym := oracle symbol) in *. set (name := sym_name sym) in *.
  unfold bind at 1, getClass in H.
  destruct (classes st !! name) as [already|] eqn:Hlook.
  { destruct (cg_invalid already); run_end H; (split; [auto|]).
    - intros e [= <-]. apply R_refusal. now eexists.
    - discriminate. }
  destruct (blacklisted "class" name) eqn:Hblack.
  { run_end H. split; [auto|]. intros e [= <-]. apply R_refusal. now eexists. }
  unfold bind at 1, setClass in H.
  change {| classes := <[name := newClassGen name abstract]> (classes st);
            warnings := warnings st |}
    with (overwrite st name (newClassGen name abstract)) in H.
  set (result := newClassGen name abstract) in *.
  set (st1 := overwrite st name result) in *.
  assert (Hst1 : classes st1 !! name = Some result) by apply lookup_insert_eq.
  assert (I1 : I st -> I st1).
  { apply I_stable. now apply step_new. }
  (* the [try] block, up to the state before its last write *)
  assert (Hbody : forall r0 stk,
            classBody oracle (classGen oracle fuel) sym result st1
            = Some (r0, stk) ->
            exists stk0,
              grows st1 stk0 /\ (I st1 -> I stk0)
              /\ match r0 with
                 | Throw e => stk = stk0 /\ R e
                 | Ok c =>
                     exists inherit fs cs ms,
                       c = init result inherit fs cs ms
                       /\ stk = overwrite stk0 name c
                 end).
  { intros r0 stk Hb. unfold classBody in Hb. fold name in Hb.
    match type of Hb with
    | bind ?m _ _ = _ =>
        assert (Kp : keeps I R m);
        [|assert (Sp : sound m)
            by (repeat step_sound; apply classGen_sound)]
    end.
    { destruct (sym_heritageClauses sym) as [[p|]|] eqn:Hcl.
      - apply keeps_bind; [apply IH|]. intros parent.
        destruct (negb (cg_inited parent));
          [apply keeps_throw, R_refusal; now eexists | apply keeps_ret].
      - apply keeps_throw. now apply (R_unresolved symbol).
      - apply keeps_ret. }
    run_bind Hb as inherit st2 Hp Hb.
    - subst r0. destruct (Kp _ _ _ Hp) as [Ip Rp].
      destruct (Sp _ _ _ Hp) as [Gp _].
      exists stk. split; [exact Gp|]. split; [exact Ip|].
      split; [reflexivity | now apply Rp].
    - destruct (Kp _ _ _ Hp) as [Ip _]. destruct (Sp _ _ _ Hp) as [Gp _].
      assert (Km : keeps I R (membersLoop (classGen oracle fuel) sym inherit
                                (sym_members sym) noLocals))
        by (apply keeps_membersLoop; auto).
      run_bind Hb as l stk0 Hm Hb.
      + subst r0. destruct (Km _ _ _ Hm) as [Im Rm].
        destruct (sound_membersLoop _ (classGen_sound oracle fuel)
                    _ _ _ _ _ _ _ Hm) as [Gm _].
        exists stk. split; [eapply grows_trans; eassumption|].
        split; [auto|]. split; [reflexivity | now apply Rm].
      + destruct (Km _ _ _ Hm) as [Im _].
        destruct (sound_membersLoop _ (classGen_sound oracle fuel)
                    _ _ _ _ _ _ _ Hm) as [Gm _].
        unfold bind, setClass, ret in Hb. injection Hb as <- <-.
        exists stk0. split; [eapply grows_trans; eassumption|].
        split; [auto|]. eexists _, _, _, _. split; reflexivity. }
  run_try H as c st2 H1 H2.
  - subst r.
    destruct (Hbody _ _ H1)
      as (stk0 & G & Ik & inherit & fs & cs & ms & -> & ->).
    split; [|discriminate]. intros Ist.
    apply (I_stable stk0); [|auto]. apply step_init.
    split; [eapply grows_lookup; eassumption | split; reflexivity].
  - destruct (Hbody _ _ H1) as (stk0 & G & Ik & -> & Re).
    run_bind H2 as u st3 H3 H4;
      rewrite (markInvalid_overwrite _ _ _ (grows_lookup _ _ _ _ G Hst1))
        in H3; [discriminate|].
    injection H3 as _ <-. run_end H4. split.
    + intros Ist. apply (I_stable stk0); [|auto]. apply step_invalid.
      split; [eapply grows_lookup; eassumption | split; reflexivity].
    + intros e0 [= <-]. exact Re.
Qed.

(** One turn of the loop over the symbols in scope: it catches every
    [GenConstructFail]. *)
Lemma keeps_symbolStep (E : Exn -> Prop) fuel symbol gens :
  (forall e, R e -> refusal e \/ E e) ->
  (fl_Class (sym_flags (oracle symbol)) = true ->
   ty_symbol (sym_type (oracle symbol)) = None ->
   E (JsError "Cannot read property 'name' of undefined")) ->
  keeps I E (symbolStep oracle fuel symbol gens).
Proof.
  intros HR Hty. unfold symbolStep.
  apply (keeps_tryCatch I (fun e => refusal e \/ E e)).
  - assert (Hweak : forall X (m : M X),
              keeps I R m -> keeps I (fun e => refusal e \/ E e) m).
    { intros X m. apply keeps_weaken. exact HR. }
    assert (Hret : forall l : list Gen,
              keeps I (fun e => refusal e \/ E e) (ret l))
      by (intros; apply keeps_ret).
    destruct (fl_Class _).
    { destruct (ty_symbol _); [|apply keeps_throw; right; now apply Hty].
      apply keeps_bind; [apply Hweak, keeps_classGen|auto]. }
    destruct (fl_Interface _).
    { apply keeps_bind; [apply Hweak, keeps_classGen|auto]. }
    destruct (_ || _).
    { apply keeps_bind; [|auto].
      apply Hweak, keeps_variableGen; auto using keeps_classGen. }
    destruct (fl_Function _).
    { apply keeps_bind; [|auto].
      apply Hweak, keeps_functionGen; auto using keeps_classGen. }
    apply keeps_bind; [now apply keeps_warn|auto].
  - intros e He.
    destruct e as [type|message|message];
      [| apply keeps_bind; [now apply keeps_warn | intros; apply keeps_ret] |];
      apply keeps_throw; destruct He as [(m & He)|He];
      first [discriminate He | exact He].
Qed.

Lemma keeps_symbolsLoop (E : Exn -> Prop) fuel scope :
  (forall symbol gens, In symbol scope ->
     keeps I E (symbolStep oracle fuel symbol gens)) ->
  forall gens, keeps I E (symbolsLoop oracle fuel scope gens).
Proof.
  induction scope as [|symbol scope IH]; intros Hstep gens; cbn;
    [apply keeps_ret|].
  apply keeps_bind; [apply Hstep; now left|].
  intros gens'. apply IH. intros; apply Hstep. now right.
Qed.

End KeepsClassGen.

Lemma allowed_stable : stable allowed.
Proof.
  intros st st' Hstep H. destruct Hstep as
    [st message|st name abstract Hnone Hb|st name this inherit fs cs ms Hc
    |st name this Hc]; intros n c; cbn.
  - apply H.
  - destruct (decide (n = name)) as [->|Hn]; [auto|].
    rewrite lookup_insert_ne by congruence. apply H.
  - destruct (decide (n = name)) as [->|Hn];
      [intros _; exact (H _ _ (proj1 Hc))|].
    rewrite lookup_insert_ne by congruence. apply H.
  - destruct (decide (n = name)) as [->|Hn];
      [intros _; exact (H _ _ (proj1 Hc))|].
    rewrite lookup_insert_ne by congruence. apply H.
Qed.

Lemma escapes_refusal e : refusal e -> escapes e.
Proof. now left. Qed.

Lemma escapes_fatal : escapes (JsError "Cannot read property 'name' of undefined").
Proof. now right. Qed.

(** Whatever the oracle, [classGen] throws nothing but refusals and the
    fatal error, and the loop over the symbols in scope nothing but the
    fatal error. *)
Lemma classGen_keeps oracle I fuel symbol abstract :
  stable I -> keeps I escapes (classGen oracle fuel symbol abstract).
Proof.
  intros HI. apply keeps_classGen;
    auto using escapes_refusal, escapes_fatal.
Qed.

Lemma symbolStep_keeps oracle I fuel symbol gens :
  stable I -> keeps I fatal (symbolStep oracle fuel symbol gens).
Proof.
  intros HI. apply keeps_symbolStep with (R := escapes);
    auto using escapes_refusal, escapes_fatal.
  intros; reflexivity.
Qed.

Lemma generate_keeps oracle I fuel scope :
  stable I -> keeps I fatal (generate oracle fuel scope).
Proof.
  intros HI. apply keeps_symbolsLoop. intros symbol gens _.
  now apply symbolStep_keeps.
Qed.

(** When every heritage expression resolves, [classGen] throws nothing
    but refusals; and when moreover the type of every class symbol in scope
    has a symbol, the loop over the symbols in scope throws nothing. *)
Lemma classGen_keeps_resolved oracle I fuel symbol abstract :
  stable I -> resolved oracle ->
  keeps I refusal (classGen oracle fuel symbol abstract).
Proof.
  intros HI Hres. apply keeps_classGen; auto.
  intros s Hs. now destruct (Hres s).
Qed.

Lemma generate_keeps_resolved oracle I fuel scope :
  stable I -> resolved oracle -> wellTyped oracle scope ->
  keeps I never (generate oracle fuel scope).
Proof.
  intros HI Hres Hty. apply keeps_symbolsLoop. intros symbol gens Hin.
  apply keeps_symbolStep with (R := refusal); auto.
  - intros s Hs. now destruct (Hres s).
  - intros Hc Hn. now destruct (Hty symbol Hin Hc).
Qed.

(** ** Later states *)

Lemma reaches_stable st0 : stable (reaches st0).
Proof. intros st st' Hstep H. eapply rtc_r; eassumption. Qed.

(** Every call of [classGen], and the whole loop over the symbols in scope,
    ends in a state that [reaches] describes. *)
Lemma classGen_reaches oracle fuel symbol abstract st0 st r st' :
  reaches st0 st ->
  classGen oracle fuel symbol abstract st = Some (r, st') -> reaches st0 st'.
Proof.
  intros H0 H.
  now apply (classGen_keeps oracle (reaches st0) fuel symbol abstract
               (reaches_stable st0) _ _ _ H).
Qed.

Lemma generate_reaches oracle fuel scope st0 st r st' :
  reaches st0 st ->
  generate oracle fuel scope st = Some (r, st') -> reaches st0 st'.
Proof.
  intros H0 H.
  now apply (generate_keeps oracle (reaches st0) fuel scope
               (reaches_stable st0) _ _ _ H).
Qed.

(** An object that is inited or invalid is never written again. *)
Lemma step_settled st st' name c :
  step st st' -> classes st !! name = Some c ->
  cg_inited c = true \/ cg_invalid c = true ->
  classes st' !! name = Some c.
Proof.
  intros Hstep Hc Hdone.
  assert (Hother : forall n this, underConstruction st n this -> n <> name).
  { intros n this (Hn & Hi & Hv) ->. rewrite Hc in Hn. injection Hn as ->.
    destruct Hdone; congruence. }
  destruct Hstep as
    [st message|st n abstract Hnone Hb|st n this inherit fs cs ms Hn
    |st n this Hn]; cbn.
  - exact Hc.
  - rewrite lookup_insert_ne; [exact Hc|]. intros ->. congruence.
  - rewrite lookup_insert_ne; [exact Hc|]. eapply Hother, Hn.
  - rewrite lookup_insert_ne; [exact Hc|]. eapply Hother, Hn.
Qed.

Lemma reaches_settled st st' name c :
  reaches st st' -> classes st !! name = Some c ->
  cg_inited c = true \/ cg_invalid c = true ->
  classes st' !! name = Some c.
Proof.
  intros Hreach. induction Hreach as [st|st st1 st' Hstep _ IH];
    [auto|].
  intros Hc Hdone. apply IH; [|exact Hdone].
  eapply step_settled; eassumption.
Qed.

(** The calls of [classGen] inside a computation are made in later
    states only: a function that agrees with [classGen] on the states in
    [P] can take its place. *)
Lemma follows_ret {X : Type} P (x : X) : follows P (ret x) (ret x).
Proof. intros st Hst. split; [reflexivity|]. intros r st' H. now run_end H. Qed.

Lemma follows_throw {X : Type} P e : follows P (@throw X e) (throw e).
Proof. intros st Hst. split; [reflexivity|]. intros r st' H. now run_end H. Qed.

Lemma follows_warn P message :
  stable P -> follows P (warn message) (warn message).
Proof.
  intros HP st Hst. split; [reflexivity|]. intros r st' H. run_end H.
  apply (HP st); [apply step_warn | exact Hst].
Qed.

Lemma follows_bind {X Y : Type} P (m m' : M X) (k k' : X -> M Y) :
  follows P m m' -> (forall x, follows P (k x) (k' x)) ->
  follows P (bind m k) (bind m' k').
Proof.
  intros Hm Hk st Hst. destruct (Hm st Hst) as [E Hend]. unfold bind.
  rewrite E. destruct (m st) as [[[x|e] st1]|].
  - destruct (Hk x st1 (Hend _ _ eq_refl)) as [E1 Hend1]. auto.
  - split; [reflexivity|]. intros r st' [= <- <-]. now apply (Hend _ _ eq_refl).
  - split; [reflexivity|discriminate].
Qed.

Lemma follows_tryCatch {X : Type} P (body body' : M X)
    (handler handler' : Exn -> M X) :
  follows P body body' -> (forall e, follows P (handler e) (handler' e)) ->
  follows P (tryCatch body handler) (tryCatch body' handler').
Proof.
  intros Hm Hk st Hst. destruct (Hm st Hst) as [E Hend]. unfold tryCatch.
  rewrite E. destruct (body st) as [[[x|e] st1]|].
  - split; [reflexivity|]. intros r st' [= <- <-]. now apply (Hend _ _ eq_refl).
  - destruct (Hk e st1 (Hend _ _ eq_refl)) as [E1 Hend1]. auto.
  - split; [reflexivity|discriminate].
Qed.

Lemma follows_mapM {X Y : Type} P (f f' : X -> M Y) (l : list X) :
  (forall x, follows P (f x) (f' x)) -> follows P (mapM f l) (mapM f' l).
Proof.
  intros Hf. induction l as [|x l IH]; cbn; [apply follows_ret|].
  apply follows_bind; [apply Hf|]. intros y.
  apply follows_bind; [exact IH|]. intros ys. apply follows_ret.
Qed.

Section Follows.

Variable P : State -> Prop.
Hypothesis P_stable : stable P.
Variables rec rec' : SymId -> bool -> M ClassGen.
Hypothesis rec_follows :
  forall symbol abstract, follows P (rec symbol abstract) (rec' symbol abstract).

Ltac step_follows :=
  first
    [ apply follows_ret | apply follows_throw
    | apply follows_warn; exact P_stable
    | apply rec_follows
    | apply follows_bind | apply follows_tryCatch | apply follows_mapM
    | match goal with
      | |- follows _ (if ?b then _ else _) _ => destruct b
      | |- follows _ (match ?x with _ => _ end) _ => destruct x
      | |- forall _, follows _ _ _ => intro
      end ].

Lemma follows_typeGen tsType :
  follows P (typeGen rec tsType) (typeGen rec' tsType).
Proof. unfold typeGen. repeat step_follows. Qed.

Lemma follows_paramsGen syms :
  follows P (paramsGen rec syms) (paramsGen rec' syms).
Proof.
  unfold paramsGen. apply follows_mapM. intros sym.
  apply follows_bind; [apply follows_typeGen|]. intros. apply follows_ret.
Qed.

Lemma follows_signatureGen name callSignature :
  follows P (signatureGen rec name callSignature)
    (signatureGen rec' name callSignature).
Proof.
  unfold signatureGen. apply follows_bind; [apply follows_paramsGen|].
  intros ps. apply follows_bind; [apply follows_typeGen|].
  intros. apply follows_ret.
Qed.

Lemma follows_variableGen sym tsType :
  follows P (variableGen rec sym tsType) (variableGen rec' sym tsType).
Proof.
  unfold variableGen. apply follows_tryCatch; [|repeat step_follows].
  destruct (blacklisted "variable" (sym_name sym)); [apply follows_throw|].
  apply follows_bind; [apply follows_typeGen|]. intros. apply follows_ret.
Qed.

Lemma follows_functionLoop sym callSignatures : forall counter result,
  follows P (functionLoop rec sym callSignatures counter result)
    (functionLoop rec' sym callSignatures counter result).
Proof.
  induction callSignatures as [|callSignature rest IH]; intros; cbn;
    [apply follows_ret|].
  apply follows_bind; [|intros; apply IH].
  apply follows_tryCatch; [|repeat step_follows].
  apply follows_bind; [apply follows_signatureGen|].
  intros. apply follows_ret.
Qed.

Lemma follows_functionGen sym :
  follows P (functionGen rec sym) (functionGen rec' sym).
Proof.
  unfold functionGen. destruct (blacklisted "variable" (sym_name sym));
    [apply follows_throw|apply follows_functionLoop].
Qed.

Lemma follows_constructorLoop name declarations : forall l,
  follows P (constructorLoop rec name declarations l)
    (constructorLoop rec' name declarations l).
Proof.
  induction declarations as [|declaration rest IH]; intros; cbn;
    [apply follows_ret|].
  apply follows_bind; [|intros; apply IH].
  apply follows_tryCatch; [|repeat step_follows].
  apply follows_bind; [apply follows_paramsGen|].
  intros. apply follows_ret.
Qed.

Lemma follows_methodLoop sym member callSignatures : forall counter ms,
  follows P (methodLoop rec sym member callSignatures counter ms)
    (methodLoop rec' sym member callSignatures counter ms).
Proof.
  induction callSignatures as [|callSignature rest IH]; intros; cbn;
    [apply follows_ret|].
  apply follows_bind; [|intros; apply IH].
  apply follows_tryCatch; [|repeat step_follows].
  apply follows_bind; [apply follows_signatureGen|].
  intros. apply follows_ret.
Qed.

Lemma follows_memberStep sym inherit member l :
  follows P (memberStep rec sym inherit member l)
    (memberStep rec' sym inherit member l).
Proof.
  unfold memberStep.
  destruct (fl_Constructor (mem_flags member));
    [apply follows_constructorLoop|].
  destruct (fl_Property (mem_flags member)).
  - apply follows_tryCatch; [|repeat step_follows].
    destruct (blacklisted "field" _); [repeat step_follows|].
    destruct (negb _); [|apply follows_ret].
    apply follows_bind; [apply follows_typeGen|]. intros. apply follows_ret.
  - destruct (fl_Method (mem_flags member)); [|repeat step_follows].
    destruct (blacklisted "field" _); [repeat step_follows|].
    apply follows_bind; [apply follows_methodLoop|]. intros. apply follows_ret.
Qed.

Lemma follows_membersLoop sym inherit members : forall l,
  follows P (membersLoop rec sym inherit members l)
    (membersLoop rec' sym inherit members l).
Proof.
  induction members as [|member rest IH]; intros; cbn; [apply follows_ret|].
  apply follows_bind; [apply follows_memberStep|intros; apply IH].
Qed.

End Follows.

Lemma bind_agree {X Y : Type} (m m' : M X) (k k' : X -> M Y) st :
  m' st = m st ->
  (forall x st1, m st = Some (Ok x, st1) -> k' x st1 = k x st1) ->
  bind m' k' st = bind m k st.
Proof.
  intros E Hk. unfold bind. rewrite E.
  destruct (m st) as [[[x|e] st1]|]; auto.
Qed.

Lemma tryCatch_agree {X : Type} (body body' : M X) (handler : Exn -> M X) st :
  body' st = body st -> tryCatch body' handler st = tryCatch body handler st.
Proof. intros E. unfold tryCatch. now rewrite E. Qed.

(** A call of [classGen] in a state reached from [st0] calls [classGen]
    again in such states only. *)
Lemma classGen_calls_later oracle st0 fuel
    (rec' : SymId -> bool -> M ClassGen) :
  (forall symbol abstract st,
     reaches st0 st ->
     rec' symbol abstract st = classGen oracle fuel symbol abstract st) ->
  forall symbol abstract st,
    reaches st0 st ->
    classGenBody oracle rec' symbol abstract st
    = classGen oracle (S fuel) symbol abstract st.
Proof.
  intros Hrec symbol abstract st Hst.
  assert (Hfollows : forall s a,
            follows (reaches st0) (classGen oracle fuel s a) (rec' s a)).
  { intros s a st1 Hst1. split; [now apply Hrec|].
    intros r st2. now apply classGen_reaches. }
  cbn [classGen]. unfold classGenBody.
  set (sym := oracle symbol). set (name := sym_name sym).
  apply bind_agree; [reflexivity|].
  intros already st1 Hget. unfold getClass in Hget. injection Hget as <- <-.
  destruct (classes st !! name) as [already|] eqn:Hlook; [reflexivity|].
  destruct (blacklisted "class" name) eqn:Hblack; [reflexivity|].
  apply bind_agree; [reflexivity|].
  intros u st1 Hset. unfold setClass in Hset. injection Hset as _ <-.
  change {| classes := <[name := newClassGen name abstract]> (classes st);
            warnings := warnings st |}
    with (overwrite st name (newClassGen name abstract)).
  assert (Hst1 : reaches st0 (overwrite st name (newClassGen name abstract))).
  { eapply rtc_r; [exact Hst|]. now apply step_new. }
  apply tryCatch_agree. unfold classBody.
  match goal with
  | |- bind ?m' _ _ = bind ?m _ _ =>
      assert (Hparent : follows (reaches st0) m m')
  end.
  { destruct (sym_heritageClauses sym) as [[p|]|];
      [|apply follows_throw|apply follows_ret].
    apply follows_bind; [apply Hfollows|]. intros parent.
    destruct (negb (cg_inited parent));
      [apply follows_throw|apply follows_ret]. }
  destruct (Hparent _ Hst1) as [E Hend].
  apply bind_agree; [exact E|].
  intros inherit st2 Hrun.
  apply bind_agree; [|reflexivity].
  now apply (follows_membersLoop (reaches st0) (reaches_stable st0) _ _
               Hfollows sym inherit (sym_members sym) noLocals st2
               (Hend _ _ Hrun)).
Qed.

(** So it is for [typeGen], [variableGen] and [functionGen]. *)
Lemma vendor_calls_later oracle st0 fuel
    (rec' : SymId -> bool -> M ClassGen) :
  (forall symbol abstract st,
     reaches st0 st ->
     rec' symbol abstract st = classGen oracle fuel symbol abstract st) ->
  forall st,
    reaches st0 st ->
    (forall tsType,
       typeGen rec' tsType st = typeGen (classGen oracle fuel) tsType st)
    /\ (forall sym tsType,
          variableGen rec' sym tsType st
          = variableGen (classGen oracle fuel) sym tsType st)
    /\ (forall sym,
          functionGen rec' sym st = functionGen (classGen oracle fuel) sym st).
Proof.
  intros Hrec st Hst.
  assert (Hfollows : forall s a,
            follows (reaches st0) (classGen oracle fuel s a) (rec' s a)).
  { intros s a st1 Hst1. split; [now apply Hrec|].
    intros r st2. now apply classGen_reaches. }
  split; [|split].
  - intros tsType.
    now apply (follows_typeGen (reaches st0) _ _ Hfollows tsType st Hst).
  - intros sym tsType.
    now apply (follows_variableGen (reaches st0) _ _ Hfollows sym tsType
                 st Hst).
  - intros sym.
    now apply (follows_functionGen (reaches st0) (reaches_stable st0) _ _
                 Hfollows sym st Hst).
Qed.

(** ** A class whose construction has failed *)

(** C8: when the construction of a class fails (the name was not in the
    table and not blacklisted, so that an object was created), the object
    is in the table afterwards, invalid and not inited; it stays there
    unchanged in every later state of the script, whether or not other
    classes were under construction when it failed, and in every such
    state a call of [classGen] for a symbol of that name throws "Tried to
    reuse unbuildable type" at once, without touching the state.  The
    later states are those that [reaches] describes; the states at the end
    of every later call of [classGen], and of the loop over the symbols in
    scope, are among them, and a later call of [classGen] calls itself in
    later states only (a function that agrees with [classGen] on the later
    states can take its place). *)
Theorem failed_class_stays_invalid oracle fuel symbol abstract st e st' :
  classGen oracle fuel symbol abstract st = Some (Throw e, st') ->
  classes st !! sym_name (oracle symbol) = None ->
  blacklisted "class" (sym_name (oracle symbol)) = false ->
  exists c,
    classes st' !! sym_name (oracle symbol) = Some c
    /\ cg_invalid c = true /\ cg_inited c = false
    /\ (forall st'',
          reaches st' st'' ->
          classes st'' !! sym_name (oracle symbol) = Some c
          /\ forall fuel' symbol' abstract',
               sym_name (oracle symbol') = sym_name (oracle symbol) ->
               classGen oracle (S fuel') symbol' abstract' st''
               = Some (Throw (GenConstructFail
                                "Tried to reuse unbuildable type"), st''))
    /\ (forall st1 fuel' symbol' abstract' r st2,
          reaches st' st1 ->
          classGen oracle fuel' symbol' abstract' st1 = Some (r, st2) ->
          reaches st' st2)
    /\ (forall st1 fuel' scope r st2,
          reaches st' st1 ->
          generate oracle fuel' scope st1 = Some (r, st2) ->
          reaches st' st2)
    /\ (forall fuel' (rec' : SymId -> bool -> M ClassGen),
          (forall symbol' abstract' st1,
             reaches st' st1 ->
             rec' symbol' abstract' st1
             = classGen oracle fuel' symbol' abstract' st1) ->
          forall symbol' abstract' st1,
            reaches st' st1 ->
            classGenBody oracle rec' symbol' abstract' st1
            = classGen oracle (S fuel') symbol' abstract' st1).
Proof.
  intros H Hlook Hblack. destruct fuel as [|fuel]; [discriminate|].
  destruct (classGen_fresh_run _ _ _ _ _ _ _ H Hlook Hblack)
    as (stk & _ & [(e' & _ & ->)|Hok]).
  2:{ destruct Hok as (? & ? & ? & ? & _). discriminate. }
  eexists. split; [apply lookup_insert_eq|]. split; [reflexivity|].
  split; [reflexivity|]. split; [|split; [|split]].
  - intros st'' Hlater.
    assert (Hthere : classes st'' !! sym_name (oracle symbol)
                     = Some (setInvalid (newClassGen (sym_name (oracle symbol))
                                           abstract))).
    { eapply reaches_settled;
        [exact Hlater | apply lookup_insert_eq | now right]. }
    split; [exact Hthere|].
    intros fuel' symbol' abstract' Hname. cbn [classGen]. unfold classGenBody.
    unfold bind, getClass. rewrite Hname, Hthere. reflexivity.
  - intros st1 fuel' symbol' abstract' r st2 Hreach Hrun.
    eapply classGen_reaches; eassumption.
  - intros st1 fuel' scope r st2 Hreach Hrun.
    eapply generate_reaches; eassumption.
  - intros fuel' rec' Hrec symbol' abstract' st1 Hreach.
    now apply (classGen_calls_later oracle _ fuel' rec' Hrec).
Qed.

(** A run for [failed_class_stays_invalid]: in [class A extends B] and
    [class B extends A], the construction of [B] fails while [A] is under
    construction; then that of [A] fails; in the state after both, a call
    for [B] is refused. *)
Lemma failed_class_stays_invalid_witness :
  let stA := overwrite initialState "A" (newClassGen "A" false) in
  exists e st',
    classGen oracleLoop 2 1 false stA = Some (Throw e, st')
    /\ classes stA !! sym_name (oracleLoop 1) = None
    /\ blacklisted "class" (sym_name (oracleLoop 1)) = false
    /\ (exists c,
          classes st' !! sym_name (oracleLoop 1) = Some c
          /\ cg_invalid c = true /\ cg_inited c = false
          /\ forall st'',
               reaches st' st'' ->
               classes st'' !! sym_name (oracleLoop 1) = Some c
               /\ forall fuel' symbol' abstract',
                    sym_name (oracleLoop symbol') = sym_name (oracleLoop 1) ->
                    classGen oracleLoop (S fuel') symbol' abstract' st''
                    = Some (Throw (GenConstructFail
                                     "Tried to reuse unbuildable type"), st''))
    /\ exists e' stEnd,
         classGen oracleLoop 3 0 false initialState = Some (Throw e', stEnd)
         /\ reaches st' stEnd
         /\ classGen oracleLoop 1 1 false stEnd
            = Some (Throw (GenConstructFail
                             "Tried to reuse unbuildable type"), stEnd).
Proof.
  intros stA.
  assert (Hrun : classGen oracleLoop 2 1 false stA
                 = Some (Throw (GenConstructFail
                                  "B is mutually recursive with its ancestor A in a confusing way"),
                         overwrite stA "B" (setInvalid (newClassGen "B" false))))
    by (vm_compute; reflexivity).
  assert (Hend : classGen oracleLoop 3 0 false initialState
                 = Some (Throw (GenConstructFail
                                  "B is mutually recursive with its ancestor A in a confusing way"),
                         overwrite
                           (overwrite stA "B"
                              (setInvalid (newClassGen "B" false)))
                           "A" (setInvalid (newClassGen "A" false))))
    by (vm_compute; reflexivity).
  assert (Hreach : reaches
                     (overwrite stA "B" (setInvalid (newClassGen "B" false)))
                     (overwrite
                        (overwrite stA "B"
                           (setInvalid (newClassGen "B" false)))
                        "A" (setInvalid (newClassGen "A" false)))).
  { apply rtc_once, step_invalid.
    split; [reflexivity | split; reflexivity]. }
  destruct (failed_class_stays_invalid oracleLoop 2 1 false stA _ _ Hrun
              eq_refl eq_refl)
    as (c & Hc & Hinvalid & Hinited & Hlater & _).
  eexists. eexists. split; [exact Hrun|].
  split; [reflexivity|]. split; [reflexivity|]. split.
  - exists c. auto.
  - eexists. eexists. split; [exact Hend|]. split; [exact Hreach|].
    apply (proj2 (Hlater _ Hreach) 0 1 false). reflexivity.
Defined.

(** The failed construction of [A] in [class A extends B] and
    [class B extends A], and the next reference to [A]. *)
Example reuse_of_invalid_class :
  exists st,
    classGen oracleLoop 3 0 false initialState
    = Some (Throw (GenConstructFail
                     "B is mutually recursive with its ancestor A in a confusing way"),
            st)
    /\ classGen oracleLoop 3 0 false st
       = Some (Throw (GenConstructFail "Tried to reuse unbuildable type"), st).
Proof. eexists. split; vm_compute; reflexivity. Qed.

(** ** A class that is referenced while it is built *)

Lemma classGen_under_construction oracle fuel symbol abstract st c :
  underConstruction st (sym_name (oracle symbol)) c ->
  classGen oracle (S fuel) symbol abstract st = Some (Ok c, st).
Proof.
  intros (Hc & _ & Hinv). cbn [classGen]. unfold classGenBody, bind, getClass.
  now rewrite Hc, Hinv.
Qed.

(** C7 fails for [class Node { next: Node }]: while [Node] is under
    construction, the reference to it from its field gives back the object
    and throws nothing, and the construction of [Node] succeeds. *)
Lemma reference_while_building_succeeds :
  typeGen (classGen oracleSelf 1) (classTy 0 "Node")
    (overwrite initialState "Node" (newClassGen "Node" false))
  = Some (Ok (ClassType "Node"),
          overwrite initialState "Node" (newClassGen "Node" false))
  /\ classGen oracleSelf 2 0 false initialState
     = Some (Ok nodeClass, overwrite initialState "Node" nodeClass)
  /\ ~ referenceWhileBuildingFails oracleSelf.
Proof.
  split; [reflexivity|]. split; [vm_compute; reflexivity|].
  intros H.
  destruct (H 0 0 false (overwrite initialState "Node" (newClassGen "Node" false))
              (newClassGen "Node" false))
    as (e & st' & E).
  - split; [reflexivity | split; reflexivity].
  - rewrite (classGen_under_construction _ _ _ _ _ (newClassGen "Node" false))
      in E; [discriminate|].
    split; [reflexivity | split; reflexivity].
Qed.

(** C7, as amended: (1) when the declared parent of a class that is about
    to be built is itself under construction (or is the class itself), the
    call throws the error "... is mutually recursive with its ancestor ...",
    and leaves the class invalid; (2) any other reference to a class under
    construction gives back its object, and changes nothing; (3) whenever
    the names of all symbols lie in a finite set, [classGen] gives a result
    for every bound above the size of that set: it does not loop. *)
Theorem parent_under_construction_fails oracle :
  (forall fuel symbol abstract st inheritSymbol,
     let name := sym_name (oracle symbol) in
     let inheritName := sym_name (oracle inheritSymbol) in
     classes st !! name = None ->
     blacklisted "class" name = false ->
     sym_heritage (oracle symbol) = Some inheritSymbol ->
     (inheritName = name \/ exists c, underConstruction st inheritName c) ->
     classGen oracle (S (S fuel)) symbol abstract st
     = Some (Throw (GenConstructFail
                      (name +:+ " is mutually recursive with its ancestor "
                       +:+ inheritName +:+ " in a confusing way")),
             overwrite st name (setInvalid (newClassGen name abstract))))
  /\ (forall fuel symbol abstract st c,
        underConstruction st (sym_name (oracle symbol)) c ->
        classGen oracle (S fuel) symbol abstract st = Some (Ok c, st))
  /\ (forall names : gset string,
        (forall symbol, sym_name (oracle symbol) ∈ names) ->
        forall fuel symbol abstract st,
          size names < fuel ->
          exists r st', classGen oracle fuel symbol abstract st = Some (r, st')).
Proof.
  split; [|split].
  - intros fuel symbol abstract st inheritSymbol name inheritName
      Hlook Hblack Hher Hparent.
    set (result := newClassGen name abstract).
    set (st1 := overwrite st name result).
    assert (Hrec : exists parent,
              classGen oracle (S fuel) inheritSymbol false st1
              = Some (Ok parent, st1) /\ cg_inited parent = false).
    { destruct Hparent as [E|(c & Hc & Hi & Hv)].
      - exists result. split; [|reflexivity].
        apply classGen_under_construction. fold inheritName. rewrite E.
        split; [apply lookup_insert_eq | split; reflexivity].
      - exists c. split; [|exact Hi].
        apply classGen_under_construction. fold inheritName.
        split; [|split; assumption]. unfold st1, overwrite. cbn.
        rewrite lookup_insert_ne; [exact Hc|]. intros E.
        rewrite <- E in Hc. congruence. }
    destruct Hrec as (parent & Hrec & Hinit).
    change (classGen oracle (S (S fuel)) symbol abstract st)
      with (classGenBody oracle (classGen oracle (S fuel)) symbol abstract st).
    unfold classGenBody. fold name. unfold bind at 1, getClass.
    rewrite Hlook, Hblack. unfold bind at 1, setClass. fold result.
    change {| classes := <[name := result]> (classes st);
              warnings := warnings st |} with st1.
    assert (Hclauses : sym_heritageClauses (oracle symbol)
                       = Some (Some inheritSymbol)).
    { unfold sym_heritage in Hher.
      destruct (sym_heritageClauses (oracle symbol)) as [[p|]|]; congruence. }
    unfold tryCatch, classBody. rewrite Hclauses. fold name inheritName.
    unfold bind at 1. unfold bind at 1. rewrite Hrec, Hinit. cbn.
    unfold bind, markInvalid, throw, overwrite. cbn. do 3 f_equal.
    apply map_eq. intros i. destruct (decide (name = i)) as [<-|Hne].
    + now rewrite lookup_alter_eq, !lookup_insert_eq.
    + now rewrite lookup_alter_ne, !lookup_insert_ne.
  - intros fuel symbol abstract st c. apply classGen_under_construction.
  - apply classGen_terminates.
Qed.

(** A run for [parent_under_construction_fails]: in [class A extends B]
    and [class B extends A], the call for [B] while [A] is under
    construction; the reference to [Node] in [class Node { next: Node }];
    and the construction of [A], which ends. *)
Lemma parent_under_construction_fails_witness :
  classGen oracleLoop 2 1 false
    (overwrite initialState "A" (newClassGen "A" false))
  = Some (Throw (GenConstructFail
                   "B is mutually recursive with its ancestor A in a confusing way"),
          overwrite (overwrite initialState "A" (newClassGen "A" false))
            "B" (setInvalid (newClassGen "B" false)))
  /\ classGen oracleSelf 1 0 false
       (overwrite initialState "Node" (newClassGen "Node" false))
     = Some (Ok (newClassGen "Node" false),
             overwrite initialState "Node" (newClassGen "Node" false))
  /\ exists r st', classGen oracleLoop 3 0 false initialState = Some (r, st').
Proof.
  destruct (parent_under_construction_fails oracleLoop) as (H1 & _ & H3).
  destruct (parent_under_construction_fails oracleSelf) as (_ & H2 & _).
  split; [|split].
  - apply (H1 0 1 false (overwrite initialState "A" (newClassGen "A" false)) 0).
    + reflexivity.
    + reflexivity.
    + reflexivity.
    + right. exists (newClassGen "A" false).
      split; [reflexivity | split; reflexivity].
  - apply (H2 0 0 false).
    split; [reflexivity | split; reflexivity].
  - apply (H3 {["A"; "B"]}); [|vm_compute; lia].
    intros [|symbol]; cbn; set_solver.
Defined.

(** ** The constructors of a class that declares none *)

(** C3 fails for [class K { constructor(x: any) }]: the one constructor is
    found and rejected, so none is accepted; the class has no parent, and
    it gets no constructor at all. *)
Lemma rejected_constructor_leaves_none :
  (exists c st',
     classGen oracleConstructors 1 2 false initialState = Some (Ok c, st')
     /\ cg_inherit c = None /\ cg_constructors c = []
     /\ warnings st'
        = ["Could not translate constructor #1 on class K because couldn't translate type any"])
  /\ ~ defaultsWhenNoneAccepted oracleConstructors.
Proof.
  split.
  - eexists. eexists. split; [vm_compute; reflexivity|]. auto.
  - intros H.
    specialize (H 0 2 None initialState
                  {| fields := []; methods := []; constructors := [];
                     foundConstructors := 1 |}).
    cbv zeta in H. specialize (H _ eq_refl eq_refl). discriminate.
Qed.

(** C3, as amended: when a class is built whose symbol declares no
    constructor (none is found, accepted or not), then with a parent the
    class stores the inited parent as it is in the table, and has one
    constructor for each constructor of the parent, with the same
    parameters and the class itself as owner; without parent it has
    exactly one constructor, without parameters, owned by the class. *)
Theorem constructors_when_none_declared oracle fuel symbol abstract st c st' :
  classGen oracle fuel symbol abstract st = Some (Ok c, st') ->
  classes st !! sym_name (oracle symbol) = None ->
  noConstructorDeclared (sym_members (oracle symbol)) ->
  cg_constructors c = synthesized (sym_name (oracle symbol)) (cg_inherit c)
  /\ match sym_heritage (oracle symbol) with
     | Some inheritSymbol =>
         exists parent,
           cg_inherit c = Some parent /\ cg_inited parent = true
           /\ classes st' !! sym_name (oracle inheritSymbol) = Some parent
           /\ length (cg_constructors c) = length (cg_constructors parent)
     | None =>
         cg_inherit c = None
         /\ cg_constructors c
            = [ {| ctor_params := [];
                   ctor_owner := Some (sym_name (oracle symbol)) |} ]
     end.
Proof.
  intros H Hlook Hnone. destruct fuel as [|fuel]; [discriminate|].
  destruct (blacklisted "class" (sym_name (oracle symbol))) eqn:Hblack.
  { cbn [classGen] in H. unfold classGenBody, bind, getClass in H.
    rewrite Hlook, Hblack in H. discriminate. }
  destruct (classGen_fresh_run _ _ _ _ _ _ _ H Hlook Hblack)
    as (stk & G & [(e & E & _)|(inherit & st2 & l & Hok)]); [discriminate|].
  cbv zeta in Hok. destruct Hok as (E & -> & Hinh & Hloop).
  injection E as ->.
  pose proof (membersLoop_locals _ _ _ _ _ _ _ _ Hloop) as [_ Hc].
  destruct (Hc Hnone) as [Hcs Hfound]. cbn in Hcs, Hfound.
  assert (Hsyn : map (setOwnerC (sym_name (oracle symbol)))
                   (constructorsOrDefault inherit l)
                 = synthesized (sym_name (oracle symbol)) inherit).
  { unfold constructorsOrDefault, synthesized. rewrite Hfound, Hcs.
    destruct inherit as [parent|]; cbn; [|reflexivity].
    now rewrite map_map. }
  split; [exact Hsyn|].
  destruct (sym_heritage (oracle symbol)) as [inheritSymbol|].
  - destruct Hinh as (parent & -> & Hrec & Hinit).
    exists parent. split; [reflexivity|]. split; [exact Hinit|]. split.
    + pose proof (classGen_spec oracle fuel _ _ _ _ _ Hrec) as (G1 & _ & R & _).
      destruct (R parent eq_refl) as [Hstored _].
      pose proof (sound_membersLoop _ (classGen_sound oracle fuel)
                    _ _ _ _ _ _ _ Hloop) as [G2 _].
      cbn. rewrite lookup_insert_ne.
      * eapply grows_lookup; eassumption.
      * intros Ename. rewrite <- Ename in Hstored.
        assert (Hnew : classes st2 !! sym_name (oracle symbol)
                       = Some (newClassGen (sym_name (oracle symbol)) abstract)).
        { eapply grows_lookup; [exact G1 | apply lookup_insert_eq]. }
        rewrite Hnew in Hstored. injection Hstored as <-. discriminate.
    + change (length (map (setOwnerC (sym_name (oracle symbol)))
                        (constructorsOrDefault (Some parent) l))
              = length (cg_constructors parent)).
      rewrite Hsyn. cbn. now rewrite length_map.
  - destruct Hinh as [-> _]. split; [reflexivity | exact Hsyn].
Qed.

(** A run for [constructors_when_none_declared]: [class C extends P],
    where [P] has two constructors and [C] none. *)
Lemma constructors_when_none_declared_witness :
  exists c st',
    classGen oracleConstructors 2 1 false initialState = Some (Ok c, st')
    /\ classes initialState !! sym_name (oracleConstructors 1) = None
    /\ noConstructorDeclared (sym_members (oracleConstructors 1))
    /\ cg_constructors c
       = synthesized (sym_name (oracleConstructors 1)) (cg_inherit c)
    /\ match sym_heritage (oracleConstructors 1) with
       | Some inheritSymbol =>
           exists parent,
             cg_inherit c = Some parent /\ cg_inited parent = true
             /\ classes st' !! sym_name (oracleConstructors inheritSymbol)
                = Some parent
             /\ length (cg_constructors c) = length (cg_constructors parent)
       | None =>
           cg_inherit c = None
           /\ cg_constructors c
              = [ {| ctor_params := [];
                     ctor_owner := Some (sym_name (oracleConstructors 1)) |} ]
       end.
Proof.
  eexists. eexists.
  split; [vm_compute; reflexivity|].
  split; [reflexivity|].
  split; [intros member []|].
  eapply (constructors_when_none_declared oracleConstructors 2 1 false
            initialState).
  - vm_compute; reflexivity.
  - reflexivity.
  - intros member [].
Defined.

(** The constructors of [C] in [class C extends P]: the two parameter
    lists of [P], owned by [C]. *)
Example inherited_constructors :
  exists c st,
    classGen oracleConstructors 2 1 false initialState = Some (Ok c, st)
    /\ map ctor_owner (cg_constructors c) = [Some "C"; Some "C"]
    /\ map (fun k => map id_name (ctor_params k)) (cg_constructors c)
       = [["x"]; ["x"; "y"]]
    /\ mapOutcome declConstructor (cg_constructors c)
       = Ok [ "proc newC*(x: float) : C {.importcpp:" +:+ dquote
              +:+ "new C(@)" +:+ dquote +:+ ".}";
              "proc newC*(x: float, y: cstring) : C {.importcpp:" +:+ dquote
              +:+ "new C(@)" +:+ dquote +:+ ".}" ].
Proof. eexists. eexists. split; [vm_compute; reflexivity|]. auto. Qed.

(** ** The fields of the chain of parents *)

Lemma chainFresh_fields c :
  chainFresh c ->
  forall f, In f (cg_fields c) ->
            chainHasField' (cg_inherit c) (id_name f) = false.
Proof. destruct c. cbn. now intros [H _]. Qed.

Lemma symbolStep_topLevel oracle fuel symbol gens st gens' st' :
  Good (fun _ => False) st ->
  symbolStep oracle fuel symbol gens st = Some (Ok gens', st') ->
  exists more, gens' = gens ++ more /\ Forall topLevel more.
Proof.
  intros HG H.
  assert (Hnone : exists more : list Gen,
            gens = gens ++ more /\ Forall topLevel more).
  { exists []. split; [now rewrite app_nil_r | constructor]. }
  assert (Hone : forall gen, topLevel gen ->
            exists more, gens ++ [gen] = gens ++ more /\ Forall topLevel more).
  { intros gen Hgen. exists [gen]. split; [reflexivity|].
    now repeat constructor. }
  assert (Hclass : forall symbol' abstract st0 c st1,
            Good (fun _ => False) st0 ->
            classGen oracle fuel symbol' abstract st0 = Some (Ok c, st1) ->
            topLevel (GenClass c)).
  { intros symbol' abstract st0 c st1 HG0 Hrun.
    destruct (classGen_spec oracle fuel _ _ _ _ _ Hrun) as (_ & P & R & _).
    destruct (R c eq_refl) as [Hstored Hvalid].
    destruct (P _ HG0 _ _ Hstored) as (_ & [Hfresh Howned] & [[]|[Hi|Hi]]);
      [|congruence].
    repeat split; assumption. }
  unfold symbolStep in H. run_try H as a st1 H E.
  - injection E as ->.
    destruct (fl_Class _); cbv iota in H.
    { destruct (ty_symbol _); cbv iota in H; [|run_end H].
      run_bind H as c st1 H1 H2; [discriminate|]. run_end H2. eauto. }
    destruct (fl_Interface _); cbv iota in H.
    { run_bind H as c st1 H1 H2; [discriminate|]. run_end H2. eauto. }
    destruct (_ || _); cbv iota in H.
    { run_bind H as c st1 H1 H2; [discriminate|]. run_end H2.
      apply Hone. exact I. }
    destruct (fl_Function _); cbv iota in H.
    { run_bind H as c st1 H1 H2; [discriminate|]. run_end H2.
      eexists. split; [reflexivity|]. apply List.Forall_forall.
      intros x Hx. apply in_map_iff in Hx as (s & <- & _). exact I. }
    run_bind H as c st2 H1 H2; [discriminate|]. run_end H2. exact Hnone.
  - destruct e; try (run_end E).
    run_bind E as c st2 H1 H2; [discriminate|]. run_end H2. exact Hnone.
Qed.

Lemma symbolStep_sound oracle fuel symbol gens :
  sound (symbolStep oracle fuel symbol gens).
Proof.
  unfold symbolStep.
  repeat step_sound;
    auto using classGen_sound, sound_typeGen, sound_functionGen.
Qed.

(** The generators of a scope are variables, signatures and classes, and
    the classes are inited, valid, own their constructors and declare no
    field twice along their chains. *)
Lemma generate_topLevel oracle fuel scope gens st' :
  generate oracle fuel scope initialState = Some (Ok gens, st') ->
  Forall topLevel gens.
Proof.
  unfold generate.
  assert (Hloop : forall acc st,
            Good (fun _ => False) st -> Forall topLevel acc ->
            symbolsLoop oracle fuel scope acc st = Some (Ok gens, st') ->
            Forall topLevel gens).
  { induction scope as [|symbol scope IH]; intros acc st HG Hacc H; cbn in H.
    - run_end H. exact Hacc.
    - run_bind H as gens1 st1 H1 H2; [discriminate|].
      assert (HG1 : Good (fun _ => False) st1)
        by now apply (symbolStep_sound _ _ _ _ _ _ _ H1).
      destruct (symbolStep_topLevel _ _ _ _ _ _ _ HG H1) as (more & -> & Hm).
      apply (IH (acc ++ more) st1 HG1); [|exact H2].
      apply Forall_app. auto. }
  intros H. apply (Hloop [] initialState); [apply Good_initialState | | exact H].
  constructor.
Qed.

Lemma generate_classes oracle fuel scope gens st' :
  generate oracle fuel scope initialState = Some (Ok gens, st') ->
  forall c, In (GenClass c) gens -> built c.
Proof.
  intros H c Hc. apply generate_topLevel in H.
  rewrite List.Forall_forall in H. exact (H _ Hc).
Qed.

(** C9 fails for [class Element extends P] where both declare the field
    [webkitRequestFullScreen]: the field of [Element] is in the chain of
    parents and is dropped, but with the warning for a blacklisted
    field. *)
Lemma blacklisted_inherited_field_reported :
  (exists c st',
     classGen oracleFields 2 1 false initialState = Some (Ok c, st')
     /\ chainHasField' (cg_inherit c) "webkitRequestFullScreen" = true
     /\ map id_name (cg_fields c) = ["y"]
     /\ warnings st'
        = ["Refusing to translate blacklisted field webkitRequestFullScreen of class Element"])
  /\ ~ inheritedFieldsDroppedSilently.
Proof.
  split.
  - eexists. eexists. split; [vm_compute; reflexivity|]. auto.
  - intros H.
    specialize (H (classGen oracleFields 1) (oracleFields 1)
                  (Some fieldsParent)
                  (field "webkitRequestFullScreen" numberTy) noLocals
                  initialState eq_refl eq_refl eq_refl).
    vm_compute in H. discriminate.
Qed.

(** C9, as amended: (1) a class that [classGen] gives back, from a good
    state, has no field whose name is a field of its parent or of a further
    ancestor; (2) so it is for every class among the generators of a scope;
    (3) a member that is a field, is not blacklisted and bears the name of
    a field in the chain of parents is passed over: the locals and the
    state, hence the diagnostics, stay as they are. *)
Theorem inherited_fields_not_redeclared oracle :
  (forall fuel symbol abstract st c st' building,
     Good building st ->
     classGen oracle fuel symbol abstract st = Some (Ok c, st') ->
     forall f, In f (cg_fields c) ->
               chainHasField' (cg_inherit c) (id_name f) = false)
  /\ (forall fuel scope gens st',
        generate oracle fuel scope initialState = Some (Ok gens, st') ->
        forall c f, In (GenClass c) gens -> In f (cg_fields c) ->
                    chainHasField' (cg_inherit c) (id_name f) = false)
  /\ (forall rec sym inherit member l st,
        fl_Constructor (mem_flags member) = false ->
        fl_Property (mem_flags member) = true ->
        blacklisted "field" (sym_name sym +:+ "." +:+ mem_name member)
        = false ->
        chainHasField' inherit (mem_name member) = true ->
        memberStep rec sym inherit member l st = Some (Ok l, st)).
Proof.
  split; [|split].
  - intros fuel symbol abstract st c st' building HG H.
    destruct (classGen_spec oracle fuel _ _ _ _ _ H) as (_ & P & R & _).
    destruct (R c eq_refl) as [Hstored _].
    destruct (P _ HG _ _ Hstored) as (_ & [Hfresh _] & _).
    now apply chainFresh_fields.
  - intros fuel scope gens st' H c f Hc.
    destruct (generate_classes _ _ _ _ _ H c Hc) as (Hfresh & _).
    now apply chainFresh_fields.
  - intros rec sym inherit member l st Hc Hp Hb Hchain.
    unfold memberStep. rewrite Hc, Hp, Hb, Hchain. reflexivity.
Qed.

(** A run for [inherited_fields_not_redeclared]: [class Element extends P];
    the field [x] of [Element] is a field of [P]. *)
Lemma inherited_fields_not_redeclared_witness :
  (exists c st',
     Good (fun _ => False) initialState
     /\ classGen oracleFields 2 1 false initialState = Some (Ok c, st')
     /\ forall f, In f (cg_fields c) ->
                  chainHasField' (cg_inherit c) (id_name f) = false)
  /\ (exists gens st',
        generate oracleFields 3 [1; 0] initialState = Some (Ok gens, st')
        /\ forall c f, In (GenClass c) gens -> In f (cg_fields c) ->
                       chainHasField' (cg_inherit c) (id_name f) = false)
  /\ memberStep (classGen oracleFields 1) (oracleFields 1) (Some fieldsParent)
       (field "x" numberTy) noLocals initialState
     = Some (Ok noLocals, initialState).
Proof.
  destruct (inherited_fields_not_redeclared oracleFields) as (H1 & H2 & H3).
  split; [|split].
  - eexists. eexists. split; [apply Good_initialState|].
    split; [vm_compute; reflexivity|].
    eapply (H1 2 1 false initialState);
      [apply (Good_initialState (fun _ => False)) | vm_compute; reflexivity].
  - eexists. eexists. split; [vm_compute; reflexivity|].
    eapply (H2 3 [1; 0]). vm_compute; reflexivity.
  - apply H3; reflexivity.
Defined.

(** ** A type that cannot be represented *)

Section Attempts.

Variable rec : SymId -> bool -> M ClassGen.

(** One turn of each of the three loops, by what the unit does. *)
Lemma functionLoop_cons sym u rest counter acc st :
  functionLoop rec sym (u :: rest) counter acc st
  = match signatureGen rec (sym_name sym) u st with
    | None => None
    | Some (Ok gen, st1) =>
        functionLoop rec sym rest (S counter) (acc ++ [gen]) st1
    | Some (Throw (UnusableType type), st1) =>
        functionLoop rec sym rest (S counter) acc
          (warned st1 (functionReport sym (S counter) type))
    | Some (Throw e, st1) => Some (Throw e, st1)
    end.
Proof.
  cbn [functionLoop]. unfold bind at 1. unfold tryCatch. unfold bind at 1.
  destruct (signatureGen rec (sym_name sym) u st)
    as [[[gen|[type|message|message]] st1]|]; reflexivity.
Qed.

Lemma methodLoop_cons sym member u rest counter acc st :
  methodLoop rec sym member (u :: rest) counter acc st
  = match signatureGen rec (mem_name member) u st with
    | None => None
    | Some (Ok gen, st1) =>
        methodLoop rec sym member rest (S counter) (acc ++ [gen]) st1
    | Some (Throw (UnusableType type), st1) =>
        methodLoop rec sym member rest (S counter) acc
          (warned st1 (methodReport sym member (S counter) type))
    | Some (Throw e, st1) => Some (Throw e, st1)
    end.
Proof.
  cbn [methodLoop]. unfold bind at 1. unfold tryCatch. unfold bind at 1.
  destruct (signatureGen rec (mem_name member) u st)
    as [[[gen|[type|message|message]] st1]|]; reflexivity.
Qed.

Lemma constructorLoop_cons name declaration rest l st :
  constructorLoop rec name (declaration :: rest) l st
  = match paramsGen rec declaration st with
    | None => None
    | Some (Ok ps, st1) =>
        constructorLoop rec name rest
          {| fields := fields l; methods := methods l;
             constructors := constructors l ++ [constructorOf ps];
             foundConstructors := S (foundConstructors l) |} st1
    | Some (Throw (UnusableType type), st1) =>
        constructorLoop rec name rest
          {| fields := fields l; methods := methods l;
             constructors := constructors l;
             foundConstructors := S (foundConstructors l) |}
          (warned st1 (constructorReport name (S (foundConstructors l)) type))
    | Some (Throw e, st1) => Some (Throw e, st1)
    end.
Proof.
  cbn [constructorLoop]. unfold bind at 1. unfold tryCatch. unfold bind at 1.
  destruct (paramsGen rec declaration st)
    as [[[ps|[type|message|message]] st1]|]; reflexivity.
Qed.

Lemma functionLoop_attempted sym callSignatures :
  forall counter acc st res st',
    functionLoop rec sym callSignatures counter acc st = Some (Ok res, st')
    <-> exists kept,
          res = acc ++ kept
          /\ attempted (signatureGen rec (sym_name sym)) (functionReport sym)
               counter callSignatures st kept st'.
Proof.
  induction callSignatures as [|u rest IH]; intros counter acc st res st'.
  - cbn. split.
    + intros H. run_end H. exists []. split; [now rewrite app_nil_r|].
      constructor.
    + intros (kept & -> & Hk). inversion Hk; subst. now rewrite app_nil_r.
  - rewrite functionLoop_cons. split.
    + intros H.
      destruct (signatureGen rec (sym_name sym) u st)
        as [[[gen|[type|message|message]] st1]|] eqn:Hu; try discriminate.
      * apply IH in H as (kept & -> & Hk). exists (gen :: kept).
        split; [now rewrite <- app_assoc|].
        eapply attempted_kept; eassumption.
      * apply IH in H as (kept & -> & Hk). exists kept.
        split; [reflexivity|]. eapply attempted_skipped; eassumption.
    + intros (kept & -> & Hk).
      inversion Hk as [|? ? ? ? gen st1 kept' ? Hu Hrest
                      |? ? ? ? type st1 ? ? Hu Hrest]; subst; rewrite Hu.
      * apply IH. exists kept'. split; [now rewrite <- app_assoc|exact Hrest].
      * apply IH. exists kept. auto.
Qed.

Lemma methodLoop_attempted sym member callSignatures :
  forall counter acc st res st',
    methodLoop rec sym member callSignatures counter acc st
    = Some (Ok res, st')
    <-> exists kept,
          res = acc ++ kept
          /\ attempted (signatureGen rec (mem_name member))
               (methodReport sym member) counter callSignatures st kept st'.
Proof.
  induction callSignatures as [|u rest IH]; intros counter acc st res st'.
  - cbn. split.
    + intros H. run_end H. exists []. split; [now rewrite app_nil_r|].
      constructor.
    + intros (kept & -> & Hk). inversion Hk; subst. now rewrite app_nil_r.
  - rewrite methodLoop_cons. split.
    + intros H.
      destruct (signatureGen rec (mem_name member) u st)
        as [[[gen|[type|message|message]] st1]|] eqn:Hu; try discriminate.
      * apply IH in H as (kept & -> & Hk). exists (gen :: kept).
        split; [now rewrite <- app_assoc|].
        eapply attempted_kept; eassumption.
      * apply IH in H as (kept & -> & Hk). exists kept.
        split; [reflexivity|]. eapply attempted_skipped; eassumption.
    + intros (kept & -> & Hk).
      inversion Hk as [|? ? ? ? gen st1 kept' ? Hu Hrest
                      |? ? ? ? type st1 ? ? Hu Hrest]; subst; rewrite Hu.
      * apply IH. exists kept'. split; [now rewrite <- app_assoc|exact Hrest].
      * apply IH. exists kept. auto.
Qed.

Lemma constructorLoop_attempted name declarations :
  forall l st l' st',
    constructorLoop rec name declarations l st = Some (Ok l', st')
    <-> exists pss,
          attempted (paramsGen rec) (constructorReport name)
            (foundConstructors l) declarations st pss st'
          /\ l' = {| fields := fields l; methods := methods l;
                     constructors := constructors l ++ map constructorOf pss;
                     foundConstructors :=
                       foundConstructors l + length declarations |}.
Proof.
  induction declarations as [|d rest IH]; intros l st l' st'.
  - cbn. split.
    + intros H. run_end H. exists []. split; [constructor|].
      destruct l; cbn. now rewrite app_nil_r, Nat.add_0_r.
    + intros (pss & Hk & ->). inversion Hk; subst.
      destruct l; cbn. now rewrite app_nil_r, Nat.add_0_r.
  - rewrite constructorLoop_cons. split.
    + intros H.
      destruct (paramsGen rec d st)
        as [[[ps|[type|message|message]] st1]|] eqn:Hu; try discriminate.
      * apply IH in H as (pss & Hk & ->). exists (ps :: pss).
        split; [eapply attempted_kept; eassumption|].
        cbn. rewrite <- app_assoc. f_equal. lia.
      * apply IH in H as (pss & Hk & ->). exists pss.
        split; [eapply attempted_skipped; eassumption|].
        cbn. f_equal. lia.
    + intros (pss & Hk & ->).
      inversion Hk as [|? ? ? ? ps st1 pss' ? Hu Hrest
                      |? ? ? ? type st1 ? ? Hu Hrest]; subst; rewrite Hu.
      * apply IH. exists pss'. split; [exact Hrest|].
        cbn. rewrite <- app_assoc. f_equal. lia.
      * apply IH. exists pss. split; [exact Hrest|]. cbn. f_equal. lia.
Qed.

(** When every unit gives a result or throws [UnusableType], the units are
    translated to the end. *)
Lemma attempted_total {U G : Type} (unit : U -> M G) report (l : list U) :
  (forall u, In u l -> translatedOrUnusable unit u) ->
  forall counter st, exists kept st', attempted unit report counter l st kept st'.
Proof.
  induction l as [|u rest IH]; intros Hall counter st.
  - exists [], st. constructor.
  - destruct (Hall u (or_introl eq_refl) st) as (st1 & [(gen & Hu)|(type & Hu)]).
    + destruct (IH (fun u' Hu' => Hall u' (or_intror Hu')) (S counter) st1)
        as (kept & st' & Hk).
      exists (gen :: kept), st'. eapply attempted_kept; eassumption.
    + destruct (IH (fun u' Hu' => Hall u' (or_intror Hu')) (S counter)
                  (warned st1 (report (S counter) type)))
        as (kept & st' & Hk).
      exists kept, st'. eapply attempted_skipped; eassumption.
Qed.

End Attempts.

(** C4: [UnusableType] never leaves [functionGen] or [classGen].  For a
    function that is not blacklisted, [functionGen] returns exactly when its
    call signatures are translated one by one to the end, a signature that
    throws [UnusableType] being skipped with its diagnostic and every other
    result being kept, in order; and it does return when no signature
    throws anything else.  So it is in [classGen] for the call signatures
    of a method and for the declarations of a constructor; a field whose
    type throws [UnusableType] is skipped with its diagnostic and leaves
    the locals as they were.  The loop over the members goes on after every
    member that returns, and when it returns the class is built. *)
Theorem unusable_type_is_local oracle fuel :
  let rec := classGen oracle fuel in
  (forall sym, quiet (functionGen rec sym))
  /\ (forall symbol abstract, quiet (classGen oracle fuel symbol abstract))
  /\ (forall sym st res st',
        blacklisted "variable" (sym_name sym) = false ->
        functionGen rec sym st = Some (Ok res, st')
        <-> attempted (signatureGen rec (sym_name sym)) (functionReport sym)
              0 (sym_callSignatures sym) st res st')
  /\ (forall sym st,
        blacklisted "variable" (sym_name sym) = false ->
        (forall callSignature,
           In callSignature (sym_callSignatures sym) ->
           translatedOrUnusable (signatureGen rec (sym_name sym))
             callSignature) ->
        exists res st', functionGen rec sym st = Some (Ok res, st'))
  /\ (forall sym inherit member l st l' st',
        fl_Constructor (mem_flags member) = false ->
        fl_Property (mem_flags member) = false ->
        fl_Method (mem_flags member) = true ->
        blacklisted "field" (sym_name sym +:+ "." +:+ mem_name member)
        = false ->
        memberStep rec sym inherit member l st = Some (Ok l', st')
        <-> exists ms,
              attempted (signatureGen rec (mem_name member))
                (methodReport sym member) 0 (mem_callSignatures member)
                st ms st'
              /\ l' = {| fields := fields l; methods := methods l ++ ms;
                         constructors := constructors l;
                         foundConstructors := foundConstructors l |})
  /\ (forall sym inherit member l st l' st',
        fl_Constructor (mem_flags member) = true ->
        memberStep rec sym inherit member l st = Some (Ok l', st')
        <-> exists pss,
              attempted (paramsGen rec) (constructorReport (sym_name sym))
                (foundConstructors l) (mem_declarations member) st pss st'
              /\ l' = {| fields := fields l; methods := methods l;
                         constructors :=
                           constructors l ++ map constructorOf pss;
                         foundConstructors :=
                           foundConstructors l
                           + length (mem_declarations member) |})
  /\ (forall sym inherit member l st,
        fl_Constructor (mem_flags member) = false ->
        fl_Property (mem_flags member) = true ->
        blacklisted "field" (sym_name sym +:+ "." +:+ mem_name member)
        = false ->
        chainHasField' inherit (mem_name member) = false ->
        memberStep rec sym inherit member l st
        = match typeGen rec (mem_type member) st with
          | None => None
          | Some (Ok type, st1) =>
              Some (Ok {| fields := fields l
                                    ++ [ {| id_name := mem_name member;
                                            id_type := type |} ];
                          methods := methods l;
                          constructors := constructors l;
                          foundConstructors := foundConstructors l |}, st1)
          | Some (Throw (UnusableType type), st1) =>
              Some (Ok l, warned st1 (fieldReport sym member type))
          | Some (Throw e, st1) => Some (Throw e, st1)
          end)
  /\ (forall sym inherit l st,
        membersLoop rec sym inherit [] l st = Some (Ok l, st))
  /\ (forall sym inherit member rest l st l1 st1,
        memberStep rec sym inherit member l st = Some (Ok l1, st1) ->
        membersLoop rec sym inherit (member :: rest) l st
        = membersLoop rec sym inherit rest l1 st1)
  /\ (forall symbol abstract st inherit st2 l stk,
        let sym := oracle symbol in
        let name := sym_name sym in
        let result := newClassGen name abstract in
        let built := init result inherit (fields l)
                       (constructorsOrDefault inherit l) (methods l) in
        classes st !! name = None ->
        blacklisted "class" name = false ->
        match sym_heritageClauses sym with
        | None => inherit = None /\ st2 = overwrite st name result
        | Some None => False
        | Some (Some inheritSymbol) =>
            exists parent,
              inherit = Some parent
              /\ rec inheritSymbol false (overwrite st name result)
                 = Some (Ok parent, st2)
              /\ cg_inited parent = true
        end ->
        membersLoop rec sym inherit (sym_members sym) noLocals st2
        = Some (Ok l, stk) ->
        classGen oracle (S fuel) symbol abstract st
        = Some (Ok built, overwrite stk name built)).
Proof.
  intros rec.
  split; [|split; [|split; [|split; [|split; [|split; [|split; [|split;
    [|split]]]]]]]].
  - intros sym. apply quiet_functionGen.
  - apply classGen_quiet.
  - intros sym st res st' Hb. unfold functionGen. rewrite Hb.
    rewrite functionLoop_attempted. split.
    + intros (kept & -> & Hk). exact Hk.
    + intros Hk. exists res. auto.
  - intros sym st Hb Hall.
    destruct (attempted_total (signatureGen rec (sym_name sym))
                (functionReport sym) (sym_callSignatures sym) Hall 0 st)
      as (kept & st' & Hk).
    exists kept, st'. unfold functionGen. rewrite Hb.
    apply functionLoop_attempted. exists kept. auto.
  - intros sym inherit member l st l' st' Hc Hp Hm Hb.
    unfold memberStep. rewrite Hc, Hp, Hm, Hb. split.
    + intros H. run_bind H as ms st1 H1 H2; [discriminate|]. run_end H2.
      apply methodLoop_attempted in H1 as (kept & -> & Hk). eauto.
    + intros (ms & Hk & ->). unfold bind.
      assert (H1 : methodLoop rec sym member (mem_callSignatures member) 0
                     (methods l) st
                   = Some (Ok (methods l ++ ms), st'))
        by (apply methodLoop_attempted; eauto).
      now rewrite H1.
  - intros sym inherit member l st l' st' Hc.
    unfold memberStep. rewrite Hc. apply constructorLoop_attempted.
  - intros sym inherit member l st Hc Hp Hb Hchain.
    unfold memberStep. rewrite Hc, Hp, Hb, Hchain. cbn [negb].
    unfold tryCatch. unfold bind at 1.
    destruct (typeGen rec (mem_type member) st)
      as [[[type|[type|message|message]] st1]|]; reflexivity.
  - reflexivity.
  - intros sym inherit member rest l st l1 st1 H.
    cbn [membersLoop]. unfold bind. now rewrite H.
  - intros symbol abstract st inherit st2 l stk sym name result built
      Hlook Hblack Hparent Hloop.
    cbn [classGen]. unfold classGenBody. fold sym name.
    unfold bind at 1, getClass. rewrite Hlook, Hblack.
    unfold bind at 1, setClass. fold result.
    change {| classes := <[name := result]> (classes st);
              warnings := warnings st |}
      with (overwrite st name result).
    unfold tryCatch, classBody. fold name.
    destruct (sym_heritageClauses sym) as [[inheritSymbol|]|];
      [|contradiction|].
    + destruct Hparent as (parent & -> & Hrun & Hinited).
      unfold bind at 1. unfold bind at 1. fold rec. rewrite Hrun, Hinited.
      cbn [negb]. unfold ret at 1. unfold bind at 1. fold rec.
      rewrite Hloop. reflexivity.
    + destruct Hparent as [-> ->]. unfold bind at 1, ret at 1.
      unfold bind at 1. fold rec. rewrite Hloop. reflexivity.
Qed.

(** The function [f] with three call signatures, of which the second has
    a parameter of type [any]. *)
Example function_overloads :
  exists st,
    functionGen (classGen oracleOverloads 1) (oracleOverloads 0) initialState
    = Some (Ok [ {| sig_name := "f";
                    sig_params := [ {| id_name := "a";
                                       id_type := LiteralTypeGen "float" |} ];
                    sig_returnType := LiteralTypeGen "cstring";
                    sig_owner := None |};
                 {| sig_name := "f"; sig_params := [];
                    sig_returnType := LiteralTypeGen "void";
                    sig_owner := None |} ],
            st)
    /\ warnings st
       = ["Could not translate function f, call signature #2 because tried to translate typeof f but couldn't translate type any"].
Proof. eexists. split; vm_compute; reflexivity. Qed.

(** A run for [unusable_type_is_local]: of the three call signatures of
    [f], the first and the third are kept and the second is skipped with
    its diagnostic; and the class [K], whose one constructor has a
    parameter of type [any], is built without that constructor. *)
Lemma unusable_type_is_local_witness :
  let rec := classGen oracleOverloads 1 in
  let sym := oracleOverloads 0 in
  blacklisted "variable" (sym_name sym) = false
  /\ attempted (signatureGen rec "f") (functionReport sym) 0 overloads
       initialState
       [ {| sig_name := "f";
            sig_params := [ {| id_name := "a";
                               id_type := LiteralTypeGen "float" |} ];
            sig_returnType := LiteralTypeGen "cstring";
            sig_owner := None |};
         {| sig_name := "f"; sig_params := [];
            sig_returnType := LiteralTypeGen "void";
            sig_owner := None |} ]
       (warned initialState
          "Could not translate function f, call signature #2 because tried to translate typeof f but couldn't translate type any")
  /\ (forall st type st',
        functionGen rec sym st <> Some (Throw (UnusableType type), st'))
  /\ exists l' st',
       memberStep (classGen oracleConstructors 1) (oracleConstructors 2) None
         (constructorMember [ [param "x" anyTy] ]) noLocals initialState
       = Some (Ok l', st')
       /\ constructors l' = [] /\ foundConstructors l' = 1
       /\ warnings st'
          = ["Could not translate constructor #1 on class K because couldn't translate type any"].
Proof.
  intros rec sym.
  destruct (unusable_type_is_local oracleOverloads 1)
    as (Hquiet & _ & Hfun & _).
  destruct (unusable_type_is_local oracleConstructors 1)
    as (_ & _ & _ & _ & _ & Hctor & _).
  split; [reflexivity|]. split; [|split; [apply Hquiet|]].
  - apply (proj1 (Hfun sym initialState _ _ eq_refl)).
    vm_compute. reflexivity.
  - eexists. eexists. split.
    + apply (proj2 (Hctor (oracleConstructors 2) None
                      (constructorMember [ [param "x" anyTy] ]) noLocals
                      initialState _ _ eq_refl)).
      exists []. split; [|reflexivity].
      eapply attempted_skipped; [vm_compute; reflexivity|].
      apply attempted_nil.
    + split; [reflexivity|]. split; reflexivity.
Defined.

(** ** The text of the output *)

Lemma mapOutcome_Ok {X Y : Type} (f : X -> Outcome Y) (l : list X) :
  (forall x, In x l -> exists y, f x = Ok y) ->
  exists ys, mapOutcome f l = Ok ys.
Proof.
  induction l as [|x l IH]; intros H; cbn; [eauto|].
  destruct (H x (or_introl eq_refl)) as (y & ->).
  destruct IH as (ys & ->); [intros x' Hx'; apply H; now right|]. eauto.
Qed.

Lemma declString_topLevel gen :
  topLevel gen -> exists text, declString gen = Ok text.
Proof.
  destruct gen as [v|p|f|s|c|l|c]; cbn; try contradiction; eauto.
  intros (_ & Howned & Hinit & _). unfold declClass.
  destruct (cg_abstract c); [eauto|].
  destruct (mapOutcome_Ok declConstructor (cg_constructors c)) as (ds & ->);
    [|eauto].
  intros k Hk. specialize (Howned Hinit). rewrite List.Forall_forall in Howned.
  unfold declConstructor. rewrite (Howned k Hk). eauto.
Qed.

(** X27: when no symbol is named like a key of [Object.prototype], for
    the generators of a scope, from the initial state, and components that
    meet the contract, the script comes to its end and prints the
    declarations of the sorted generators: no declaration throws while it
    is printed. *)
Theorem script_prints
    (components : Graph -> list (list string)) (oracle : Oracle)
    (fuel : nat) (scope : list SymId) (gens : list Gen) (st1 : State) :
  ownNames oracle ->
  generate oracle fuel scope initialState = Some (Ok gens, st1) ->
  sccContract (dependencies gens) (components (dependencies gens)) ->
  exists out text st2,
    script components oracle fuel scope initialState
    = Some (Ok (out, text), st2)
    /\ sortedGenerators components gens st1 = Some (Ok out, st2)
    /\ decls out = Ok text.
Proof.
  intros _ Hgen Hcontract.
  pose proof (generate_keyed _ _ _ _ _ _ Hgen) as Hkeyed.
  pose proof (generate_topLevel _ _ _ _ _ Hgen) as Htop.
  pose proof (sortedGenerators_run components gens Hkeyed Hcontract st1)
    as Hsort.
  set (out := flat_map (emitOf (dependencies gens))
                (components (dependencies gens))) in *.
  assert (Hdecls : exists text, decls out = Ok text).
  { unfold decls. destruct (mapOutcome_Ok declString out) as (ds & ->);
      [|eauto].
    intros E HE. apply declString_topLevel.
    apply (emitted_inv components gens Hkeyed) in HE
      as (v & _ & _ & _ & Hin).
    rewrite List.Forall_forall in Htop. now apply Htop. }
  destruct Hdecls as (text & Hdecls).
  eexists out, text, _. split; [|split; [exact Hsort | exact Hdecls]].
  unfold script, bind. rewrite Hgen, Hsort, Hdecls. reflexivity.
Qed.

(** When the names of the symbols lie in a finite set, the loop over the
    symbols in scope gives a result for every bound above the size of the
    set. *)
Theorem generate_terminates oracle (names : gset string) :
  (forall symbol, sym_name (oracle symbol) ∈ names) ->
  forall fuel scope st,
    size names < fuel ->
    exists r st', generate oracle fuel scope st = Some (r, st').
Proof.
  intros Hnames fuel scope st Hfuel.
  assert (Hrec : forall symbol abstract,
            total (covers ∅) (classGen oracle fuel symbol abstract)).
  { apply (classGen_total oracle names Hnames).
    replace (names ∖ ∅) with names by set_solver. exact Hfuel. }
  assert (Hloop : forall acc,
            total (covers ∅) (symbolsLoop oracle fuel scope acc)).
  { induction scope as [|symbol scope IH]; intros acc; cbn.
    - apply total_ret.
    - apply total_bind; [|intros; apply IH].
      unfold symbolStep.
      repeat step_total;
        auto using covers_onClasses, total_typeGen, total_functionGen. }
  destruct (Hloop [] st) as (r & st' & E & _); [unfold covers; set_solver|].
  eauto.
Qed.

(** * Further properties *)

(** ** The scrubbed name *)

Lemma reserved_In id :
  reserved id = true -> In id (reservedWords ++ objectPrototypeKeys).
Proof.
  unfold reserved, truthyLookup. intros H. apply in_app_iff.
  apply orb_true_iff in H as [H|H]; [left|right]; now apply inList_In.
Qed.

Lemma scrubbed_not_reserved id : reserved (identifierScrub id) = false.
Proof.
  unfold identifierScrub.
  set (id1 := replaceDollar "zz" (replaceUnderscores id)).
  set (id2 := if startsWithUnderscore id1
              then "z" +:+ capitalizeFirstLetter (slice1 id1) else id1).
  destruct (reserved id2) eqn:Hres; [|exact Hres].
  apply reserved_In in Hres. revert Hres. generalize id2. clear.
  assert (Hall : forallb (fun w => negb (reserved
                    ("x" +:+ capitalizeFirstLetter (slice1 w))))
                   (reservedWords ++ objectPrototypeKeys) = true)
    by (vm_compute; reflexivity).
  rewrite forallb_forall in Hall. intros w Hw.
  apply negb_true_iff. now apply Hall.
Qed.

Lemma scrubbed_head id : startsWithUnderscore (identifierScrub id) = false.
Proof.
  unfold identifierScrub.
  set (id1 := replaceDollar "zz" (replaceUnderscores id)).
  set (id2 := if startsWithUnderscore id1
              then "z" +:+ capitalizeFirstLetter (slice1 id1) else id1).
  assert (H2 : startsWithUnderscore id2 = false).
  { subst id2.
    destruct (startsWithUnderscore id1) eqn:E; [reflexivity|exact E]. }
  destruct (reserved id2); [reflexivity|exact H2].
Qed.

(** X1: whatever the identifier, the scrubbed name is not a key of the
    table [reserved] (so it is no reserved word of Nim), and it does not
    start with an underscore. *)
Theorem identifierScrub_result_legal id :
  reserved (identifierScrub id) = false
  /\ ~ In (identifierScrub id) reservedWords
  /\ startsWithUnderscore (identifierScrub id) = false.
Proof.
  pose proof (scrubbed_not_reserved id) as H.
  split; [exact H|]. split; [|apply scrubbed_head].
  intros Hin. apply inList_In in Hin.
  unfold reserved, truthyLookup in H. now rewrite Hin in H.
Qed.

Lemma replaceUnderscores_head s :
  startsWithUnderscore s = false ->
  startsWithUnderscore (replaceUnderscores s) = false.
Proof.
  destruct s as [|c rest]; [reflexivity|]. cbn. intros H. now rewrite H.
Qed.

Lemma skipUnderscores_head s : startsWithUnderscore (skipUnderscores s) = false.
Proof.
  induction s as [|c rest IH]; [reflexivity|]. cbn.
  destruct (isUnderscore c) eqn:E; [exact IH|]. cbn. exact E.
Qed.

Lemma replaceDollar_head_underscore s :
  startsWithUnderscore (replaceDollar "zz" s) = startsWithUnderscore s.
Proof.
  destruct s as [|c rest]; [reflexivity|]. cbn.
  destruct (isDollar c) eqn:E; [|reflexivity].
  apply Ascii.eqb_eq in E. subst. reflexivity.
Qed.

(** A run of underscores is still seen after both replacements: the
    result differs from the identifier where the run was cut. *)
Lemma replace_changes_run s :
  hasUnderscoreRun s = true ->
  replaceDollar "zz" (replaceUnderscores s) <> s.
Proof.
  induction s as [|c rest IH]; [discriminate|]. cbn.
  destruct (isUnderscore c && startsWithUnderscore rest) eqn:Hhead.
  - intros _. apply andb_true_iff in Hhead as [Hc Hrest].
    cbn. intros E.
    assert (E' : replaceDollar "zz" (skipUnderscores rest) = rest)
      by (injection E; auto).
    pose proof (skipUnderscores_head rest) as Hskip.
    rewrite <- replaceDollar_head_underscore, E' in Hskip. congruence.
  - cbn. intros Hrun. destruct (isDollar c) eqn:Hd.
    + apply Ascii.eqb_eq in Hd. subst. cbn. intros E. discriminate E.
    + intros E. injection E as E. now apply IH.
Qed.

Lemma replaceDollar_changes s :
  hasDollar s = true -> replaceDollar "zz" s <> s.
Proof.
  induction s as [|c rest IH]; [discriminate|]. cbn.
  destruct (isDollar c) eqn:Hd.
  - apply Ascii.eqb_eq in Hd. subst. intros _ E. discriminate E.
  - cbn. intros H E. injection E as E. now apply IH.
Qed.

Lemma replacements_fixed s :
  replaceDollar "zz" (replaceUnderscores s) = s ->
  hasUnderscoreRun s = false /\ hasDollar s = false.
Proof.
  intros E.
  destruct (hasUnderscoreRun s) eqn:Hrun;
    [now apply replace_changes_run in Hrun|].
  rewrite (replaceUnderscores_no_run s Hrun) in E.
  destruct (hasDollar s) eqn:Hd; [now apply replaceDollar_changes in Hd|].
  auto.
Qed.

Lemma identifierScrub_fixed_clean id :
  identifierScrub id = id <-> clean id = true.
Proof.
  unfold clean. split.
  - intros E.
    pose proof (scrubbed_not_reserved id) as Hres.
    pose proof (scrubbed_head id) as Hhead.
    rewrite E in Hres, Hhead.
    assert (Hhead1 : startsWithUnderscore
                       (replaceDollar "zz" (replaceUnderscores id)) = false).
    { rewrite replaceDollar_head_underscore.
      now apply replaceUnderscores_head. }
    unfold identifierScrub in E. rewrite Hhead1 in E.
    destruct (reserved (replaceDollar "zz" (replaceUnderscores id))) eqn:Hres1.
    + exfalso. apply reserved_In in Hres1.
      assert (Hall : forallb (fun w =>
                 negb (String.eqb
                         (replaceDollar "zz"
                            (replaceUnderscores
                               ("x" +:+ capitalizeFirstLetter (slice1 w)))) w))
                (reservedWords ++ objectPrototypeKeys) = true)
        by (vm_compute; reflexivity).
      rewrite forallb_forall in Hall. specialize (Hall _ Hres1).
      apply negb_true_iff, String.eqb_neq in Hall. apply Hall.
      now rewrite E.
    + apply replacements_fixed in E as [-> ->]. now rewrite Hhead, Hres.
  - intros H. repeat (apply andb_true_iff in H as [H ?]).
    apply identifierScrub_fixed; now apply negb_true_iff.
Qed.

(** X2: the scrubber leaves an identifier as it is exactly when the
    identifier holds no run of underscores and no dollar sign, does not
    start with an underscore and is no key of [reserved]; these are the
    identifiers for which [needIdentifierScrub] is false, and their import
    directive is the bare [importc] or [importcpp]. *)
Theorem identifierScrub_fixed_iff id :
  (identifierScrub id = id <-> clean id = true)
  /\ needIdentifierScrub id = negb (clean id)
  /\ (clean id = true ->
      forall cpp,
        importDirective id cpp = "importc" +:+ (if cpp then "pp" else "")).
Proof.
  pose proof (identifierScrub_fixed_clean id) as Hiff.
  assert (Hneed : needIdentifierScrub id = negb (clean id)).
  { unfold needIdentifierScrub. destruct (clean id).
    - rewrite (proj2 Hiff eq_refl), String.eqb_refl. reflexivity.
    - destruct (String.eqb_spec id (identifierScrub id)) as [E|E];
        [|reflexivity].
      symmetry in E. apply Hiff in E. discriminate. }
  split; [exact Hiff|]. split; [exact Hneed|].
  intros Hclean cpp. unfold importDirective. rewrite Hneed, Hclean.
  now destruct cpp.
Qed.

(** X3: scrubbing a scrubbed name changes nothing exactly when the
    scrubbed name holds no run of underscores and no dollar sign any more,
    that is, when the identifier had at most one run and one dollar sign to
    replace. *)
Theorem identifierScrub_idempotent_iff id :
  identifierScrub (identifierScrub id) = identifierScrub id
  <-> hasUnderscoreRun (identifierScrub id) = false
      /\ hasDollar (identifierScrub id) = false.
Proof.
  rewrite identifierScrub_fixed_clean. unfold clean.
  rewrite scrubbed_not_reserved, scrubbed_head. cbn [negb].
  rewrite !andb_true_r, andb_true_iff, !negb_true_iff. reflexivity.
Qed.

(** ** Bit tests *)

Lemma toInt32_range n : (- 2 ^ 31 <= toInt32 n < 2 ^ 31)%Z.
Proof.
  unfold toInt32.
  pose proof (Z.mod_pos_bound (n + 2 ^ 31) (2 ^ 32) ltac:(lia)). lia.
Qed.

Lemma toInt32_small n : (- 2 ^ 31 <= n < 2 ^ 31)%Z -> toInt32 n = n.
Proof.
  intros H. unfold toInt32. rewrite Z.mod_small; lia.
Qed.

Lemma toInt32_testbit n i :
  (0 <= i < 32)%Z -> Z.testbit (toInt32 n) i = Z.testbit n i.
Proof.
  intros Hi.
  rewrite <- (Z.mod_pow2_bits_low (toInt32 n) 32 i) by lia.
  rewrite <- (Z.mod_pow2_bits_low n 32 i) by lia.
  f_equal. unfold toInt32.
  rewrite Zminus_mod_idemp_l. f_equal. lia.
Qed.

Lemma small_bits_high b i :
  (0 <= b < 2 ^ 31)%Z -> (31 <= i)%Z -> Z.testbit b i = false.
Proof.
  intros Hb Hi. rewrite <- (Z.mod_small b (2 ^ 31)) by lia.
  apply Z.mod_pow2_bits_high. lia.
Qed.

Lemma bitAnd_upper a b : (bitAnd a b < 2 ^ 31)%Z.
Proof.
  unfold bitAnd.
  pose proof (toInt32_range a) as Ha. pose proof (toInt32_range b) as Hb.
  set (x := toInt32 a) in *. set (y := toInt32 b) in *.
  assert (Hone : forall u v, (0 <= v < 2 ^ 31)%Z -> (Z.land u v < 2 ^ 31)%Z).
  { intros u v Hv.
    assert (E : Z.land u v = (Z.land u v mod 2 ^ 31)%Z).
    { apply Z.bits_inj'. intros i Hi.
      rewrite Z.testbit_mod_pow2 by lia.
      destruct (Z.ltb_spec i 31); [reflexivity|].
      rewrite Z.land_spec, (small_bits_high v i) by lia.
      now rewrite andb_false_r. }
    rewrite E. apply Z.mod_pos_bound. lia. }
  destruct (Z.neg_nonneg_cases y) as [Hy|Hy].
  - destruct (Z.neg_nonneg_cases x) as [Hx|Hx].
    + assert (Z.land x y < 0)%Z by (apply Z.land_neg; lia). lia.
    + rewrite Z.land_comm. apply Hone. lia.
  - apply Hone. lia.
Qed.

(** X4: for a mask [b] below 2^31 and any integer [a], [hasBit a b] holds
    exactly when every bit of [b] is set in [a]. *)
Theorem hasBit_all_bits_set (a b : Z) :
  (0 <= b < 2 ^ 31)%Z ->
  hasBit a b = true
  <-> forall i, (0 <= i < 31)%Z -> Z.testbit b i = true -> Z.testbit a i = true.
Proof.
  intros Hb. unfold hasBit, bitAnd. rewrite Z.eqb_eq, (toInt32_small b) by lia.
  split.
  - intros E i Hi Hbit. rewrite <- E, Z.land_spec in Hbit.
    apply andb_true_iff in Hbit as [Hbit _].
    now rewrite toInt32_testbit in Hbit by lia.
  - intros H. apply Z.bits_inj'. intros i Hi. rewrite Z.land_spec.
    destruct (Z.ltb_spec i 31).
    + rewrite toInt32_testbit by lia.
      destruct (Z.testbit b i) eqn:Hbit; [|apply andb_false_r].
      rewrite (H i) by (auto; lia). reflexivity.
    + rewrite (small_bits_high b i) by lia. apply andb_false_r.
Qed.

Lemma hasBit_all_bits_set_witness :
  (0 <= 6 < 2 ^ 31)%Z
  /\ (hasBit 14 6 = true
      <-> forall i, (0 <= i < 31)%Z -> Z.testbit 6 i = true ->
                    Z.testbit 14 i = true).
Proof.
  split; [lia|]. apply (hasBit_all_bits_set 14 6). lia.
Defined.

(** X5: the result of [&] is a signed 32-bit integer, so [hasBit a b] is
    false for every mask [b] from 2^31 on, whatever the bits of [a]:
    [hasBit(0xFFFFFFFF, 0x80000000)] is false. *)
Theorem hasBit_high_mask (a b : Z) : (2 ^ 31 <= b)%Z -> hasBit a b = false.
Proof.
  intros Hb. unfold hasBit. apply Z.eqb_neq.
  pose proof (bitAnd_upper a b). lia.
Qed.

Lemma hasBit_high_mask_witness :
  (2 ^ 31 <= 2147483648)%Z /\ hasBit 4294967295 2147483648 = false.
Proof.
  split; [lia|]. apply (hasBit_high_mask 4294967295 2147483648). lia.
Defined.

(** ** Debug output *)

Lemma isEmpty_append a b : isEmpty b = false -> isEmpty (a +:+ b) = false.
Proof. destruct a; [now rewrite append_nil|reflexivity]. Qed.

Lemma enumLoop_join Enum value tight :
  (forall entry, In entry Enum -> isEmpty (fst entry) = false) ->
  forall result,
    enumLoop Enum value tight result
    = match List.filter (selected value tight) Enum with
      | [] => result
      | picked =>
          (if isEmpty result then result else result +:+ "+")
          +:+ join "+" (map fst picked)
      end.
Proof.
  induction Enum as [|[key bit] Enum IH]; intros Hkeys result;
    [reflexivity|].
  assert (Hrest : forall entry, In entry Enum -> isEmpty (fst entry) = false)
    by (intros; apply Hkeys; now right).
  assert (Hkey : isEmpty key = false) by (apply (Hkeys (key, bit)); now left).
  cbn [enumLoop List.filter]. rewrite (IH Hrest). clear IH.
  unfold selected at 2, hasBit. cbn [snd].
  destruct bit as [bit|s]; [|reflexivity].
  destruct (Z.eqb bit 0); [reflexivity|]. cbn [negb andb].
  destruct (if tight then Z.eqb (bitAnd value bit) bit
            else negb (Z.eqb (bitAnd value bit) 0)); [|reflexivity].
  set (result' := (if isEmpty result then result else result +:+ "+") +:+ key).
  assert (Hne : isEmpty result' = false) by now apply isEmpty_append.
  rewrite Hne.
  destruct (List.filter (selected value tight) Enum) as [|e picked];
    [reflexivity|].
  subst result'. cbn [map join fst].
  now rewrite !append_assoc'.
Qed.

(** X6: when no property of the enum object has the empty name,
    [enumBitstring] gives the names of the selected properties, in the
    order of the object, joined by [+]; a property is selected when its
    value is a number other than 0 and, if [tight], [hasBit value bit]
    holds, else [value & bit] is not 0. *)
Theorem enumBitstring_joins_selected Enum value tight :
  (forall entry, In entry Enum -> isEmpty (fst entry) = false) ->
  enumBitstring Enum value tight
  = join "+" (map fst (List.filter (selected value tight) Enum)).
Proof.
  intros Hkeys. unfold enumBitstring. rewrite (enumLoop_join _ _ _ Hkeys).
  now destruct (List.filter (selected value tight) Enum).
Qed.

Lemma enumBitstring_joins_selected_witness :
  (forall entry, In entry sampleEnum -> isEmpty (fst entry) = false)
  /\ enumBitstring sampleEnum 1 true
     = join "+" (map fst (List.filter (selected 1 true) sampleEnum))
  /\ enumBitstring sampleEnum 1 true = "Read"
  /\ enumBitstring sampleEnum 1 false = "Read+Both".
Proof.
  assert (Hkeys : forall entry, In entry sampleEnum ->
                                isEmpty (fst entry) = false).
  { intros entry Hin. cbn in Hin.
    repeat (destruct Hin as [<-|Hin]; [reflexivity|]). destruct Hin. }
  split; [exact Hkeys|].
  split; [apply (enumBitstring_joins_selected sampleEnum 1 true Hkeys)|].
  split; reflexivity.
Defined.

(** X7: for the value 0 [enumBitstring] prints nothing, whatever the enum
    object, tight or not. *)
Theorem enumBitstring_zero Enum tight : enumBitstring Enum 0 tight = "".
Proof.
  unfold enumBitstring. induction Enum as [|[key bit] Enum IH]; [reflexivity|].
  cbn [enumLoop]. destruct bit as [bit|s]; [|exact IH].
  destruct (Z.eqb bit 0) eqn:Hbit; [exact IH|].
  change (bitAnd 0 bit) with 0%Z. destruct tight.
  - rewrite Z.eqb_sym, Hbit. exact IH.
  - exact IH.
Qed.

Lemma splitLines_cons str : exists line lines, splitLines str = line :: lines.
Proof.
  induction str as [|c rest (line & lines & E)]; cbn; [eauto|].
  destruct (Ascii.eqb c newlineChar); [eauto|]. rewrite E. eauto.
Qed.

Lemma join_splitLines str : join newline (splitLines str) = str.
Proof.
  induction str as [|c rest IH]; [reflexivity|]. cbn [splitLines].
  destruct (splitLines_cons rest) as (line & lines & E). rewrite E in *.
  destruct (Ascii.eqb_spec c newlineChar) as [->|Hc].
  - rewrite join_cons, IH. reflexivity.
  - destruct lines as [|line' lines].
    + cbn [join] in *. now rewrite IH.
    + rewrite join_cons in *. rewrite append_cons, IH. reflexivity.
Qed.

Lemma prefixLines_empty startAtLine ary : forall idx,
  prefixLines "" startAtLine idx ary = ary.
Proof.
  induction ary as [|line ary IH]; intros idx; cbn; [reflexivity|].
  rewrite IH. now destruct (startAtLine <=? idx)%nat.
Qed.

(** X8: with the empty prefix [linePrefix] gives the string back,
    whatever the first line to prefix: joining the lines of a string with
    newlines restores the string. *)
Theorem linePrefix_empty_prefix str startAtLine :
  linePrefix str "" startAtLine = str.
Proof.
  unfold linePrefix. rewrite prefixLines_empty. apply join_splitLines.
Qed.

Lemma hasNewline_append a b :
  hasNewline (a +:+ b) = hasNewline a || hasNewline b.
Proof.
  induction a as [|c a IH]; [reflexivity|].
  rewrite append_cons. cbn [hasNewline]. now rewrite IH, orb_assoc.
Qed.

Lemma splitLines_plain str : hasNewline str = false -> splitLines str = [str].
Proof.
  induction str as [|c rest IH]; [reflexivity|]. cbn.
  destruct (Ascii.eqb c newlineChar); [discriminate|]. cbn.
  intros H. now rewrite (IH H).
Qed.

Lemma splitLines_append line rest :
  hasNewline line = false ->
  splitLines (line +:+ newline +:+ rest) = line :: splitLines rest.
Proof.
  induction line as [|c line IH]; [reflexivity|].
  rewrite append_cons. cbn [hasNewline splitLines].
  destruct (Ascii.eqb c newlineChar); [discriminate|]. cbn [orb].
  intros H. now rewrite (IH H).
Qed.

Lemma splitLines_join lines :
  lines <> [] -> Forall (fun line => hasNewline line = false) lines ->
  splitLines (join newline lines) = lines.
Proof.
  induction lines as [|line lines IH]; [congruence|]. intros _ Hall.
  inversion Hall as [|? ? Hline Hrest]; subst.
  destruct lines as [|line' lines]; [now apply splitLines_plain|].
  rewrite join_cons, (splitLines_append _ _ Hline). f_equal.
  apply IH; [congruence|auto].
Qed.

Lemma splitLines_no_newline str :
  Forall (fun line => hasNewline line = false) (splitLines str).
Proof.
  induction str as [|c rest IH]; [repeat constructor|]. cbn.
  destruct (Ascii.eqb c newlineChar) eqn:Hc; [now constructor|].
  destruct (splitLines rest) as [|line lines];
    [repeat constructor; cbn; now rewrite Hc|].
  inversion IH; subst. constructor; [cbn; now rewrite Hc|auto].
Qed.

Lemma prefixLines_no_newline prefix startAtLine ary :
  hasNewline prefix = false ->
  Forall (fun line => hasNewline line = false) ary ->
  forall idx,
    Forall (fun line => hasNewline line = false)
           (prefixLines prefix startAtLine idx ary).
Proof.
  intros Hp. induction 1 as [|line ary Hline Hall IH]; intros idx; cbn;
    constructor; auto.
  destruct (startAtLine <=? idx)%nat; [|auto].
  now rewrite hasNewline_append, Hp, Hline.
Qed.

Lemma prefixLines_lookup prefix startAtLine ary : forall idx i line,
  ary !! i = Some line ->
  prefixLines prefix startAtLine idx ary !! i
  = Some (if (startAtLine <=? idx + i)%nat then prefix +:+ line else line).
Proof.
  induction ary as [|x ary IH]; intros idx i line; [discriminate|].
  destruct i as [|i]; cbn [prefixLines lookup list_lookup].
  - intros [= ->]. now rewrite Nat.add_0_r.
  - intros H.
    change (prefixLines prefix startAtLine (S idx) ary !! i
            = Some (if (startAtLine <=? idx + S i)%nat
                    then prefix +:+ line else line)).
    rewrite (IH (S idx) i line H).
    now replace (S idx + i) with (idx + S i) by lia.
Qed.

Lemma prefixLines_length prefix startAtLine ary : forall idx,
  length (prefixLines prefix startAtLine idx ary) = length ary.
Proof. induction ary; intros; cbn; auto. Qed.

Lemma linePrefix_splitLines str prefix startAtLine :
  hasNewline prefix = false ->
  splitLines (linePrefix str prefix startAtLine)
  = prefixLines prefix startAtLine 0 (splitLines str).
Proof.
  intros Hp. unfold linePrefix. apply splitLines_join.
  - destruct (splitLines_cons str) as (line & lines & ->). cbn. congruence.
  - apply prefixLines_no_newline; [exact Hp|apply splitLines_no_newline].
Qed.

(** X9: when the prefix holds no newline, the result of [linePrefix] has
    as many lines as the string, and its line number [i] is line [i] of
    the string, with the prefix before it from line [startAtLine] on. *)
Theorem linePrefix_lines str prefix startAtLine :
  hasNewline prefix = false ->
  length (splitLines (linePrefix str prefix startAtLine))
  = length (splitLines str)
  /\ forall i line,
       splitLines str !! i = Some line ->
       splitLines (linePrefix str prefix startAtLine) !! i
       = Some (if (startAtLine <=? i)%nat then prefix +:+ line else line).
Proof.
  intros Hp. rewrite (linePrefix_splitLines _ _ _ Hp).
  split; [apply prefixLines_length|].
  intros i line H. now rewrite (prefixLines_lookup _ _ _ 0 i line H).
Qed.

Lemma linePrefix_lines_witness :
  hasNewline "# " = false
  /\ length (splitLines (linePrefix ("a" +:+ newline +:+ "b") "# " 1))
     = length (splitLines ("a" +:+ newline +:+ "b"))
  /\ forall i line,
       splitLines ("a" +:+ newline +:+ "b") !! i = Some line ->
       splitLines (linePrefix ("a" +:+ newline +:+ "b") "# " 1) !! i
       = Some (if (1 <=? i)%nat then "# " +:+ line else line).
Proof.
  split; [reflexivity|].
  apply (linePrefix_lines ("a" +:+ newline +:+ "b") "# " 1). reflexivity.
Defined.

Lemma splitLines_prefix prefix str line lines :
  hasNewline prefix = false -> splitLines str = line :: lines ->
  splitLines (prefix +:+ str) = (prefix +:+ line) :: lines.
Proof.
  intros Hp E. induction prefix as [|c prefix IH]; [exact E|].
  rewrite append_cons. cbn [splitLines hasNewline] in *.
  destruct (Ascii.eqb c newlineChar); [discriminate|].
  now rewrite (IH Hp).
Qed.

(** X10: without [--debugVerbose] the epilogue is empty; with it, the
    epilogue has the lines of the inspected text, the first one after a
    comma and every later one behind the comment prefix, so that the
    epilogue stays inside the comment it is added to. *)
Theorem debugVerboseEpilogue_comment inspected :
  debugVerboseEpilogue false inspected = ""
  /\ forall i line,
       splitLines inspected !! i = Some line ->
       splitLines (debugVerboseEpilogue true inspected) !! i
       = Some (match i with
               | 0 => ", " +:+ line
               | S _ => "#         " +:+ line
               end).
Proof.
  split; [reflexivity|]. intros i line H.
  unfold debugVerboseEpilogue. cbn [negb].
  pose proof (linePrefix_splitLines inspected "#         " 1 eq_refl) as Hsplit.
  pose proof (prefixLines_lookup "#         " 1 _ 0 i line H) as Hi.
  rewrite <- Hsplit in Hi.
  destruct (splitLines_cons (linePrefix inspected "#         " 1))
    as (l0 & ls & E).
  rewrite (splitLines_prefix ", " _ l0 ls eq_refl E).
  rewrite E in Hi. destruct i as [|i].
  - cbn in Hi. injection Hi as ->. reflexivity.
  - exact Hi.
Qed.

(** ** What a class depends on *)

Lemma in_concatAll_map {X : Type} (f : X -> list string) (l : list X) k :
  In k (concatAll (map f l)) <-> exists x, In x l /\ In k (f x).
Proof.
  unfold concatAll. rewrite <- flat_map_concat_map. apply in_flat_map.
Qed.

Lemma dependsIdentifier_In i k :
  In k (dependsIdentifier i) <-> id_type i = ClassType k.
Proof.
  unfold dependsIdentifier. destruct (id_type i); cbn; split; intros H;
    try congruence; try tauto.
  - destruct H as [->|[]]. reflexivity.
  - left. congruence.
Qed.

Lemma dependsParams_In ps k :
  In k (concatAll (map dependsIdentifier ps))
  <-> exists p, In p ps /\ id_type p = ClassType k.
Proof.
  rewrite in_concatAll_map. split; intros (p & Hp & H); exists p;
    (split; [exact Hp|]); now apply dependsIdentifier_In.
Qed.

(** X11: the keys a class depends on are exactly the class types of its
    fields, of the parameters of its constructors (also when the class is
    abstract and prints none), of the parameters and results of its
    methods, and the name of its parent; a literal type adds no key. *)
Theorem dependsClass_mentions c k :
  In k (dependsClass c)
  <-> (exists f, In f (cg_fields c) /\ id_type f = ClassType k)
      \/ (exists constructor p,
            In constructor (cg_constructors c)
            /\ In p (ctor_params constructor) /\ id_type p = ClassType k)
      \/ (exists method,
            In method (cg_methods c)
            /\ ((exists p, In p (sig_params method)
                           /\ id_type p = ClassType k)
                \/ sig_returnType method = ClassType k))
      \/ (exists parent, cg_inherit c = Some parent /\ cg_name parent = k).
Proof.
  unfold dependsClass. rewrite in_app_iff.
  unfold concatAll at 1. cbn [concat]. rewrite app_nil_r, !in_app_iff.
  rewrite dependsParams_In, !in_concatAll_map.
  assert (Hc : (exists x, In x (cg_constructors c)
                          /\ In k (dependsConstructor x))
               <-> exists constructor p,
                     In constructor (cg_constructors c)
                     /\ In p (ctor_params constructor)
                     /\ id_type p = ClassType k).
  { unfold dependsConstructor. split.
    - intros (x & Hx & H). apply dependsParams_In in H as (p & Hp & H). eauto.
    - intros (x & p & Hx & Hp & H). exists x. split; [exact Hx|].
      apply dependsParams_In. eauto. }
  assert (Hm : (exists x, In x (cg_methods c) /\ In k (dependsSignature x))
               <-> exists method,
                     In method (cg_methods c)
                     /\ ((exists p, In p (sig_params method)
                                    /\ id_type p = ClassType k)
                         \/ sig_returnType method = ClassType k)).
  { unfold dependsSignature. split.
    - intros (x & Hx & H). exists x. split; [exact Hx|].
      apply in_app_iff in H as [H|H].
      + left. now apply dependsParams_In.
      + right. destruct (sig_returnType x); cbn in H; [tauto|].
        destruct H as [->|[]]. reflexivity.
    - intros (x & Hx & H). exists x. split; [exact Hx|].
      apply in_app_iff. destruct H as [H|H].
      + left. now apply dependsParams_In.
      + right. rewrite H. now left. }
  assert (Hp : In k match cg_inherit c with
                    | Some parent => [cg_name parent]
                    | None => []
                    end
               <-> exists parent, cg_inherit c = Some parent
                                  /\ cg_name parent = k).
  { destruct (cg_inherit c) as [parent|]; cbn; split.
    - intros [H|[]]. eauto.
    - intros (p & [= <-] & H). now left.
    - tauto.
    - intros (p & H & _). discriminate. }
  rewrite Hc, Hm, Hp. tauto.
Qed.

(** X12: [chainHasField] finds a name exactly when the class or one of its
    ancestors has a field of that name. *)
Theorem chainHasField_chain : forall c name,
  chainHasField c name = true
  <-> exists ancestor f,
        In ancestor (chain c) /\ In f (cg_fields ancestor) /\ id_name f = name.
Proof.
  fix IH 1. intros [n a inherit fs cs ms i v] name.
  cbn [chainHasField chain]. rewrite orb_true_iff, existsb_exists.
  split.
  - intros [(f & Hf & E)|H].
    + apply String.eqb_eq in E.
      exists (Build_ClassGen n a inherit fs cs ms i v), f.
      split; [now left|auto].
    + destruct inherit as [parent|]; [|discriminate].
      apply IH in H as (anc & f & Hanc & Hf & E).
      exists anc, f. split; [now right|auto].
  - intros (anc & f & [<-|Hanc] & Hf & E).
    + left. exists f. split; [exact Hf|now apply String.eqb_eq].
    + right. destruct inherit as [parent|]; [|destruct Hanc].
      apply IH. eauto.
Qed.

(** ** What escapes the vendor *)

(** X13: whatever [classGen], [variableGen] and [functionGen] throw is a
    [GenConstructFail] (an [UnusableType] is caught on the way or turned
    into one) or the [TypeError] of reading the name of a heritage
    expression that resolves to no symbol; it is a [GenConstructFail] when
    every heritage expression resolves.  The loop over the symbols in scope
    catches every [GenConstructFail]: the only exception that ends it is
    that [TypeError], and it is thrown only when a heritage expression does
    not resolve or the type of a class symbol in scope has no symbol. *)
Theorem only_refusals_escape oracle fuel :
  let rec := classGen oracle fuel in
  (forall symbol abstract st e st',
     rec symbol abstract st = Some (Throw e, st') ->
     escapes e /\ (resolved oracle -> refusal e))
  /\ (forall sym tsType st e st',
        variableGen rec sym tsType st = Some (Throw e, st') ->
        escapes e /\ (resolved oracle -> refusal e))
  /\ (forall sym st e st',
        functionGen rec sym st = Some (Throw e, st') ->
        escapes e /\ (resolved oracle -> refusal e))
  /\ (forall scope st e st',
        generate oracle fuel scope st = Some (Throw e, st') ->
        fatal e /\ ~ (resolved oracle /\ wellTyped oracle scope)).
Proof.
  intros rec.
  assert (Hrec : forall symbol abstract,
            keeps allowed escapes (rec symbol abstract))
    by (intros; apply classGen_keeps, allowed_stable).
  assert (Hres : resolved oracle -> forall symbol abstract,
            keeps allowed refusal (rec symbol abstract))
    by (intros; apply classGen_keeps_resolved;
        [apply allowed_stable | assumption]).
  split; [|split; [|split]].
  - intros symbol abstract st e st' H. split.
    + now apply (Hrec _ _ _ _ _ H).
    + intros Hr. now apply (Hres Hr _ _ _ _ _ H).
  - intros sym tsType st e st' H. split.
    + assert (K : keeps allowed escapes (variableGen rec sym tsType))
        by (apply keeps_variableGen; auto using escapes_refusal).
      now apply (K _ _ _ H).
    + intros Hr.
      assert (K : keeps allowed refusal (variableGen rec sym tsType))
        by (apply keeps_variableGen; auto).
      now apply (K _ _ _ H).
  - intros sym st e st' H. split.
    + assert (K : keeps allowed escapes (functionGen rec sym))
        by (apply keeps_functionGen;
            auto using escapes_refusal, allowed_stable).
      now apply (K _ _ _ H).
    + intros Hr.
      assert (K : keeps allowed refusal (functionGen rec sym))
        by (apply keeps_functionGen; auto using allowed_stable).
      now apply (K _ _ _ H).
  - intros scope st e st' H. split.
    + now apply (generate_keeps oracle allowed fuel scope allowed_stable
                   _ _ _ H).
    + intros [Hr Hty].
      exact (proj2 (generate_keeps_resolved oracle allowed fuel scope
                      allowed_stable Hr Hty _ _ _ H) e eq_refl).
Qed.

(** [class A extends mk() {}]: the [TypeError] leaves [classGen], with the
    class marked invalid, and ends the loop over the symbols in scope. *)
Example unresolved_heritage_is_fatal :
  classGen oracleUnresolved 1 0 false initialState
  = Some (Throw (JsError "Cannot read property 'name' of undefined"),
          overwrite initialState "A" (setInvalid (newClassGen "A" false)))
  /\ generate oracleUnresolved 1 [0] initialState
     = Some (Throw (JsError "Cannot read property 'name' of undefined"),
             overwrite initialState "A" (setInvalid (newClassGen "A" false))).
Proof. split; vm_compute; reflexivity. Qed.

(** X14: when the names of the symbols lie in a finite set, the bound is
    above its size, every heritage expression resolves to a symbol and the
    type of every class symbol in scope has a symbol, the loop over the
    symbols in scope comes to its end with the generators: no failure of a
    single symbol ends it. *)
Theorem generate_succeeds oracle (names : gset string) fuel scope st :
  (forall symbol, sym_name (oracle symbol) ∈ names) ->
  size names < fuel ->
  resolved oracle ->
  wellTyped oracle scope ->
  exists gens st', generate oracle fuel scope st = Some (Ok gens, st').
Proof.
  intros Hnames Hfuel Hres Hty.
  destruct (generate_terminates oracle names Hnames fuel scope st Hfuel)
    as (r & st' & H).
  destruct r as [gens|e]; [eauto|]. exfalso.
  exact (proj2 (generate_keeps_resolved oracle allowed fuel scope
                  allowed_stable Hres Hty _ _ _ H) e eq_refl).
Qed.

Lemma generate_succeeds_witness :
  (forall symbol, sym_name (oracleAB symbol) ∈ ({["A"; "B"]} : gset string))
  /\ size ({["A"; "B"]} : gset string) < 3
  /\ resolved oracleAB
  /\ wellTyped oracleAB [0; 1]
  /\ exists gens st',
       generate oracleAB 3 [0; 1] initialState = Some (Ok gens, st').
Proof.
  assert (H1 : forall symbol,
            sym_name (oracleAB symbol) ∈ ({["A"; "B"]} : gset string)).
  { intros [|symbol]; cbn; set_solver. }
  assert (H2 : size ({["A"; "B"]} : gset string) < 3) by (vm_compute; lia).
  assert (H3 : resolved oracleAB).
  { intros [|symbol]; cbn; discriminate. }
  assert (H4 : wellTyped oracleAB [0; 1]).
  { intros [|symbol] _ _; cbn; discriminate. }
  split; [exact H1|]. split; [exact H2|]. split; [exact H3|].
  split; [exact H4|].
  apply (generate_succeeds oracleAB {["A"; "B"]} 3 [0; 1] initialState
           H1 H2 H3 H4).
Defined.

(** ** What the vendor builds *)

Section Shapes.

Variable rec : SymId -> bool -> M ClassGen.

Lemma paramsGen_names syms : forall st ps st',
  paramsGen rec syms st = Some (Ok ps, st') ->
  map id_name ps = map par_name syms.
Proof.
  unfold paramsGen. induction syms as [|sym syms IH]; intros st ps st' H;
    cbn in H.
  - run_end H. reflexivity.
  - run_bind H as p st1 H1 H2; [discriminate|].
    run_bind H2 as ps' st2 H2 H3; [discriminate|]. run_end H3.
    run_bind H1 as t st3 H1 H4; [discriminate|]. run_end H4.
    cbn. f_equal. exact (IH _ _ _ H2).
Qed.

Lemma signatureGen_shape name callSignature st gen st' :
  signatureGen rec name callSignature st = Some (Ok gen, st') ->
  sig_name gen = name /\ sig_owner gen = None
  /\ map id_name (sig_params gen) = map par_name (cs_parameters callSignature).
Proof.
  unfold signatureGen. intros H.
  run_bind H as ps st1 H1 H2; [discriminate|].
  run_bind H2 as t st2 H2 H3; [discriminate|].
  run_end H3. cbn. apply paramsGen_names in H1. auto.
Qed.

Lemma functionLoop_shape sym callSignatures : forall counter result st res st',
  functionLoop rec sym callSignatures counter result st = Some (Ok res, st') ->
  exists more,
    res = result ++ more /\ length more <= length callSignatures
    /\ Forall (fun s =>
                 sig_name s = sym_name sym /\ sig_owner s = None
                 /\ exists callSignature,
                      In callSignature callSignatures
                      /\ map id_name (sig_params s)
                         = map par_name (cs_parameters callSignature))
              more.
Proof.
  induction callSignatures as [|callSignature rest IH];
    intros counter result st res st' H; cbn in H.
  - run_end H. exists []. rewrite app_nil_r.
    repeat split; [cbn; lia|constructor].
  - run_bind H as result1 st1 H1 H2; [discriminate|].
    apply IH in H2 as (more & -> & Hlen & Hall).
    assert (Hall' : Forall (fun s =>
                      sig_name s = sym_name sym /\ sig_owner s = None
                      /\ exists cs,
                           In cs (callSignature :: rest)
                           /\ map id_name (sig_params s)
                              = map par_name (cs_parameters cs))
                      more).
    { eapply List.Forall_impl; [|exact Hall].
      intros s (Hn & Ho & cs & Hcs & Hps). eauto 8 using in_cons. }
    run_try H1 as a st2 H1 E.
    + injection E as ->. run_bind H1 as gen st2 H1 H3; [discriminate|].
      run_end H3. apply signatureGen_shape in H1 as (Hn & Ho & Hps).
      exists (gen :: more). rewrite <- app_assoc.
      repeat split; [cbn; lia|].
      constructor; [|exact Hall']. eauto 8 using in_eq.
    + destruct e; try (run_end E).
      run_bind E as u st3 E1 E2; [discriminate|]. run_end E2.
      exists more. repeat split; [cbn; lia|exact Hall'].
Qed.

Lemma functionGen_shape sym st res st' :
  functionGen rec sym st = Some (Ok res, st') ->
  blacklisted "variable" (sym_name sym) = false
  /\ length res <= length (sym_callSignatures sym)
  /\ Forall (fun s =>
               sig_name s = sym_name sym /\ sig_owner s = None
               /\ exists callSignature,
                    In callSignature (sym_callSignatures sym)
                    /\ map id_name (sig_params s)
                       = map par_name (cs_parameters callSignature))
            res.
Proof.
  unfold functionGen. destruct (blacklisted "variable" (sym_name sym));
    [intros H; run_end H|].
  intros H. apply functionLoop_shape in H as (more & -> & Hlen & Hall).
  auto.
Qed.

Lemma variableGen_shape sym tsType st v st' :
  variableGen rec sym tsType st = Some (Ok v, st') ->
  id_name v = sym_name sym /\ blacklisted "variable" (sym_name sym) = false.
Proof.
  unfold variableGen. intros H. run_try H as a st1 H E.
  - injection E as ->. destruct (blacklisted "variable" (sym_name sym));
      [run_end H|].
    run_bind H as t st1 H1 H2; [discriminate|]. run_end H2. auto.
  - destruct e; run_end E.
Qed.

Lemma methodLoop_shape sym member callSignatures : forall counter ms st res st',
  methodLoop rec sym member callSignatures counter ms st = Some (Ok res, st') ->
  exists more,
    res = ms ++ more
    /\ Forall (fun s => sig_name s = mem_name member) more.
Proof.
  induction callSignatures as [|callSignature rest IH];
    intros counter ms st res st' H; cbn in H.
  - run_end H. exists []. rewrite app_nil_r. split; [reflexivity|constructor].
  - run_bind H as ms1 st1 H1 H2; [discriminate|].
    apply IH in H2 as (more & -> & Hall).
    run_try H1 as a st2 H1 E.
    + injection E as ->. run_bind H1 as gen st2 H1 H3; [discriminate|].
      run_end H3. apply signatureGen_shape in H1 as (Hname & _).
      exists (gen :: more). rewrite <- app_assoc. split; [reflexivity|].
      now constructor.
    + destruct e; try (run_end E).
      run_bind E as u st3 E1 E2; [discriminate|]. run_end E2.
      exists more. split; [reflexivity|exact Hall].
Qed.

Lemma memberStep_origin sym inherit member l st l' st' :
  memberStep rec sym inherit member l st = Some (Ok l', st') ->
  (forall f, In f (fields l') -> In f (fields l) \/ fieldFrom sym member f)
  /\ (forall s, In s (methods l') ->
                In s (methods l) \/ methodFrom sym member s).
Proof.
  unfold memberStep, fieldFrom, methodFrom. intros H.
  destruct (fl_Constructor (mem_flags member)) eqn:Hc.
  { apply constructorLoop_locals in H as (-> & -> & _). auto. }
  destruct (fl_Property (mem_flags member)) eqn:Hp.
  { run_try H as a st1 H E.
    - injection E as ->.
      destruct (blacklisted "field" _) eqn:Hb; cbv iota in H.
      { run_bind H as u st1 H1 H2; [discriminate|]. run_end H2. auto. }
      destruct (negb _); cbv iota in H; [|run_end H; auto].
      run_bind H as t st1 H1 H2; [discriminate|]. run_end H2. cbn.
      split; [|auto]. intros f Hf. apply in_app_iff in Hf as [Hf|[<-|[]]];
        [now left|right]. auto.
    - destruct e; try (run_end E).
      run_bind E as u st2 E1 E2; [discriminate|]. run_end E2. auto. }
  destruct (fl_Method (mem_flags member)) eqn:Hm.
  { destruct (blacklisted "field" _) eqn:Hb.
    { run_bind H as u st1 H1 H2; [discriminate|]. run_end H2. auto. }
    run_bind H as ms st1 H1 H2; [discriminate|]. run_end H2. cbn.
    apply methodLoop_shape in H1 as (more & -> & Hall).
    split; [auto|]. intros s Hs. apply in_app_iff in Hs as [Hs|Hs];
      [now left|right].
    rewrite List.Forall_forall in Hall. rewrite (Hall s Hs). auto. }
  run_bind H as u st1 H1 H2; [discriminate|]. run_end H2. auto.
Qed.

Lemma membersLoop_origin sym inherit members : forall l st l' st',
  membersLoop rec sym inherit members l st = Some (Ok l', st') ->
  (forall f, In f (fields l') ->
             In f (fields l)
             \/ exists member, In member members /\ fieldFrom sym member f)
  /\ (forall s, In s (methods l') ->
                In s (methods l)
                \/ exists member, In member members /\ methodFrom sym member s).
Proof.
  induction members as [|member rest IH]; intros l st l' st' H; cbn in H.
  - run_end H. auto.
  - run_bind H as l1 st1 H1 H2; [discriminate|].
    apply memberStep_origin in H1 as [Hf1 Hm1].
    apply IH in H2 as [Hf2 Hm2]. split.
    + intros f Hf. destruct (Hf2 f Hf) as [Hin|(m & Hm & Hfrom)].
      * destruct (Hf1 f Hin) as [?|?]; [auto|]. right. exists member.
        split; [now left|assumption].
      * right. exists m. split; [now right|assumption].
    + intros s Hs. destruct (Hm2 s Hs) as [Hin|(m & Hm & Hfrom)].
      * destruct (Hm1 s Hin) as [?|?]; [auto|]. right. exists member.
        split; [now left|assumption].
      * right. exists m. split; [now right|assumption].
Qed.

End Shapes.

(** X15: [functionGen] refuses a function whose name is blacklisted and
    leaves the state as it was; otherwise every signature it returns bears
    the name of the function, has no owner (it prints as a free [proc]),
    and has the parameter names of one of the call signatures, and there
    are at most as many as call signatures. *)
Theorem functionGen_signatures rec sym st :
  (blacklisted "variable" (sym_name sym) = true ->
   functionGen rec sym st
   = Some (Throw (GenConstructFail
                    ("Refusing to translate blacklisted function "
                     +:+ sym_name sym)), st))
  /\ forall res st',
       functionGen rec sym st = Some (Ok res, st') ->
       blacklisted "variable" (sym_name sym) = false
       /\ length res <= length (sym_callSignatures sym)
       /\ Forall (fun s =>
                    sig_name s = sym_name sym /\ sig_owner s = None
                    /\ exists callSignature,
                         In callSignature (sym_callSignatures sym)
                         /\ map id_name (sig_params s)
                            = map par_name (cs_parameters callSignature))
                 res.
Proof.
  split.
  - intros Hb. unfold functionGen. now rewrite Hb.
  - intros res st' H. exact (functionGen_shape rec sym st res st' H).
Qed.

Lemma classGen_fresh_allowed oracle fuel symbol abstract st c st' :
  classGen oracle fuel symbol abstract st = Some (Ok c, st') ->
  classes st !! sym_name (oracle symbol) = None ->
  blacklisted "class" (sym_name (oracle symbol)) = false.
Proof.
  intros H Hnone. destruct fuel as [|fuel]; [discriminate|].
  destruct (blacklisted "class" (sym_name (oracle symbol))) eqn:Hb;
    [|reflexivity].
  cbn in H. unfold classGenBody, bind, getClass in H.
  rewrite Hnone, Hb in H. discriminate.
Qed.

(** X16: a class that [classGen] builds afresh bears the name of the
    symbol and the [abstract] flag of the call, is inited, valid and stored
    under its name, which is not blacklisted; it owns its constructors and
    methods; every method comes from a method member of the symbol and
    every field from a property member, none of them blacklisted; and its
    parent, if the symbol has heritage clauses, is an inited class that
    bears the name of the heritage symbol. *)
Theorem classGen_builds oracle fuel symbol abstract st c st' :
  let sym := oracle symbol in
  let name := sym_name sym in
  classGen oracle fuel symbol abstract st = Some (Ok c, st') ->
  classes st !! name = None ->
  cg_name c = name /\ cg_abstract c = abstract
  /\ cg_inited c = true /\ cg_invalid c = false
  /\ classes st' !! name = Some c
  /\ blacklisted "class" name = false
  /\ Forall (fun k => ctor_owner k = Some name) (cg_constructors c)
  /\ Forall (fun s => sig_owner s = Some name
                      /\ exists member, In member (sym_members sym)
                                        /\ methodFrom sym member s)
            (cg_methods c)
  /\ Forall (fun f => exists member, In member (sym_members sym)
                                     /\ fieldFrom sym member f)
            (cg_fields c)
  /\ match sym_heritage sym with
     | Some inheritSymbol =>
         exists parent,
           cg_inherit c = Some parent /\ cg_inited parent = true
           /\ (forall building, Good building st ->
                 cg_name parent = sym_name (oracle inheritSymbol))
     | None => cg_inherit c = None
     end.
Proof.
  intros sym name H Hnone.
  pose proof (classGen_fresh_allowed _ _ _ _ _ _ _ H Hnone) as Hb.
  destruct fuel as [|fuel]; [discriminate|].
  destruct (classGen_fresh_run _ _ _ _ _ _ _ H Hnone Hb)
    as (stk & _ & [(e & E & _)|(inherit & st2 & l & E & -> & Hparent & Hloop)]);
    [discriminate|].
  injection E as ->. cbn.
  apply membersLoop_origin in Hloop as [Hfields Hmethods].
  assert (Hinherit :
            match sym_heritage sym with
            | Some inheritSymbol =>
                exists parent,
                  inherit = Some parent /\ cg_inited parent = true
                  /\ (forall building, Good building st ->
                        cg_name parent = sym_name (oracle inheritSymbol))
            | None => inherit = None
            end).
  { fold sym in Hparent. destruct (sym_heritage sym) as [inheritSymbol|];
      [|tauto].
    destruct Hparent as (parent & -> & Hrun & Hinited).
    exists parent. split; [reflexivity|]. split; [exact Hinited|].
    intros building HG.
    destruct (classGen_spec oracle fuel _ _ _ _ _ Hrun) as (_ & P & R & _).
    destruct (R parent eq_refl) as [Hstored _].
    apply (Good_start _ _ name abstract) in HG.
    destruct (P _ HG _ _ Hstored) as (Hname & _). exact Hname. }
  repeat split; try reflexivity; try assumption.
  - apply lookup_insert_eq.
  - apply List.Forall_forall. intros k Hk.
    apply in_map_iff in Hk as (k0 & <- & _). reflexivity.
  - apply List.Forall_forall. intros s Hs.
    apply in_map_iff in Hs as (s0 & <- & Hs0). split; [reflexivity|].
    destruct (Hmethods s0 Hs0) as [[]|Hfrom]. exact Hfrom.
  - apply List.Forall_forall. intros f Hf.
    destruct (Hfields f Hf) as [[]|Hfrom]. exact Hfrom.
Qed.

Lemma classGen_builds_witness :
  exists c st',
    classGen oracleFields 2 1 false initialState = Some (Ok c, st')
    /\ classes initialState !! sym_name (oracleFields 1) = None
    /\ cg_name c = sym_name (oracleFields 1) /\ cg_abstract c = false
    /\ cg_inited c = true /\ cg_invalid c = false
    /\ classes st' !! sym_name (oracleFields 1) = Some c
    /\ blacklisted "class" (sym_name (oracleFields 1)) = false
    /\ Forall (fun k => ctor_owner k = Some (sym_name (oracleFields 1)))
              (cg_constructors c)
    /\ Forall (fun s => sig_owner s = Some (sym_name (oracleFields 1))
                        /\ exists member,
                             In member (sym_members (oracleFields 1))
                             /\ methodFrom (oracleFields 1) member s)
              (cg_methods c)
    /\ Forall (fun f => exists member,
                          In member (sym_members (oracleFields 1))
                          /\ fieldFrom (oracleFields 1) member f)
              (cg_fields c)
    /\ match sym_heritage (oracleFields 1) with
       | Some inheritSymbol =>
           exists parent,
             cg_inherit c = Some parent /\ cg_inited parent = true
             /\ (forall building, Good building initialState ->
                   cg_name parent = sym_name (oracleFields inheritSymbol))
       | None => cg_inherit c = None
       end.
Proof.
  eexists. eexists. split; [vm_compute; reflexivity|].
  split; [reflexivity|].
  eapply (classGen_builds oracleFields 2 1 false initialState);
    [vm_compute; reflexivity|reflexivity].
Defined.

(** X17: when no symbol is named like a key of [Object.prototype], a
    class type that [typeGen] returns is the name of the symbol of the
    type, which has the class flag and none of the four primitive flags;
    the class of that name is in the table afterwards and is not invalid.
    A type with a primitive flag gives its literal and leaves the state as
    it was. *)
Theorem typeGen_class_reference oracle fuel tsType st t st' building :
  ownNames oracle ->
  Good building st ->
  typeGen (classGen oracle fuel) tsType st = Some (Ok t, st') ->
  match t with
  | ClassType name =>
      ty_Number tsType = false /\ ty_String tsType = false
      /\ ty_Void tsType = false /\ ty_Boolean tsType = false
      /\ ty_Class tsType = true
      /\ exists symbol c,
           ty_symbol tsType = Some symbol
           /\ name = sym_name (oracle symbol)
           /\ classes st' !! name = Some c /\ cg_name c = name
           /\ cg_invalid c = false
  | LiteralTypeGen literal =>
      st' = st
      /\ literal = (if ty_Number tsType then "float"
                    else if ty_String tsType then "cstring"
                    else if ty_Void tsType then "void" else "bool")
  end.
Proof.
  intros _ HG H. unfold typeGen in H.
  destruct (ty_Number tsType); [run_end H; auto|].
  destruct (ty_String tsType); [run_end H; auto|].
  destruct (ty_Void tsType); [run_end H; auto|].
  destruct (ty_Boolean tsType); [run_end H; auto|].
  destruct (ty_Class tsType); [|run_end H].
  destruct (ty_symbol tsType) as [symbol|]; [|run_end H].
  run_bind H as c st1 H1 H2; [discriminate|]. run_end H2.
  destruct (classGen_spec oracle fuel _ _ _ _ _ H1) as (_ & P & R & _).
  destruct (R c eq_refl) as [Hstored Hvalid].
  destruct (P _ HG _ _ Hstored) as (Hname & _).
  repeat split. exists symbol, c. rewrite Hname. auto.
Qed.

Lemma typeGen_class_reference_witness :
  exists t st',
    ownNames oracleSelf
    /\ Good (fun _ => False) initialState
    /\ typeGen (classGen oracleSelf 2) (classTy 0 "Node") initialState
       = Some (Ok t, st')
    /\ match t with
       | ClassType name =>
           ty_Number (classTy 0 "Node") = false
           /\ ty_String (classTy 0 "Node") = false
           /\ ty_Void (classTy 0 "Node") = false
           /\ ty_Boolean (classTy 0 "Node") = false
           /\ ty_Class (classTy 0 "Node") = true
           /\ exists symbol c,
                ty_symbol (classTy 0 "Node") = Some symbol
                /\ name = sym_name (oracleSelf symbol)
                /\ classes st' !! name = Some c /\ cg_name c = name
                /\ cg_invalid c = false
       | LiteralTypeGen literal =>
           st' = initialState
           /\ literal = (if ty_Number (classTy 0 "Node") then "float"
                         else if ty_String (classTy 0 "Node") then "cstring"
                         else if ty_Void (classTy 0 "Node") then "void"
                         else "bool")
       end.
Proof.
  eexists. eexists. split; [intros symbol; reflexivity|].
  split; [apply Good_initialState|].
  split; [vm_compute; reflexivity|].
  eapply (typeGen_class_reference oracleSelf 2 (classTy 0 "Node")
            initialState _ _ (fun _ => False));
    [intros symbol; reflexivity | apply Good_initialState
    | vm_compute; reflexivity].
Defined.

(** X18: for a symbol whose name is no key of [Object.prototype], a class
    that a call of [classGen] builds has the [abstract] flag of that call
    and is inited when the call returns it; once [classGen] has returned
    an inited class for a name, every call for a symbol of that name, in
    every later state of the script, returns the same class without
    touching the state, whatever the [abstract] flag of the later call.  A
    class that is returned before it is inited is the object under
    construction in the table, and the call has changed nothing (its
    construction may still fail, see [class_under_construction_fails]). *)
Theorem classGen_memoized oracle fuel symbol abstract st c st' :
  ownName (sym_name (oracle symbol)) ->
  classGen oracle fuel symbol abstract st = Some (Ok c, st') ->
  (classes st !! sym_name (oracle symbol) = None ->
   cg_abstract c = abstract /\ cg_inited c = true)
  /\ (cg_inited c = true ->
      forall st'' fuel' symbol' abstract',
        reaches st' st'' ->
        sym_name (oracle symbol') = sym_name (oracle symbol) ->
        classGen oracle (S fuel') symbol' abstract' st'' = Some (Ok c, st''))
  /\ (cg_inited c = false ->
      st' = st /\ underConstruction st (sym_name (oracle symbol)) c).
Proof.
  intros _ H.
  assert (Hfresh : classes st !! sym_name (oracle symbol) = None ->
            cg_abstract c = abstract /\ cg_inited c = true).
  { intros Hnone.
    pose proof (classGen_fresh_allowed _ _ _ _ _ _ _ H Hnone) as Hb.
    destruct fuel as [|fuel]; [discriminate|].
    destruct (classGen_fresh_run _ _ _ _ _ _ _ H Hnone Hb)
      as (stk & _ & [(e & E & _)|(inherit & st2 & l & E & _)]);
      [discriminate|].
    injection E as ->. split; reflexivity. }
  split; [exact Hfresh|]. split.
  - intros Hinited st'' fuel' symbol' abstract' Hreach Hname.
    destruct (classGen_spec oracle fuel _ _ _ _ _ H) as (_ & _ & R & _).
    destruct (R c eq_refl) as [Hstored Hvalid].
    apply (reaches_settled _ _ _ _ Hreach) in Hstored; [|now left].
    cbn. unfold classGenBody, bind, getClass.
    now rewrite Hname, Hstored, Hvalid.
  - intros Hinited.
    destruct (classes st !! sym_name (oracle symbol)) as [already|] eqn:Hlook.
    + destruct fuel as [|fuel]; [discriminate|].
      cbn [classGen] in H. unfold classGenBody, bind, getClass in H.
      rewrite Hlook in H.
      destruct (cg_invalid already) eqn:Hvalid; run_end H.
      split; [reflexivity|]. split; [exact Hlook|]. split; assumption.
    + destruct (Hfresh eq_refl) as [_ Hi]. congruence.
Qed.

Lemma classGen_memoized_witness :
  exists c st',
    ownName (sym_name (oracleSelf 0))
    /\ classGen oracleSelf 2 0 false initialState = Some (Ok c, st')
    /\ (classes initialState !! sym_name (oracleSelf 0) = None ->
        cg_abstract c = false /\ cg_inited c = true)
    /\ (cg_inited c = true ->
        forall st'' fuel' symbol' abstract',
          reaches st' st'' ->
          sym_name (oracleSelf symbol') = sym_name (oracleSelf 0) ->
          classGen oracleSelf (S fuel') symbol' abstract' st''
          = Some (Ok c, st''))
    /\ (cg_inited c = false ->
        st' = initialState
        /\ underConstruction initialState (sym_name (oracleSelf 0)) c).
Proof.
  eexists. eexists. split; [reflexivity|].
  split; [vm_compute; reflexivity|].
  eapply (classGen_memoized oracleSelf 2 0 false initialState);
    [reflexivity | vm_compute; reflexivity].
Defined.

(** [class A extends B { l: NodeList }] and [class B { a: A }]: while [A]
    is under construction, the call for the type of the field of [B]
    returns the object of [A]; then [B] is inited, the field [l] of [A] is
    refused and the construction of [A] fails; in the state after that, a
    call for [A] is refused. *)
Example class_under_construction_fails :
  let stAB :=
    overwrite (overwrite initialState "A" (newClassGen "A" false))
      "B" (newClassGen "B" false) in
  let stEnd :=
    overwrite
      (overwrite stAB "B"
         (init (newClassGen "B" false) None
            [ {| id_name := "a"; id_type := ClassType "A" |} ]
            [constructorOf []] []))
      "A" (setInvalid (newClassGen "A" false)) in
  classGen oracleLate 1 0 false stAB
  = Some (Ok (newClassGen "A" false), stAB)
  /\ classGen oracleLate 3 0 false initialState
     = Some (Throw (GenConstructFail
                      "Refusing to translate blacklisted class NodeList"),
             stEnd)
  /\ reaches stAB stEnd
  /\ classGen oracleLate 1 0 false stEnd
     = Some (Throw (GenConstructFail "Tried to reuse unbuildable type"),
             stEnd).
Proof.
  intros stAB stEnd.
  split; [reflexivity|]. split; [vm_compute; reflexivity|].
  split; [|vm_compute; reflexivity].
  eapply rtc_l.
  - apply (step_init stAB "B" (newClassGen "B" false)).
    split; [reflexivity | split; reflexivity].
  - apply rtc_once, step_invalid.
    split; [reflexivity | split; reflexivity].
Qed.

(** X19: [classGen] and the loop over the symbols in scope never change
    or remove an entry of the table and never drop a diagnostic; and when
    the loop has run from the empty table, every class of the table is
    stored under its own name and is inited or invalid: none is left under
    construction. *)
Theorem table_only_grows oracle fuel :
  (forall symbol abstract st r st',
     classGen oracle fuel symbol abstract st = Some (r, st') -> grows st st')
  /\ (forall scope st r st',
        generate oracle fuel scope st = Some (r, st') -> grows st st')
  /\ (forall scope r st',
        generate oracle fuel scope initialState = Some (r, st') ->
        forall name c,
          classes st' !! name = Some c ->
          cg_name c = name /\ (cg_inited c = true \/ cg_invalid c = true)).
Proof.
  split; [|split].
  - intros symbol abstract st r st' H.
    now apply (classGen_sound _ _ _ _ _ _ _ H).
  - intros scope st r st' H. now apply (generate_sound _ _ _ _ _ _ H).
  - intros scope r st' H name c Hc.
    destruct (generate_sound _ _ _ _ _ _ H) as [_ HG].
    destruct (HG (fun _ => False) (Good_initialState _) name c Hc)
      as (Hname & _ & [[]|Hdone]).
    auto.
Qed.

Lemma symbolStep_permitted oracle fuel symbol gens st gens' st' :
  Good (fun _ => False) st -> allowed st ->
  symbolStep oracle fuel symbol gens st = Some (Ok gens', st') ->
  exists more, gens' = gens ++ more /\ Forall permitted more.
Proof.
  intros HG Hallowed H.
  assert (Hnone : exists more : list Gen,
            gens = gens ++ more /\ Forall permitted more).
  { exists []. split; [now rewrite app_nil_r | constructor]. }
  assert (Hone : forall gen, permitted gen ->
            exists more, gens ++ [gen] = gens ++ more /\ Forall permitted more).
  { intros gen Hgen. exists [gen]. split; [reflexivity|].
    now repeat constructor. }
  assert (Hclass : forall symbol' abstract c st1,
            classGen oracle fuel symbol' abstract st = Some (Ok c, st1) ->
            permitted (GenClass c)).
  { intros symbol' abstract c st1 Hrun.
    destruct (classGen_spec oracle fuel _ _ _ _ _ Hrun) as (_ & P & R & _).
    destruct (R c eq_refl) as [Hstored _].
    destruct (P _ HG _ _ Hstored) as (Hname & _).
    destruct (classGen_keeps oracle allowed fuel _ _ allowed_stable
                _ _ _ Hrun) as [Hkeep _].
    cbn. rewrite Hname. exact (Hkeep Hallowed _ _ Hstored). }
  unfold symbolStep in H. run_try H as a st1 H E.
  - injection E as ->.
    destruct (fl_Class _); cbv iota in H.
    { destruct (ty_symbol _); cbv iota in H; [|run_end H].
      run_bind H as c st1 H1 H2; [discriminate|]. run_end H2. eauto. }
    destruct (fl_Interface _); cbv iota in H.
    { run_bind H as c st1 H1 H2; [discriminate|]. run_end H2. eauto. }
    destruct (_ || _); cbv iota in H.
    { run_bind H as c st1 H1 H2; [discriminate|]. run_end H2.
      apply Hone. apply variableGen_shape in H1 as [Hname Hb]. cbn.
      now rewrite Hname. }
    destruct (fl_Function _); cbv iota in H.
    { run_bind H as c st1 H1 H2; [discriminate|]. run_end H2.
      apply functionGen_shape in H1 as (Hb & _ & Hall).
      eexists. split; [reflexivity|]. apply List.Forall_forall.
      intros x Hx. apply in_map_iff in Hx as (s & <- & Hs). cbn.
      rewrite List.Forall_forall in Hall.
      destruct (Hall s Hs) as (-> & _). exact Hb. }
    run_bind H as c st2 H1 H2; [discriminate|]. run_end H2. exact Hnone.
  - destruct e; try (run_end E).
    run_bind E as c st2 H1 H2; [discriminate|]. run_end H2. exact Hnone.
Qed.

(** X20: after the loop over the symbols in scope, run from the empty
    table, no class of the table has a blacklisted name, and no generator
    is a class, a variable or a function signature of a blacklisted
    name. *)
Theorem nothing_denylisted_generated oracle fuel scope gens st' :
  generate oracle fuel scope initialState = Some (Ok gens, st') ->
  allowed st' /\ Forall permitted gens.
Proof.
  unfold generate.
  assert (Hloop : forall acc st,
            Good (fun _ => False) st -> allowed st -> Forall permitted acc ->
            symbolsLoop oracle fuel scope acc st = Some (Ok gens, st') ->
            allowed st' /\ Forall permitted gens).
  { induction scope as [|symbol scope IH]; intros acc st HG Ha Hacc H;
      cbn in H.
    - run_end H. auto.
    - run_bind H as gens1 st1 H1 H2; [discriminate|].
      assert (HG1 : Good (fun _ => False) st1)
        by now apply (symbolStep_sound _ _ _ _ _ _ _ H1).
      assert (Ha1 : allowed st1)
        by now apply (symbolStep_keeps oracle allowed fuel _ _
                        allowed_stable _ _ _ H1).
      destruct (symbolStep_permitted _ _ _ _ _ _ _ HG Ha H1)
        as (more & -> & Hm).
      apply (IH (acc ++ more) st1 HG1 Ha1); [|exact H2].
      apply Forall_app. auto. }
  intros H. apply (Hloop [] initialState);
    [apply Good_initialState | | constructor | exact H].
  intros name c Hc. cbn in Hc. now rewrite lookup_empty in Hc.
Qed.

Lemma nothing_denylisted_generated_witness :
  exists gens st',
    generate oracleFields 3 [1; 0] initialState = Some (Ok gens, st')
    /\ allowed st' /\ Forall permitted gens.
Proof.
  eexists. eexists. split; [vm_compute; reflexivity|].
  eapply (nothing_denylisted_generated oracleFields 3 [1; 0]).
  vm_compute; reflexivity.
Defined.


(** X21: while no class of the table is blacklisted (as in every state
    the script reaches), [classGen] refuses at every call a blacklisted
    class whose name is no key of [Object.prototype], and leaves the state
    as it was; so do [typeGen] for a type of that class and [variableGen]
    for a variable of that type: the variable is refused with the message
    of the class. *)
Theorem blacklisted_class_refused oracle fuel symbol abstract st :
  let name := sym_name (oracle symbol) in
  let refused : Exn :=
    GenConstructFail ("Refusing to translate blacklisted class " +:+ name) in
  allowed st ->
  ownName name ->
  blacklisted "class" name = true ->
  classGen oracle (S fuel) symbol abstract st = Some (Throw refused, st)
  /\ forall tsType,
       ty_Number tsType = false -> ty_String tsType = false ->
       ty_Void tsType = false -> ty_Boolean tsType = false ->
       ty_Class tsType = true -> ty_symbol tsType = Some symbol ->
       typeGen (classGen oracle (S fuel)) tsType st = Some (Throw refused, st)
       /\ forall sym,
            blacklisted "variable" (sym_name sym) = false ->
            variableGen (classGen oracle (S fuel)) sym tsType st
            = Some (Throw refused, st).
Proof.
  intros name refused Hallowed _ Hb.
  assert (Hnone : classes st !! name = None).
  { destruct (classes st !! name) as [c|] eqn:E; [|reflexivity].
    apply Hallowed in E. congruence. }
  assert (Hclass : forall abstract',
            classGen oracle (S fuel) symbol abstract' st
            = Some (Throw refused, st)).
  { intros abstract'. cbn. unfold classGenBody, bind, getClass.
    fold name. now rewrite Hnone, Hb. }
  split; [apply Hclass|].
  intros tsType Hn Hs Hv Hbo Hc Hsym.
  assert (Htype : typeGen (classGen oracle (S fuel)) tsType st
                  = Some (Throw refused, st)).
  { unfold typeGen. rewrite Hn, Hs, Hv, Hbo, Hc, Hsym.
    unfold bind. now rewrite Hclass. }
  split; [exact Htype|].
  intros sym Hvar. unfold variableGen, tryCatch. rewrite Hvar.
  unfold bind. now rewrite Htype.
Qed.

Lemma blacklisted_class_refused_witness :
  allowed initialState
  /\ ownName (sym_name (oracleNodeList 1))
  /\ blacklisted "class" (sym_name (oracleNodeList 1)) = true
  /\ classGen oracleNodeList 1 1 false initialState
     = Some (Throw (GenConstructFail
                      "Refusing to translate blacklisted class NodeList"),
             initialState)
  /\ forall tsType,
       ty_Number tsType = false -> ty_String tsType = false ->
       ty_Void tsType = false -> ty_Boolean tsType = false ->
       ty_Class tsType = true -> ty_symbol tsType = Some 1 ->
       typeGen (classGen oracleNodeList 1) tsType initialState
       = Some (Throw (GenConstructFail
                        "Refusing to translate blacklisted class NodeList"),
               initialState)
       /\ forall sym,
            blacklisted "variable" (sym_name sym) = false ->
            variableGen (classGen oracleNodeList 1) sym tsType initialState
            = Some (Throw (GenConstructFail
                             "Refusing to translate blacklisted class NodeList"),
                    initialState).
Proof.
  assert (Ha : allowed initialState).
  { intros name c Hc. cbn in Hc. now rewrite lookup_empty in Hc. }
  split; [exact Ha|]. split; [reflexivity|]. split; [reflexivity|].
  apply (blacklisted_class_refused oracleNodeList 0 1 false initialState Ha);
    reflexivity.
Defined.

(** The variable [list] of the blacklisted class [NodeList] gives no
    declaration, and one diagnostic. *)
Example script_blacklisted_class :
  exists st,
    script tarjan oracleNodeList 2 [0] initialState = Some (Ok ([], ""), st)
    /\ warnings st = ["Refusing to translate blacklisted class NodeList"].
Proof. eexists. split; vm_compute; reflexivity. Qed.

(** ** The graph of the generators *)

Lemma nodes_setEdge g v w x :
  closed g ->
  In x (nodes (setEdge g v w)) <-> In x (nodes g) \/ x = v \/ x = w.
Proof.
  intros Hg. unfold setEdge. destruct (hasEdge g v w) eqn:Hedge.
  - apply hasEdge_In in Hedge. destruct (Hg v w Hedge) as [Hv Hw].
    split; [auto|]. intros [H|[->| ->]]; auto.
  - change (In x (nodes (ensureNode (ensureNode g v) w))
            <-> In x (nodes g) \/ x = v \/ x = w).
    rewrite !nodes_ensureNode. tauto.
Qed.

Lemma closed_setNode g v gen : closed g -> closed (setNode g v gen).
Proof.
  intros Hg u w. unfold edge. rewrite edges_setNode. intros H.
  rewrite !nodes_setNode. destruct (Hg u w H). auto.
Qed.

Lemma closed_setEdge g v w : closed g -> closed (setEdge g v w).
Proof.
  intros Hg u x. unfold edge. rewrite edges_setEdge, !nodes_setEdge by exact Hg.
  intros [[= -> ->]|H]; [auto|]. destruct (Hg u x H). auto.
Qed.

Lemma setEdges_nodes deps : forall g key,
  closed g ->
  let g' := fold_left (fun g dep => setEdge g key dep) deps g in
  closed g'
  /\ forall x, In x (nodes g')
               <-> In x (nodes g) \/ (deps <> [] /\ x = key) \/ In x deps.
Proof.
  induction deps as [|dep deps IH]; intros g key Hg; cbn.
  - split; [exact Hg|]. intros x. split; [auto|].
    intros [H|[[H _]|[]]]; [exact H|congruence].
  - destruct (IH (setEdge g key dep) key (closed_setEdge _ _ _ Hg))
      as [Hclosed Hnodes].
    split; [exact Hclosed|]. intros x. rewrite Hnodes, nodes_setEdge by exact Hg.
    assert (Hne : dep :: deps <> []) by discriminate.
    split.
    + intros [[H|[->| ->]]|[[_ ->]|H]]; cbn; auto.
    + intros [H|[[_ ->]|[<-|H]]]; auto.
Qed.

Lemma addGenerator_nodes g gen :
  closed g ->
  closed (addGenerator g gen)
  /\ forall x, In x (nodes (addGenerator g gen))
               <-> In x (nodes g) \/ x = genKey gen \/ In x (depends gen).
Proof.
  intros Hg. unfold addGenerator.
  destruct (setEdges_nodes (depends gen)
              (setNode g (keyString (dependKey gen)) gen)
              (keyString (dependKey gen)) (closed_setNode _ _ _ Hg))
    as [Hclosed Hnodes].
  split; [exact Hclosed|]. intros x. rewrite Hnodes, nodes_setNode.
  unfold genKey. tauto.
Qed.

Lemma fold_addGenerator_nodes gens : forall g,
  closed g ->
  closed (fold_left addGenerator gens g)
  /\ forall x, In x (nodes (fold_left addGenerator gens g))
               <-> In x (nodes g)
                   \/ exists gen, In gen gens
                                  /\ (x = genKey gen \/ In x (depends gen)).
Proof.
  induction gens as [|gen gens IH]; intros g Hg; cbn.
  - split; [exact Hg|]. intros x. split; [auto|].
    intros [H|(gen & [] & _)]. exact H.
  - destruct (addGenerator_nodes g gen Hg) as [Hclosed Hnodes].
    destruct (IH _ Hclosed) as [Hclosed' Hnodes'].
    split; [exact Hclosed'|]. intros x. rewrite Hnodes', Hnodes. split.
    + intros [[H|H]|(gen' & Hin & H)]; eauto.
    + intros [H|(gen' & [<-|Hin] & H)]; eauto.
Qed.

Lemma closed_emptyGraph : closed emptyGraph.
Proof. intros u w []. Qed.

(** X22: the nodes of the graph [dependencies] are exactly the keys of
    the generators and the keys they depend on; it has an edge from [u] to
    [w] exactly when a generator of key [u] depends on [w]; and both ends
    of every edge are nodes. *)
Theorem dependencies_graph gens :
  (forall v, In v (nodes (dependencies gens))
             <-> exists gen, In gen gens
                             /\ (v = genKey gen \/ In v (depends gen)))
  /\ (forall u w, edge (dependencies gens) u w
                  <-> exists gen, In gen gens /\ genKey gen = u
                                  /\ In w (depends gen))
  /\ closed (dependencies gens).
Proof.
  destruct (fold_addGenerator_nodes gens emptyGraph closed_emptyGraph)
    as [Hclosed Hnodes].
  split; [|split; [apply dependencies_edge|exact Hclosed]].
  intros v. unfold dependencies. rewrite Hnodes. cbn. tauto.
Qed.

Lemma dependencies_snoc gens gen :
  dependencies (gens ++ [gen]) = addGenerator (dependencies gens) gen.
Proof. unfold dependencies. now rewrite fold_left_app. Qed.

Lemma node_dependencies_last gens v : forall G,
  node (dependencies gens) v = Some G
  <-> exists before after,
        gens = before ++ G :: after /\ genKey G = v
        /\ forall G', In G' after -> genKey G' <> v.
Proof.
  induction gens as [|gen gens IH] using rev_ind; intros G.
  - split; [discriminate|]. intros (before & after & E & _).
    now destruct before.
  - rewrite dependencies_snoc.
    destruct (addGenerator_facts (dependencies gens) gen) as (Hnode & _).
    rewrite Hnode. destruct (String.eqb_spec (genKey gen) v) as [Hv|Hv].
    + split.
      * intros [= ->]. exists gens, []. split; [reflexivity|].
        split; [exact Hv|]. intros G' [].
      * intros (before & after & E & HG & Hafter).
        destruct after as [|x after] using rev_ind.
        -- apply app_inj_tail in E as [_ ->]. reflexivity.
        -- clear IHafter. rewrite app_comm_cons, app_assoc in E.
           apply app_inj_tail in E as [_ ->].
           exfalso. apply (Hafter x); [|exact Hv].
           apply in_app_iff. right. now left.
    + rewrite IH. split.
      * intros (before & after & -> & HG & Hafter).
        exists before, (after ++ [gen]). split; [now rewrite <- app_assoc|].
        split; [exact HG|]. intros G' HG'.
        apply in_app_iff in HG' as [HG'|[<-|[]]]; auto.
      * intros (before & after & E & HG & Hafter).
        destruct after as [|x after] using rev_ind.
        -- apply app_inj_tail in E as [_ ->]. congruence.
        -- clear IHafter. rewrite app_comm_cons, app_assoc in E.
           apply app_inj_tail in E as [-> ->].
           exists before, after. split; [reflexivity|].
           split; [exact HG|]. intros G' HG'. apply Hafter.
           apply in_app_iff. now left.
Qed.

(** X23: the label of a node of [dependencies] is the last generator
    with that key: an earlier generator with the same key (an earlier
    overload of a function) is overwritten; and a node has no label
    exactly when no generator has its key. *)
Theorem dependencies_label_is_last gens v :
  (forall G,
     node (dependencies gens) v = Some G
     <-> exists before after,
           gens = before ++ G :: after /\ genKey G = v
           /\ forall G', In G' after -> genKey G' <> v)
  /\ (node (dependencies gens) v = None
      <-> forall G, In G gens -> genKey G <> v).
Proof.
  split; [apply node_dependencies_last|]. split.
  - intros Hnone G HG Hkey.
    destruct (dependencies_labelled gens G HG) as (G' & E).
    rewrite Hkey in E. congruence.
  - intros Hall. destruct (node (dependencies gens) v) as [G|] eqn:E;
      [|reflexivity].
    apply node_dependencies_last in E as (before & after & -> & Hkey & _).
    exfalso. apply (Hall G); [|exact Hkey]. apply in_app_iff. right. now left.
Qed.

(** ** The sorted generators *)

Lemma emitOf_cases g c :
  emitOf g c = []
  \/ exists v E, c = [v] /\ node g v = Some E /\ emitOf g c = [E].
Proof.
  destruct (emitOf g c) as [|E l] eqn:Hemit; [now left|right].
  pose proof (emitOf_length g c) as Hlen. rewrite Hemit in Hlen.
  destruct l; [|cbn in Hlen; lia].
  destruct (emitOf_inv g c E) as (v & -> & Hnode); [rewrite Hemit; now left|].
  eauto.
Qed.

Lemma emitted_keys g sccs :
  (forall v E, node g v = Some E -> dependKey E = Some v) ->
  NoDup (concat sccs) ->
  NoDup (map dependKey (flat_map (emitOf g) sccs))
  /\ forall k, In k (map dependKey (flat_map (emitOf g) sccs)) ->
               exists v, k = Some v /\ In v (concat sccs).
Proof.
  intros Hkey. induction sccs as [|c sccs IH]; intros Hnodup.
  - split; [constructor|]. intros k [].
  - cbn [concat flat_map] in *.
    apply NoDup_app in Hnodup as (Hc & Hdisj & Hrest).
    destruct (IH Hrest) as [IHnodup IHin]. rewrite map_app.
    destruct (emitOf_cases g c) as [->|(v & E & -> & Hnode & ->)].
    + split; [exact IHnodup|]. intros k Hk.
      destruct (IHin k Hk) as (v & -> & Hv). exists v. split; [reflexivity|].
      apply in_app_iff. now right.
    + cbn [map app]. rewrite (Hkey v E Hnode). split.
      * apply NoDup_cons. split; [|exact IHnodup].
        intros Hin. apply list_elem_of_In in Hin.
        destruct (IHin _ Hin) as (v' & [= <-] & Hv).
        apply (Hdisj v); [now left|]. now apply list_elem_of_In.
      * intros k [<-|Hk].
        -- exists v. split; [reflexivity|]. now left.
        -- destruct (IHin k Hk) as (v' & -> & Hv). exists v'.
           split; [reflexivity|]. now right.
Qed.

(** X24: no two emitted declarations have the same dependency key, and an
    emitted declaration is the last generator with its key: of the
    overloads of a function at most the last one is printed. *)
Theorem emitted_once_last_wins
    (components : Graph -> list (list string)) (oracle : Oracle)
    (fuel : nat) (scope : list SymId) (st : State) (gens : list Gen)
    (st1 : State) :
  generate oracle fuel scope st = Some (Ok gens, st1) ->
  sccContract (dependencies gens) (components (dependencies gens)) ->
  exists out st2,
    sortedGenerators components gens st1 = Some (Ok out, st2)
    /\ NoDup (map dependKey out)
    /\ forall E, In E out ->
         exists before after,
           gens = before ++ E :: after
           /\ forall G, In G after -> dependKey G <> dependKey E.
Proof.
  intros Hgen Hcontract.
  pose proof (generate_keyed _ _ _ _ _ _ Hgen) as Hkeyed.
  eexists _, _. split; [apply (sortedGenerators_run _ _ Hkeyed Hcontract)|].
  split.
  - apply emitted_keys; [|apply (scc_nodup _ _ Hcontract)].
    intros v E Hnode. now apply (labelled_key gens Hkeyed).
  - intros E HE.
    apply (emitted_inv components gens Hkeyed) in HE
      as (v & _ & Hnode & Hkey & _).
    apply node_dependencies_last in Hnode as (before & after & -> & _ & Hafter).
    exists before, after. split; [reflexivity|]. intros G HG E'.
    apply (Hafter G HG). unfold genKey. now rewrite E', Hkey.
Qed.

Lemma emitted_once_last_wins_witness :
  exists gens st1,
    generate oracleOverloads 1 [0] initialState = Some (Ok gens, st1)
    /\ sccContract (dependencies gens) (tarjan (dependencies gens))
    /\ length gens = 2
    /\ exists out st2,
         sortedGenerators tarjan gens st1 = Some (Ok out, st2)
         /\ NoDup (map dependKey out)
         /\ forall E, In E out ->
              exists before after,
                gens = before ++ E :: after
                /\ forall G, In G after -> dependKey G <> dependKey E.
Proof.
  eexists. eexists.
  split; [vm_compute; reflexivity|].
  split; [apply contractCheck_sound; vm_compute; reflexivity|].
  split; [reflexivity|].
  apply (emitted_once_last_wins tarjan oracleOverloads 1 [0] initialState).
  - vm_compute; reflexivity.
  - apply contractCheck_sound; vm_compute; reflexivity.
Defined.

(** X25: a key that a generator depends on and that no generator bears (a
    class that is referred to but is not among the generators) is a node
    without label, alone in its component: nothing is emitted for it, and
    no diagnostic names it. *)
Theorem unknown_dependency_dropped_silently
    (components : Graph -> list (list string)) (oracle : Oracle)
    (fuel : nat) (scope : list SymId) (st : State) (gens : list Gen)
    (st1 : State) (D : Gen) (k : string) :
  generate oracle fuel scope st = Some (Ok gens, st1) ->
  sccContract (dependencies gens) (components (dependencies gens)) ->
  In D gens -> In k (depends D) ->
  (forall G, In G gens -> dependKey G <> Some k) ->
  let sccs := components (dependencies gens) in
  exists out st2,
    sortedGenerators components gens st1 = Some (Ok out, st2)
    /\ In k (nodes (dependencies gens))
    /\ node (dependencies gens) k = None
    /\ In [k] sccs
    /\ (forall E, In E out -> dependKey E <> Some k)
    /\ (forall c, In c sccs -> cyclic c = true -> ~ In k c)
    /\ warnings st2
       = warnings st1 ++ map cycleMessage (List.filter cyclic sccs).
Proof.
  intros Hgen Hcontract HD Hk Hnone sccs.
  pose proof (generate_keyed _ _ _ _ _ _ Hgen) as Hkeyed.
  assert (Hnodes : In k (nodes (dependencies gens))).
  { destruct (fold_addGenerator_nodes gens emptyGraph closed_emptyGraph)
      as [_ Hn].
    apply Hn. right. eauto. }
  assert (Hnode : node (dependencies gens) k = None).
  { destruct (node (dependencies gens) k) as [G|] eqn:E; [|reflexivity].
    apply (labelled_key gens Hkeyed) in E as [HG E]. now apply Hnone in HG. }
  assert (Hcyc : forall c, In c sccs -> cyclic c = true -> ~ In k c).
  { intros c Hc Hcyclic Hin.
    destruct (cyclic_labelled components gens Hkeyed Hcontract c k Hc
                Hcyclic Hin) as (G & E & _).
    congruence. }
  eexists _, _. split; [apply (sortedGenerators_run _ _ Hkeyed Hcontract)|].
  split; [exact Hnodes|]. split; [exact Hnode|].
  split; [|split; [|split; [exact Hcyc|reflexivity]]].
  - apply (scc_nodes _ _ Hcontract) in Hnodes.
    apply in_concat in Hnodes as (c & Hc & Hin).
    destruct c as [|x [|y c]]; [destruct Hin| |].
    + destruct Hin as [->|[]]. exact Hc.
    + exfalso. now apply (Hcyc _ Hc).
  - intros E HE.
    apply (emitted_inv components gens Hkeyed) in HE as (v & _ & _ & _ & Hin).
    now apply Hnone.
Qed.

Lemma unknown_dependency_dropped_silently_witness :
  exists gens st1 D,
    generate oracleUnlisted 2 [0] initialState = Some (Ok gens, st1)
    /\ sccContract (dependencies gens) (tarjan (dependencies gens))
    /\ In D gens /\ In "C" (depends D)
    /\ (forall G, In G gens -> dependKey G <> Some "C")
    /\ let sccs := tarjan (dependencies gens) in
       exists out st2,
         sortedGenerators tarjan gens st1 = Some (Ok out, st2)
         /\ In "C" (nodes (dependencies gens))
         /\ node (dependencies gens) "C" = None
         /\ In ["C"] sccs
         /\ (forall E, In E out -> dependKey E <> Some "C")
         /\ (forall c, In c sccs -> cyclic c = true -> ~ In "C" c)
         /\ warnings st2
            = warnings st1 ++ map cycleMessage (List.filter cyclic sccs).
Proof.
  eexists. eexists. eexists.
  assert (Hnone : forall G,
            In G [GenVariable {| id_name := "v"; id_type := ClassType "C" |}] ->
            dependKey G <> Some "C").
  { intros G [<-|[]]. discriminate. }
  split; [vm_compute; reflexivity|].
  split; [apply contractCheck_sound; vm_compute; reflexivity|].
  split; [now left|].
  split; [now left|].
  split; [exact Hnone|].
  apply (unknown_dependency_dropped_silently tarjan oracleUnlisted 2 [0]
           initialState _ _
           (GenVariable {| id_name := "v"; id_type := ClassType "C" |}) "C").
  - vm_compute; reflexivity.
  - apply contractCheck_sound; vm_compute; reflexivity.
  - now left.
  - now left.
  - exact Hnone.
Defined.

(** X26: a generator that is the last one with its key and whose key
    lies in no component of more than one member is emitted: together
    with the cycles, the overwritten generators are all that the sorting
    drops. *)
Theorem last_generators_off_cycles_emitted
    (components : Graph -> list (list string)) (oracle : Oracle)
    (fuel : nat) (scope : list SymId) (st : State) (gens : list Gen)
    (st1 : State) (before : list Gen) (E : Gen) (after : list Gen) :
  generate oracle fuel scope st = Some (Ok gens, st1) ->
  sccContract (dependencies gens) (components (dependencies gens)) ->
  gens = before ++ E :: after ->
  (forall G, In G after -> dependKey G <> dependKey E) ->
  (forall c, In c (components (dependencies gens)) -> cyclic c = true ->
             ~ In (genKey E) c) ->
  exists out st2,
    sortedGenerators components gens st1 = Some (Ok out, st2) /\ In E out.
Proof.
  intros Hgen Hcontract Hsplit Hlast Hoff.
  pose proof (generate_keyed _ _ _ _ _ _ Hgen) as Hkeyed.
  eexists _, _. split; [apply (sortedGenerators_run _ _ Hkeyed Hcontract)|].
  assert (HE : In E gens) by (rewrite Hsplit; apply in_app_iff; right; now left).
  assert (Hnode : node (dependencies gens) (genKey E) = Some E).
  { apply node_dependencies_last. exists before, after.
    split; [exact Hsplit|]. split; [reflexivity|].
    intros G HG Hkey. apply (Hlast G HG).
    assert (HG' : In G gens)
      by (rewrite Hsplit; apply in_app_iff; right; now right).
    rewrite List.Forall_forall in Hkeyed.
    pose proof (Hkeyed G HG') as HkG. pose proof (Hkeyed E HE) as HkE.
    unfold keyed, genKey in *.
    destruct (dependKey G), (dependKey E); cbn in Hkey; congruence. }
  destruct (component_of _ _ Hcontract (genKey E)
              (dependencies_nodes gens E HE))
    as (b & c & a & Hsccs & Hin).
  assert (Hc : In c (components (dependencies gens)))
    by (rewrite Hsccs; apply in_app_iff; right; now left).
  assert (Hone : c = [genKey E]).
  { destruct (cyclic c) eqn:Hcyc; [now destruct (Hoff c Hc Hcyc)|].
    unfold cyclic in Hcyc. apply Nat.ltb_ge in Hcyc.
    destruct c as [|x [|y c]]; [destruct Hin| |cbn in Hcyc; lia].
    destruct Hin as [->|[]]. reflexivity. }
  apply in_flat_map. exists c. split; [exact Hc|].
  rewrite Hone, (emitOf_singleton _ _ _ Hnode). now left.
Qed.

Lemma last_generators_off_cycles_emitted_witness :
  exists gens st1,
    generate oracleSelf 2 [0] initialState = Some (Ok gens, st1)
    /\ sccContract (dependencies gens) (tarjan (dependencies gens))
    /\ gens = [] ++ GenClass nodeClass :: []
    /\ (forall G, In G [] -> dependKey G <> dependKey (GenClass nodeClass))
    /\ (forall c, In c (tarjan (dependencies gens)) -> cyclic c = true ->
                  ~ In (genKey (GenClass nodeClass)) c)
    /\ exists out st2,
         sortedGenerators tarjan gens st1 = Some (Ok out, st2)
         /\ In (GenClass nodeClass) out.
Proof.
  eexists. eexists.
  assert (Hlast : forall G : Gen, In G [] ->
                    dependKey G <> dependKey (GenClass nodeClass))
    by (intros G []).
  assert (Hoff : forall c,
            In c (tarjan (dependencies [GenClass nodeClass])) ->
            cyclic c = true -> ~ In (genKey (GenClass nodeClass)) c).
  { intros c Hc Hcyc. vm_compute in Hc. destruct Hc as [<-|[]].
    discriminate Hcyc. }
  split; [vm_compute; reflexivity|].
  split; [apply contractCheck_sound; vm_compute; reflexivity|].
  split; [reflexivity|]. split; [exact Hlast|]. split; [exact Hoff|].
  apply (last_generators_off_cycles_emitted tarjan oracleSelf 2 [0]
           initialState _ _ [] (GenClass nodeClass) []).
  - vm_compute; reflexivity.
  - apply contractCheck_sound; vm_compute; reflexivity.
  - reflexivity.
  - exact Hlast.
  - exact Hoff.
Defined.

(** A variable of a class that is not among the symbols in scope is
    printed, the class is not. *)
Example script_unlisted_class :
  exists st,
    script tarjan oracleUnlisted 2 [0] initialState
    = Some (Ok ([GenVariable {| id_name := "v"; id_type := ClassType "C" |}],
                "var v* {.importc, nodecl.}: C"), st)
    /\ warnings st = [].
Proof. eexists. split; vm_compute; reflexivity. Qed.

Lemma script_prints_witness :
  exists gens st1,
    ownNames oracleSelf
    /\ generate oracleSelf 2 [0] initialState = Some (Ok gens, st1)
    /\ sccContract (dependencies gens) (tarjan (dependencies gens))
    /\ exists out text st2,
         script tarjan oracleSelf 2 [0] initialState
         = Some (Ok (out, text), st2)
         /\ sortedGenerators tarjan gens st1 = Some (Ok out, st2)
         /\ decls out = Ok text.
Proof.
  eexists. eexists.
  split; [intros symbol; reflexivity|].
  split; [vm_compute; reflexivity|].
  split; [apply contractCheck_sound; vm_compute; reflexivity|].
  apply (script_prints tarjan oracleSelf 2 [0]).
  - intros symbol; reflexivity.
  - vm_compute; reflexivity.
  - apply contractCheck_sound; vm_compute; reflexivity.
Defined.
